(** * Formality core: a shallow embedding of the kernel

    The development follows the JavaScript kernel function by function:
    the term algebra with its structural hashes, [shift] / [subst],
    [erase], the normaliser [reduce] (unquote / reduce / quote over
    host closures), the equality engine [equal] with its hole registry,
    the bidirectional checker [typecheck], the affinity analysis, the
    pointer-graph runtime and the node memory of the interaction nets.

    Conventions.
    - A JavaScript number is modelled by [Z]: the integer-valued doubles.
      Where an operator leaves that domain the model says so explicitly
      (see [prim_result]).
    - [term[3]], the source location, only feeds the text of error
      messages and is left out of the term representation.
    - [term[2]], the structural hash, is the function [memo] of the tree:
      that is the string every constructor stores while the global
      [MEMO] flag is on.  The flag itself is part of the modelled state
      where it can be observed (see [reduce] and [equal]). *)

From stdpp Require Import gmap strings pretty list.
From Equations Require Import Equations.

Local Open Scope string_scope.
Local Open Scope Z_scope.
Set Warnings "-register-all".

(** ** Terms *)

(** The tagged variants.  [D] is what the [done] field of an [Ann] node
    holds: the flag itself where a term is only read and rebuilt
    ([term]), the heap cell of the flag where the checker mutates it in
    place ([hterm], see the type checker). *)
Inductive term_ (D : Type) : Type :=
| Var (index : Z)
| Typ
| All (name : string) (bind body : term_ D) (eras : bool)
| Lam (name : string) (bind : option (term_ D)) (body : term_ D) (eras : bool)
| App (func argm : term_ D) (eras : bool)
| Slf (name : string) (type : term_ D)
| New (type expr : term_ D)
| Use (expr : term_ D)
| Num
| Val (numb : Z)
| Op1 (func : string) (num0 num1 : term_ D)
| Op2 (func : string) (num0 num1 : term_ D)
| Ite (cond if_t if_f : term_ D)
| Ann (type expr : term_ D) (done : D)
| Log (msge expr : term_ D)
| Hol (name : string)
| Ref (name : string) (eras : bool).
Arguments Var {D} index.
Arguments Typ {D}.
Arguments All {D} name bind body eras.
Arguments Lam {D} name bind body eras.
Arguments App {D} func argm eras.
Arguments Slf {D} name type.
Arguments New {D} type expr.
Arguments Use {D} expr.
Arguments Num {D}.
Arguments Val {D} numb.
Arguments Op1 {D} func num0 num1.
Arguments Op2 {D} func num0 num1.
Arguments Ite {D} cond if_t if_f.
Arguments Ann {D} type expr done.
Arguments Log {D} msge expr.
Arguments Hol {D} name.
Arguments Ref {D} name eras.

Abbreviation term := (term_ bool).

(** Number of constructors; the measure [erase] recurses on. *)
Fixpoint size {D : Type} (t : term_ D) : nat :=
  match t with
  | Var _ | Typ | Num | Val _ | Hol _ | Ref _ _ => 1
  | All _ bind body _ => S (size bind + size body)
  | Lam _ bind body _ =>
      S (match bind with Some b => size b | None => 0 end + size body)
  | App func argm _ => S (size func + size argm)
  | Slf _ type => S (size type)
  | New type expr => S (size type + size expr)
  | Use expr => S (size expr)
  | Op1 _ num0 num1 | Op2 _ num0 num1 => S (size num0 + size num1)
  | Ite cond if_t if_f => S (size cond + size if_t + size if_f)
  | Ann type expr _ => S (size type + size expr)
  | Log msge expr => S (size msge + size expr)
  end%nat.

(** [term[2]]: the hash string the constructors [Var], [Typ], ... build. *)
Fixpoint memo (t : term) : string :=
  match t with
  | Var index => "^" +:+ pretty index
  | Typ => "ty"
  | All _ bind body eras =>
      "al" +:+ (if eras then "~" else "") +:+ memo bind +:+ memo body
  | Lam _ _ body eras => "lm" +:+ (if eras then "~" else "") +:+ memo body
  | App func argm eras =>
      "ap" +:+ (if eras then "~" else "") +:+ memo func +:+ memo argm
  | Slf _ type => "sf" +:+ memo type
  | New _ expr => memo expr
  | Use expr => memo expr
  | Num => "wd"
  | Val numb => "[" +:+ pretty numb +:+ "]"
  | Op1 func num0 num1 => "o1" +:+ func +:+ memo num0 +:+ memo num1
  | Op2 func num0 num1 => "o2" +:+ func +:+ memo num0 +:+ memo num1
  | Ite cond if_t if_f => "ie" +:+ memo cond +:+ memo if_t +:+ memo if_f
  | Ann _ expr _ => memo expr
  | Log _ expr => memo expr
  | Hol name => "{?" +:+ name +:+ "?}"
  | Ref name _ => "{" +:+ name +:+ "}"
  end.

(** ** Substitution *)

(** [shift] on a term that is there; the [!term] guard of the source is
    [shift_maybe] below. *)
Fixpoint shift (t : term) (inc depth : Z) : term :=
  match t with
  | Var index => Var (if index <? depth then index else index + inc)
  | Typ => Typ
  | All name bind body eras =>
      All name (shift bind inc depth) (shift body inc (depth + 1)) eras
  | Lam name bind body eras =>
      Lam name
        (match bind with Some b => Some (shift b inc depth) | None => None end)
        (shift body inc (depth + 1)) eras
  | App func argm eras => App (shift func inc depth) (shift argm inc depth) eras
  | Num => Num
  | Val numb => Val numb
  | Op1 func num0 num1 => Op1 func (shift num0 inc depth) (shift num1 inc depth)
  | Op2 func num0 num1 => Op2 func (shift num0 inc depth) (shift num1 inc depth)
  | Ite cond if_t if_f =>
      Ite (shift cond inc depth) (shift if_t inc depth) (shift if_f inc depth)
  | Slf name type => Slf name (shift type inc (depth + 1))
  | New type expr => New (shift type inc depth) (shift expr inc depth)
  | Use expr => Use (shift expr inc depth)
  | Ann type expr done => Ann (shift type inc depth) (shift expr inc depth) done
  | Log msge expr => Log (shift msge inc depth) (shift expr inc depth)
  | Hol name => Hol name
  | Ref name eras => Ref name eras
  end.

(** [shift : Maybe(Term) -> Nat -> Nat -> Maybe(Term)]. *)
Definition shift_maybe (t : option term) (inc depth : Z) : option term :=
  match t with
  | None => None
  | Some t => Some (shift t inc depth)
  end.

Fixpoint subst (t : term) (val : term) (depth : Z) : term :=
  match t with
  | Var index =>
      if depth =? index then val
      else Var (index - (if index >? depth then 1 else 0))
  | Typ => Typ
  | All name bind body eras =>
      All name (subst bind val depth)
        (subst body (shift val 1 0) (depth + 1)) eras
  | Lam name bind body eras =>
      Lam name
        (match bind with Some b => Some (subst b val depth) | None => None end)
        (subst body (shift val 1 0) (depth + 1)) eras
  | App func argm eras => App (subst func val depth) (subst argm val depth) eras
  | Num => Num
  | Val numb => Val numb
  | Op1 func num0 num1 => Op1 func (subst num0 val depth) (subst num1 val depth)
  | Op2 func num0 num1 => Op2 func (subst num0 val depth) (subst num1 val depth)
  | Ite cond if_t if_f =>
      Ite (subst cond val depth) (subst if_t val depth) (subst if_f val depth)
  | Slf name type => Slf name (subst type (shift val 1 0) (depth + 1))
  | New type expr => New (subst type val depth) (subst expr val depth)
  | Use expr => Use (subst expr val depth)
  | Ann type expr done => Ann (subst type val depth) (subst expr val depth) done
  | Log msge expr => Log (subst msge val depth) (subst expr val depth)
  | Hol name => Hol name
  | Ref name eras => Ref name eras
  end.

Definition subst_maybe (t : option term) (val : term) (depth : Z) : option term :=
  match t with
  | None => None
  | Some t => Some (subst t val depth)
  end.

(** The [for] loop of [subst_many], [i] running over [vals]; [len] is
    [vals.length] of the whole array. *)
Fixpoint subst_many_from (t : term) (vals : list term) (len i depth : Z) : term :=
  match vals with
  | [] => t
  | v :: rest =>
      subst_many_from
        (subst t (shift v (len - i - 1) 0) (depth + len - i - 1))
        rest len (i + 1) depth
  end.

Definition subst_many (t : term) (vals : list term) (depth : Z) : term :=
  subst_many_from t vals (Z.of_nat (List.length vals)) 0 depth.

(** ** Erasure *)

(** Substituting a hole keeps the size: the erased-lambda case of [erase]
    recurses on such a substitution instance. *)
Lemma size_subst_Hol (t : term) (name : string) (depth : Z) :
  size (subst t (Hol name) depth) = size t.
Proof.
  revert depth.
  induction t as [t IH] using (induction_ltof1 _ (@size bool)); unfold ltof in IH;
    intros depth.
  destruct t as [index| |n b bd e|n [b|] bd e|f a e|n ty|ty ex|ex| |num
                |fn n0 n1|fn n0 n1|c tt ff|ty ex dn|ms ex|nm|nm e];
    cbn [subst shift size];
    repeat (rewrite IH by (cbn [size]; lia)); try reflexivity.
  destruct (depth =? index); reflexivity.
Qed.

Equations? erase (t : term) : term by wf (size t) lt :=
  erase (Var index) := Var index;
  erase Typ := Typ;
  erase (All name bind body eras) := All name (erase bind) (erase body) eras;
  erase (Lam name bind body true) := erase (subst body (Hol "<erased>") 0);
  erase (Lam name bind body false) := Lam name None (erase body) false;
  erase (App func argm true) := erase func;
  erase (App func argm false) := App (erase func) (erase argm) false;
  erase Num := Num;
  erase (Val numb) := Val numb;
  erase (Op1 func num0 num1) := Op1 func (erase num0) (erase num1);
  erase (Op2 func num0 num1) := Op2 func (erase num0) (erase num1);
  erase (Ite cond if_t if_f) := Ite (erase cond) (erase if_t) (erase if_f);
  erase (Slf name type) := Slf name (erase type);
  erase (New type expr) := erase expr;
  erase (Use expr) := erase expr;
  erase (Ann type expr done) := erase expr;
  erase (Log msge expr) := Log (erase msge) (erase expr);
  erase (Hol name) := Hol name;
  erase (Ref name eras) := Ref name true.
Proof.
  all: cbn [size]; rewrite ?size_subst_Hol; lia.
Qed.

(** ** Outcomes

    A call of the kernel returns, throws, or runs on: the normaliser is
    an evaluator of untyped terms.  Recursion whose depth the term does
    not bound is modelled with fuel; [OutOfFuel] is the answer of a run
    that needs more than it was given.  [OutOfModel] is the answer of a
    run whose numbers leave the integers (see [prim_result]). *)

(** The [str] argument of [do_error]. *)
Inductive check_error : Type :=
| ErasedVariableUse (name : option string)
| UnboundVariable
| ForallNotType
| LambdaNotInferable
| LambdaNotForall
| NotAFunction
| MismatchedErasure
| IfNotNumeric
| NewNotSelf
| UseNotSelf
| UndefinedReference (name : string)
| TypeMismatch.

Inductive exn : Type :=
(** ["[NORMALIZATION-ERROR]\nUnknown primitive: " + func + "."] *)
| NormalizationError (func : string)
(** a [TypeError] of the host: a property read on [null] or [undefined] *)
| HostTypeError
(** the string [do_error] throws; its text after the first line (the
    rendering of the term, the context and the source span) is not kept *)
| CheckError (err : check_error).

Inductive res (A : Type) : Type :=
| Ok (a : A)
| Throw (e : exn)
| OutOfFuel
| OutOfModel.
Arguments Ok {A} a.
Arguments Throw {A} e.
Arguments OutOfFuel {A}.
Arguments OutOfModel {A}.

Definition res_bind {A B : Type} (m : res A) (k : A -> res B) : res B :=
  match m with
  | Ok a => k a
  | Throw e => Throw e
  | OutOfFuel => OutOfFuel
  | OutOfModel => OutOfModel
  end.

Notation "'do' x <- m ; k" := (res_bind m (fun x => k))
  (at level 10, x name, m at level 100, k at level 200).
Notation "'do' ' pat <- m ; k" :=
  (res_bind m (fun x => match x with pat => k end))
  (at level 10, pat pattern, m at level 100, k at level 200).

(** ** Machine-word primitives

    The operator table of [op1].  Operands are integer-valued doubles of
    magnitude at most 2^53; on those [+], [-], [*] and [%] are exact as
    long as the result stays in that range, the bitwise operators go
    through [ToInt32] / [ToUint32], and the comparisons are exact.
    [PrimInexact] marks the results that are not such integers: a
    quotient that is not whole, a division by zero, a result beyond
    2^53, and [Math.pow], which the host only approximates. *)

Inductive prim_result : Type :=
| PrimVal (numb : Z)
| PrimInexact
| PrimUnknown.

Definition safe_integer (n : Z) : bool := Z.abs n <=? 2 ^ 53.

Definition exact (n : Z) : prim_result :=
  if safe_integer n then PrimVal n else PrimInexact.

Definition to_uint32 (n : Z) : Z := n mod 2 ^ 32.

Definition to_int32 (n : Z) : Z :=
  let u := n mod 2 ^ 32 in if u <? 2 ^ 31 then u else u - 2 ^ 32.

Definition prim (func : string) (num0 num1 : Z) : prim_result :=
  match func with
  | ".+." => exact (num0 + num1)
  | ".-." => exact (num0 - num1)
  | ".*." => exact (num0 * num1)
  | "./." =>
      if (num1 =? 0) || negb (Z.rem num0 num1 =? 0) then PrimInexact
      else exact (Z.quot num0 num1)
  | ".%." => if num1 =? 0 then PrimInexact else exact (Z.rem num0 num1)
  | ".**." => PrimInexact
  | ".&." => PrimVal (Z.land (to_uint32 num0) (to_uint32 num1))
  | ".|." => PrimVal (Z.lor (to_uint32 num0) (to_uint32 num1))
  | ".^." => PrimVal (Z.lxor (to_uint32 num0) (to_uint32 num1))
  | ".~." => PrimVal (- to_int32 num1 - 1)
  | ".>>>." => PrimVal (Z.shiftr (to_uint32 num0) (num1 mod 32))
  | ".<<." => PrimVal (to_int32 (Z.shiftl (to_uint32 num0) (num1 mod 32)))
  | ".>." => PrimVal (if num0 >? num1 then 1 else 0)
  | ".<." => PrimVal (if num0 <? num1 then 1 else 0)
  | ".==." => PrimVal (if num0 =? num1 then 1 else 0)
  | _ => PrimUnknown
  end.

(** ** The normaliser

    [unquote] turns a term into a value whose binders are host closures;
    [reduce] works on those values; [quote] reads a value back.  The
    closures are the two function expressions of the source, each kept
    with what it captures:
    - [CUnquote body names] is
      [function (x) { return unquote(body, names_ext(x, null, names)); }];
    - [CReduce body name names] is
      [function (x) { return weak_reduce(body(x), names_ext(x, name, names)); }]. *)

Inductive sem : Type :=
| SVar (index : Z)
| STyp
| SAll (name : string) (bind : sem) (body : clos) (eras : bool)
| SLam (name : string) (bind : option sem) (body : clos) (eras : bool)
| SApp (func argm : sem) (eras : bool)
| SSlf (name : string) (type : clos)
| SNew (type expr : sem)
| SUse (expr : sem)
| SNum
| SVal (numb : Z)
| SOp1 (func : string) (num0 num1 : sem)
| SOp2 (func : string) (num0 num1 : sem)
| SIte (cond if_t if_f : sem)
| SAnn (type expr : sem) (done : bool)
| SLog (msge expr : sem)
| SHol (name : string)
| SRef (name : string) (eras : bool)
with clos : Type :=
| CUnquote (body : term) (names : names)
| CReduce (body : clos) (name : string) (names : names)
with names : Type :=
| names_new
| names_ext (bind : sem) (name : option string) (rest : names).

(** [names_get]: [i] steps down the list, stopping on [null]. *)
Fixpoint names_get_nat (i : nat) (ns : names) : option (sem * option string) :=
  match i, ns with
  | _, names_new => None
  | O, names_ext bind name _ => Some (bind, name)
  | S k, names_ext _ _ rest => names_get_nat k rest
  end.

Definition names_get (i : Z) (ns : names) : option (sem * option string) :=
  names_get_nat (Z.to_nat i) ns.

Fixpoint names_len (ns : names) : Z :=
  match ns with
  | names_new => 0
  | names_ext _ _ rest => 1 + names_len rest
  end.

Definition names_var (i : Z) (ns : names) : sem :=
  match names_get i ns with
  | Some (bind, _) => bind
  | None => SVar (names_len ns - i - 1)
  end.

(** The value a hole holds: [undefined], [null], or a term. *)
Inductive hole_value : Type :=
| Unset
| Conflict
| Assigned (value : term).

(** An entry of the hole registry.  Its [error] field (context and
    expected type at the first sighting) is only read by the final
    report of the checker and is kept there. *)
Record hole : Type := Hole { hole_depth : Z; hole_value_of : hole_value }.

Record options : Type := Options {
  weak : bool;
  holes : gmap string hole;
  depth : Z;
  no_app : bool;
  no_op1 : bool;
  no_op2 : bool;
  no_ite : bool;
  no_ref : bool;
  no_hol : bool;
  no_use : bool;
  no_ann : bool;
  logs : bool
}.

(** [{}]: every option absent. *)
Definition no_options : options :=
  Options false ∅ 0 false false false false false false false false false.

Fixpoint unquote (t : term) (ns : names) : sem :=
  match t with
  | Var index => names_var index ns
  | Typ => STyp
  | All name bind body eras =>
      SAll name (unquote bind ns) (CUnquote body ns) eras
  | Lam name bind body eras =>
      SLam name
        (match bind with Some b => Some (unquote b ns) | None => None end)
        (CUnquote body ns) eras
  | App func argm eras => SApp (unquote func ns) (unquote argm ns) eras
  | Num => SNum
  | Val numb => SVal numb
  | Op1 func num0 num1 => SOp1 func (unquote num0 ns) (unquote num1 ns)
  | Op2 func num0 num1 => SOp2 func (unquote num0 ns) (unquote num1 ns)
  | Ite cond if_t if_f =>
      SIte (unquote cond ns) (unquote if_t ns) (unquote if_f ns)
  | Slf name type => SSlf name (CUnquote type ns)
  | New type expr => SNew (unquote type ns) (unquote expr ns)
  | Use expr => SUse (unquote expr ns)
  | Ann type expr done => SAnn (unquote type ns) (unquote expr ns) done
  | Log msge expr => SLog (unquote msge ns) (unquote expr ns)
  | Hol name => SHol name
  | Ref name eras => SRef name eras
  end.

Section Reduce.

Variable defs : gmap string term.
Variable opts : options.

(** The result of the [switch] of [op1]. *)
Definition prim_res (func : string) (num0 num1 : Z) : res sem :=
  match prim func num0 num1 with
  | PrimVal n => Ok (SVal n)
  | PrimInexact => OutOfModel
  | PrimUnknown => Throw (NormalizationError func)
  end.

(** The inner [reduce] with its helpers [apply], [op1], [op2],
    [if_then_else], [dereference], [unhole], [use], [ann], [log] and
    [weak_reduce]; [app_clos c x] is the call [c(x)] of a closure. *)
Fixpoint reduce_sem (fuel : nat) (t : sem) (ns : names) {struct fuel} : res sem :=
  match fuel with
  | O => OutOfFuel
  | S fuel =>
      let weak_reduce (t : sem) (ns : names) : res sem :=
        if weak opts then Ok t else reduce_sem fuel t ns in
      match t with
      | SVar index => Ok (SVar index)
      | STyp => Ok STyp
      | SAll name bind body eras =>
          do bind' <- weak_reduce bind ns;
          Ok (SAll name bind' (CReduce body name ns) eras)
      | SLam name bind body eras =>
          do bind' <- match bind with
                      | Some b => do b' <- weak_reduce b ns; Ok (Some b')
                      | None => Ok None
                      end;
          Ok (SLam name bind' (CReduce body name ns) eras)
      | SApp func argm eras =>
          do func' <- reduce_sem fuel func ns;
          match negb (no_app opts), func' with
          | true, SLam _ _ body _ =>
              do inst <- app_clos fuel body argm;
              reduce_sem fuel inst ns
          | _, _ =>
              do argm' <- weak_reduce argm ns;
              Ok (SApp func' argm' eras)
          end
      | SNum => Ok SNum
      | SVal numb => Ok (SVal numb)
      | SOp1 func num0 num1 =>
          do num0' <- reduce_sem fuel num0 ns;
          match negb (no_op1 opts), num0', num1 with
          | true, SVal n0, SVal n1 => prim_res func n0 n1
          | _, _, _ => Ok (SOp1 func num0' num1)
          end
      | SOp2 func num0 num1 =>
          do num1' <- reduce_sem fuel num1 ns;
          match negb (no_op2 opts), num1' with
          | true, SVal _ => reduce_sem fuel (SOp1 func num0 num1') ns
          | _, _ =>
              do num0' <- weak_reduce num0 ns;
              Ok (SOp2 func num0' num1')
          end
      | SIte cond if_t if_f =>
          do cond' <- reduce_sem fuel cond ns;
          match negb (no_ite opts), cond' with
          | true, SVal numb =>
              if numb >? 0 then reduce_sem fuel if_t ns
              else reduce_sem fuel if_f ns
          | _, _ =>
              do if_t' <- weak_reduce if_t ns;
              do if_f' <- weak_reduce if_f ns;
              Ok (SIte cond' if_t' if_f')
          end
      | SSlf name type => Ok (SSlf name (CReduce type name ns))
      | SNew type expr =>
          do type' <- weak_reduce type ns;
          do expr' <- weak_reduce expr ns;
          Ok (SNew type' expr')
      | SUse expr =>
          do expr' <- reduce_sem fuel expr ns;
          match negb (no_use opts), expr' with
          | true, SNew _ inner => reduce_sem fuel inner ns
          | _, _ => Ok (SUse expr')
          end
      | SAnn type expr _ =>
          do expr' <- reduce_sem fuel expr ns;
          if negb (no_ann opts) then Ok expr'
          else
            do type' <- weak_reduce type ns;
            Ok (SAnn type' expr' false)
      | SLog msge expr =>
          do msge' <- reduce_sem fuel msge ns;
          do expr' <- reduce_sem fuel expr ns;
          (* with [opts.logs] the message is rendered and printed:
             console output is outside the model *)
          if logs opts then OutOfModel else Ok expr'
      | SHol name =>
          match negb (no_hol opts), holes opts !! name with
          | true, Some (Hole hole_d (Assigned value)) =>
              let d := depth opts + names_len ns in
              let value := shift value (d - hole_d) 0 in
              reduce_sem fuel (unquote value ns) ns
          | _, _ => Ok (SHol name)
          end
      | SRef name eras =>
          match negb (no_ref opts), defs !! name with
          | true, Some value =>
              let value := if eras then erase value else value in
              reduce_sem fuel (unquote value names_new) names_new
          | _, _ => Ok (SRef name eras)
          end
      end
  end
with app_clos (fuel : nat) (c : clos) (x : sem) {struct fuel} : res sem :=
  match fuel with
  | O => OutOfFuel
  | S fuel =>
      match c with
      | CUnquote body ns => Ok (unquote body (names_ext x None ns))
      | CReduce body name ns =>
          do inst <- app_clos fuel body x;
          if weak opts then Ok inst
          else reduce_sem fuel inst (names_ext x (Some name) ns)
      end
  end.

Fixpoint quote (fuel : nat) (t : sem) (d : Z) {struct fuel} : res term :=
  match fuel with
  | O => OutOfFuel
  | S fuel =>
      match t with
      | SVar index => Ok (Var (d - 1 - index))
      | STyp => Ok Typ
      | SAll name bind body eras =>
          do bind' <- quote fuel bind d;
          do inst <- app_clos fuel body (SVar d);
          do body' <- quote fuel inst (d + 1);
          Ok (All name bind' body' eras)
      | SLam name bind body eras =>
          do bind' <- match bind with
                      | Some b => do b' <- quote fuel b d; Ok (Some b')
                      | None => Ok None
                      end;
          do inst <- app_clos fuel body (SVar d);
          do body' <- quote fuel inst (d + 1);
          Ok (Lam name bind' body' eras)
      | SApp func argm eras =>
          do func' <- quote fuel func d;
          do argm' <- quote fuel argm d;
          Ok (App func' argm' eras)
      | SNum => Ok Num
      | SVal numb => Ok (Val numb)
      | SOp1 func num0 num1 =>
          do num0' <- quote fuel num0 d;
          do num1' <- quote fuel num1 d;
          Ok (Op1 func num0' num1')
      | SOp2 func num0 num1 =>
          do num0' <- quote fuel num0 d;
          do num1' <- quote fuel num1 d;
          Ok (Op2 func num0' num1')
      | SIte cond if_t if_f =>
          do cond' <- quote fuel cond d;
          do if_t' <- quote fuel if_t d;
          do if_f' <- quote fuel if_f d;
          Ok (Ite cond' if_t' if_f')
      | SSlf name type =>
          do inst <- app_clos fuel type (SVar d);
          do type' <- quote fuel inst (d + 1);
          Ok (Slf name type')
      | SNew type expr =>
          do type' <- quote fuel type d;
          do expr' <- quote fuel expr d;
          Ok (New type' expr')
      | SUse expr =>
          do expr' <- quote fuel expr d;
          Ok (Use expr')
      | SAnn type expr done =>
          do type' <- quote fuel type d;
          do expr' <- quote fuel expr d;
          Ok (Ann type' expr' done)
      | SLog msge expr =>
          do msge' <- quote fuel msge d;
          do expr' <- quote fuel expr d;
          Ok (Log msge' expr')
      | SHol name => Ok (Hol name)
      | SRef name eras => Ok (Ref name eras)
      end
  end.

End Reduce.

(** The argument of the public [reduce]: a term, or the name of a
    definition ([typeof term === "string"]). *)
Inductive reduce_arg : Type :=
| ByTerm (t : term)
| ByName (name : string).

(** The public [reduce].  The global [MEMO] is switched off while the
    value is built and reduced and on again before the read-back; the
    second component is the flag the call leaves behind. *)
Definition reduce (fuel : nat) (arg : reduce_arg) (defs : gmap string term)
    (opts : options) : res term * bool :=
  let t := match arg with ByName name => Ref name false | ByTerm t => t end in
  let unquoted := unquote t names_new in
  match reduce_sem defs opts fuel unquoted names_new with
  | Ok reduced => (quote defs opts fuel reduced 0, true)
  | Throw e => (Throw e, false)
  | OutOfFuel => (OutOfFuel, false)
  | OutOfModel => (OutOfModel, false)
  end.

(** ** State and exceptions

    [M S A]: a computation over a mutable state [S] that returns an [A],
    throws, or runs out of fuel.  A thrown exception keeps the state
    reached so far, as mutation does. *)

Definition M (S A : Type) : Type := S -> res A * S.

Definition ret {S A : Type} (a : A) : M S A := fun s => (Ok a, s).

Definition bind {S A B : Type} (m : M S A) (k : A -> M S B) : M S B :=
  fun s =>
    match m s with
    | (Ok a, s') => k a s'
    | (Throw e, s') => (Throw e, s')
    | (OutOfFuel, s') => (OutOfFuel, s')
    | (OutOfModel, s') => (OutOfModel, s')
    end.

Definition throw {S A : Type} (e : exn) : M S A := fun s => (Throw e, s).

Definition out_of_fuel {S A : Type} : M S A := fun s => (OutOfFuel, s).

Definition gets {S A : Type} (f : S -> A) : M S A := fun s => (Ok (f s), s).

Definition modify {S : Type} (f : S -> S) : M S unit := fun s => (Ok tt, f s).

(** [try { m } catch (e) { h(e) }] *)
Definition try_catch {S A : Type} (m : M S A) (h : exn -> M S A) : M S A :=
  fun s =>
    match m s with
    | (Throw e, s') => h e s'
    | r => r
    end.

Notation "'let*' x := m 'in' k" := (bind m (fun x => k))
  (at level 10, x name, m at level 100, k at level 200).
Notation "m ;; k" := (bind m (fun _ => k))
  (at level 100, k at level 200, right associativity).

(** ** Equality and unification *)

(** What [equal] reads and writes besides its arguments: the global
    [MEMO] flag and the hole registry [opts.holes]. *)
Record eq_state : Type := EqState {
  MEMO : bool;
  registry : gmap string hole
}.

Definition set_MEMO (m : bool) (s : eq_state) : eq_state :=
  EqState m (registry s).

Definition set_registry (h : gmap string hole) (s : eq_state) : eq_state :=
  EqState (MEMO s) h.

(** [opts.holes[name].value = v] *)
Definition set_hole_value (name : string) (v : hole_value) (s : eq_state) : eq_state :=
  set_registry
    (alter (fun h => Hole (hole_depth h) v) name (registry s)) s.

(** The search tree.  [Eqs hashed a b d]: [hashed] tells whether [a] and
    [b] carry their hash, that is whether they were built while [MEMO]
    was on; it is [true] on every node the engine builds from a reduced
    term. *)
Inductive tree : Type :=
| Eqs (hashed : bool) (a b : term) (d : Z)
| Bop (v : bool) (x y : tree)
| TVal (v : bool).

Definition And (x y : tree) : tree := Bop false x y.

(** [t[1]["numb"]]: a number on a [Val], [undefined] elsewhere. *)
Definition numb_field (t : term) : option Z :=
  match t with
  | Val numb => Some numb
  | _ => None
  end.

(** [===] on two such fields. *)
Definition numb_field_eq (x y : option Z) : bool := bool_decide (x = y).

Section Equal.

Variable defs : gmap string term.

(** [{ weak: 1, holes: opts.holes, depth: d }] *)
Definition eq_options (hs : gmap string hole) (d : Z) : options :=
  Options true hs d false false false false false false false false false.

(** [reduce(t, defs', op)] inside [step], on the current registry. *)
Definition eq_reduce (fuel : nat) (t : term) (defs' : gmap string term)
    (d : Z) : M eq_state term :=
  fun s =>
    let '(r, m) := reduce fuel (ByTerm t) defs' (eq_options (registry s) d) in
    (r, set_MEMO m s).

(** The structural branch [y] of an [Eqs] step. *)
Definition structural (ay by_ : term) (d : Z) : tree :=
  match ay, by_ with
  | Var i, Var j => TVal (i =? j)
  | Typ, Typ => TVal true
  | All _ abind abody aeras, All _ bbind bbody beras =>
      And (And (Eqs true abind bbind d) (Eqs true abody bbody (d + 1)))
          (TVal (eqb aeras beras))
  | Lam _ _ abody aeras, Lam _ _ bbody beras =>
      And (Eqs true abody bbody (d + 1)) (TVal (eqb aeras beras))
  | App afunc aargm aeras, App bfunc bargm beras =>
      And (And (Eqs true afunc bfunc d) (Eqs true aargm bargm d))
          (TVal (eqb aeras beras))
  | Num, Num => TVal true
  | Val m, Val n => TVal (m =? n)
  | Op1 afunc anum0 anum1, Op1 bfunc bnum0 bnum1 =>
      And (TVal (String.eqb afunc bfunc))
          (And (Eqs true anum0 bnum0 d)
               (TVal (numb_field_eq (numb_field anum1) (numb_field anum1))))
  | Op2 afunc anum0 anum1, Op2 bfunc bnum0 bnum1 =>
      And (TVal (String.eqb afunc bfunc))
          (And (Eqs true anum0 bnum0 d) (Eqs true anum1 bnum1 d))
  | Ite acond aif_t _, Ite bcond bif_t _ =>
      And (Eqs true acond bcond d) (Eqs true aif_t bif_t d)
  | Slf _ atype, Slf _ btype => Eqs true atype btype (d + 1)
  | New _ aexpr, New _ bexpr => Eqs true aexpr bexpr d
  | Use aexpr, Use bexpr => Eqs true aexpr bexpr d
  | Log _ aexpr, Log _ bexpr => Eqs true aexpr bexpr d
  | Ann _ aexpr _, Ann _ bexpr _ => Eqs true aexpr bexpr d
  | _, _ => TVal false
  end.

(** [step], the loop of [equal] ([run]) and [equal] itself, which the
    hole case of [step] calls again. *)
Fixpoint step (fuel : nat) (node : tree) {struct fuel} : M eq_state tree :=
  match fuel with
  | O => out_of_fuel
  | S fuel =>
      match node with
      | Eqs hashed a b d =>
          let* ax := eq_reduce fuel a ∅ d in
          let* bx := eq_reduce fuel b ∅ d in
          let* ay := eq_reduce fuel a defs d in
          let* by_ := eq_reduce fuel b defs d in
          if (if hashed then String.eqb (memo a) (memo b) else true)
             || String.eqb (memo ax) (memo bx)
             || String.eqb (memo ay) (memo by_)
          then ret (TVal true)
          else
            let* x :=
              match ax, bx with
              | Ref aname _, Ref bname _ =>
                  if String.eqb aname bname then ret (Some (TVal true))
                  else ret None
              | Hol name, expr | expr, Hol name =>
                  let* hs := gets registry in
                  match hs !! name with
                  | Some (Hole hole_d hole_v) =>
                      let expr_s := shift expr (hole_d - d) 0 in
                      match hole_v with
                      | Unset => modify (set_hole_value name (Assigned expr_s))
                      | Conflict => ret tt
                      | Assigned value =>
                          let* same := equal fuel value expr_s hole_d in
                          if same then ret tt
                          else modify (set_hole_value name Conflict)
                      end;;
                      ret (Some (TVal true))
                  | None => ret None
                  end
              | App afunc aargm _, App bfunc bargm _ =>
                  ret (Some (And (Eqs true afunc bfunc d) (Eqs true aargm bargm d)))
              | _, _ => ret None
              end in
            let y := structural ay by_ d in
            ret (match x with Some x => Bop true x y | None => y end)
      | Bop v x y =>
          match x, y with
          | TVal xv, _ => ret (if eqb xv v then TVal v else y)
          | _, TVal yv => ret (if eqb yv v then TVal v else x)
          | _, _ =>
              let* X := step fuel x in
              let* Y := step fuel y in
              ret (Bop v X Y)
          end
      | TVal v => ret (TVal v)
      end
  end
with run (fuel : nat) (node : tree) {struct fuel} : M eq_state bool :=
  match fuel with
  | O => out_of_fuel
  | S fuel =>
      match node with
      | TVal v => ret v
      | _ => let* node' := step fuel node in run fuel node'
      end
  end
with equal (fuel : nat) (a b : term) (d : Z) {struct fuel} : M eq_state bool :=
  match fuel with
  | O => out_of_fuel
  | S fuel =>
      let* hashed := gets MEMO in
      run fuel (Eqs hashed (erase a) (erase b) d)
  end.

End Equal.

(** [default_equal_opts = { holes: {} }], called while [MEMO] is on. *)
Definition default_equal_state : eq_state := EqState true ∅.

(** ** The type checker

    The checker mutates what it is given: the [done] flag of the [Ann]
    nodes it visits, the definitions, the cache of types and the hole
    registry.  An [Ann] node is an object that several terms may hold at
    once (a type returned by one rule is a sub-term of the term checked,
    [subst] plants its value unchanged at every occurrence), so the flag
    lives in a heap: an [hterm] names the cell of each of its [Ann]
    nodes, and two occurrences of one cell are one object. *)

Abbreviation hterm := (term_ nat).

(** A snapshot: the term with the flags read from the heap. *)
Fixpoint load (flags : list bool) (t : hterm) : term :=
  match t with
  | Var index => Var index
  | Typ => Typ
  | All name bind body eras => All name (load flags bind) (load flags body) eras
  | Lam name bind body eras =>
      Lam name
        (match bind with Some b => Some (load flags b) | None => None end)
        (load flags body) eras
  | App func argm eras => App (load flags func) (load flags argm) eras
  | Slf name type => Slf name (load flags type)
  | New type expr => New (load flags type) (load flags expr)
  | Use expr => Use (load flags expr)
  | Num => Num
  | Val numb => Val numb
  | Op1 func num0 num1 => Op1 func (load flags num0) (load flags num1)
  | Op2 func num0 num1 => Op2 func (load flags num0) (load flags num1)
  | Ite cond if_t if_f =>
      Ite (load flags cond) (load flags if_t) (load flags if_f)
  | Ann type expr cell =>
      Ann (load flags type) (load flags expr) (default false (flags !! cell))
  | Log msge expr => Log (load flags msge) (load flags expr)
  | Hol name => Hol name
  | Ref name eras => Ref name eras
  end.

(** Fresh objects for a term a pure function has built: every [Ann]
    node gets a new cell holding its flag. *)
Fixpoint alloc (t : term) (flags : list bool) : hterm * list bool :=
  match t with
  | Var index => (Var index, flags)
  | Typ => (Typ, flags)
  | All name bind body eras =>
      let '(bind', flags) := alloc bind flags in
      let '(body', flags) := alloc body flags in
      (All name bind' body' eras, flags)
  | Lam name bind body eras =>
      let '(bind', flags) :=
        match bind with
        | Some b => let '(b', flags) := alloc b flags in (Some b', flags)
        | None => (None, flags)
        end in
      let '(body', flags) := alloc body flags in
      (Lam name bind' body' eras, flags)
  | App func argm eras =>
      let '(func', flags) := alloc func flags in
      let '(argm', flags) := alloc argm flags in
      (App func' argm' eras, flags)
  | Slf name type =>
      let '(type', flags) := alloc type flags in
      (Slf name type', flags)
  | New type expr =>
      let '(type', flags) := alloc type flags in
      let '(expr', flags) := alloc expr flags in
      (New type' expr', flags)
  | Use expr =>
      let '(expr', flags) := alloc expr flags in
      (Use expr', flags)
  | Num => (Num, flags)
  | Val numb => (Val numb, flags)
  | Op1 func num0 num1 =>
      let '(num0', flags) := alloc num0 flags in
      let '(num1', flags) := alloc num1 flags in
      (Op1 func num0' num1', flags)
  | Op2 func num0 num1 =>
      let '(num0', flags) := alloc num0 flags in
      let '(num1', flags) := alloc num1 flags in
      (Op2 func num0' num1', flags)
  | Ite cond if_t if_f =>
      let '(cond', flags) := alloc cond flags in
      let '(if_t', flags) := alloc if_t flags in
      let '(if_f', flags) := alloc if_f flags in
      (Ite cond' if_t' if_f', flags)
  | Ann type expr done =>
      let '(type', flags) := alloc type flags in
      let '(expr', flags) := alloc expr flags in
      (Ann type' expr' (List.length flags), (flags ++ [done])%list)
  | Log msge expr =>
      let '(msge', flags) := alloc msge flags in
      let '(expr', flags) := alloc expr flags in
      (Log msge' expr', flags)
  | Hol name => (Hol name, flags)
  | Ref name eras => (Ref name eras, flags)
  end.

(** A frame of the typing context; [ctx_new] is the empty list and
    [ctx_ext] is [cons].  [ctx.length] is the length of the list. *)
Record frame : Type := Frame {
  frame_name : string;
  frame_term : option hterm;
  frame_type : hterm;
  frame_eras : bool
}.

Definition ctx_new : list frame := [].

Definition ctx_ext (name : string) (t : option hterm) (type : hterm)
    (eras : bool) (ctx : list frame) : list frame :=
  Frame name t type eras :: ctx.

(** What [ctx_get] returns.  On [ctx_new], which has no [name], [type]
    or [eras], the fields read [undefined]: [got_name] and [got_eras]
    are [None], and [got_type], [shift(undefined, ...)], is [null]. *)
Record got : Type := Got {
  got_name : option string;
  got_term : hterm;
  got_type : option hterm;
  got_eras : option bool
}.

Record tc_state : Type := TcState {
  tc_MEMO : bool;
  tc_holes : gmap string hole;
  tc_defs : gmap string hterm;
  tc_types : gmap string hterm;
  tc_flags : list bool
}.

Definition set_tc_MEMO (m : bool) (s : tc_state) : tc_state :=
  TcState m (tc_holes s) (tc_defs s) (tc_types s) (tc_flags s).
Definition set_tc_holes (h : gmap string hole) (s : tc_state) : tc_state :=
  TcState (tc_MEMO s) h (tc_defs s) (tc_types s) (tc_flags s).
Definition set_tc_defs (d : gmap string hterm) (s : tc_state) : tc_state :=
  TcState (tc_MEMO s) (tc_holes s) d (tc_types s) (tc_flags s).
Definition set_tc_types (t : gmap string hterm) (s : tc_state) : tc_state :=
  TcState (tc_MEMO s) (tc_holes s) (tc_defs s) t (tc_flags s).
Definition set_tc_flags (f : list bool) (s : tc_state) : tc_state :=
  TcState (tc_MEMO s) (tc_holes s) (tc_defs s) (tc_types s) f.

(** [term[1].done] and [term[1].done = b] on the cell of an [Ann]. *)
Definition get_done (cell : nat) (s : tc_state) : bool :=
  default false (tc_flags s !! cell).
Definition set_done (cell : nat) (b : bool) (s : tc_state) : tc_state :=
  set_tc_flags (<[cell := b]> (tc_flags s)) s.

(** [Ann(type, expr, done)] built by the checker: a new object. *)
Definition new_Ann (type expr : hterm) (done : bool) : M tc_state hterm :=
  fun s => (Ok (Ann type expr (List.length (tc_flags s))),
            set_tc_flags (tc_flags s ++ [done])%list s).

(** The objects of a term built by a pure function. *)
Definition fresh (t : term) : M tc_state hterm :=
  fun s => let '(t', flags) := alloc t (tc_flags s) in (Ok t', set_tc_flags flags s).

Definition snapshot (t : hterm) : M tc_state term :=
  gets (fun s => load (tc_flags s) t).

(** [shift] on heap terms: all of the result is new. *)
Definition hshift (t : hterm) (inc d : Z) : M tc_state hterm :=
  let* t' := snapshot t in fresh (shift t' inc d).

(** [subst] on heap terms: the nodes of [t] are rebuilt, [val] itself is
    planted at the occurrences outside binders, a shifted copy under
    them. *)
Fixpoint hsubst (t : hterm) (val : hterm) (d : Z) : M tc_state hterm :=
  match t with
  | Var index =>
      if d =? index then ret val
      else ret (Var (index - (if index >? d then 1 else 0)))
  | Typ => ret Typ
  | All name bind body eras =>
      let* bind' := hsubst bind val d in
      let* val' := hshift val 1 0 in
      let* body' := hsubst body val' (d + 1) in
      ret (All name bind' body' eras)
  | Lam name bind body eras =>
      let* bind' := match bind with
                    | Some b => let* b' := hsubst b val d in ret (Some b')
                    | None => ret None
                    end in
      let* val' := hshift val 1 0 in
      let* body' := hsubst body val' (d + 1) in
      ret (Lam name bind' body' eras)
  | App func argm eras =>
      let* func' := hsubst func val d in
      let* argm' := hsubst argm val d in
      ret (App func' argm' eras)
  | Num => ret Num
  | Val numb => ret (Val numb)
  | Op1 func num0 num1 =>
      let* num0' := hsubst num0 val d in
      let* num1' := hsubst num1 val d in
      ret (Op1 func num0' num1')
  | Op2 func num0 num1 =>
      let* num0' := hsubst num0 val d in
      let* num1' := hsubst num1 val d in
      ret (Op2 func num0' num1')
  | Ite cond if_t if_f =>
      let* cond' := hsubst cond val d in
      let* if_t' := hsubst if_t val d in
      let* if_f' := hsubst if_f val d in
      ret (Ite cond' if_t' if_f')
  | Slf name type =>
      let* val' := hshift val 1 0 in
      let* type' := hsubst type val' (d + 1) in
      ret (Slf name type')
  | New type expr =>
      let* type' := hsubst type val d in
      let* expr' := hsubst expr val d in
      ret (New type' expr')
  | Use expr =>
      let* expr' := hsubst expr val d in
      ret (Use expr')
  | Ann type expr cell =>
      let* type' := hsubst type val d in
      let* expr' := hsubst expr val d in
      let* done := gets (get_done cell) in
      new_Ann type' expr' done
  | Log msge expr =>
      let* msge' := hsubst msge val d in
      let* expr' := hsubst expr val d in
      ret (Log msge' expr')
  | Hol name => ret (Hol name)
  | Ref name eras => ret (Ref name eras)
  end.

(** [ctx_get]: the [for] loop, [k] steps left to go. *)
Fixpoint ctx_walk (k : nat) (ctx : list frame) : res (option (list frame)) :=
  match k with
  | O => Ok (Some ctx)
  | S k =>
      match ctx with
      | [] => Throw HostTypeError          (* [ctx.rest] is [undefined] *)
      | _ :: rest =>
          match rest with
          | [] => Ok None                  (* [ctx.rest.length === 0] *)
          | _ :: _ => ctx_walk k rest
          end
      end
  end.

Definition ctx_get (i : Z) (ctx : list frame) : M tc_state (option got) :=
  if i <? 0 then ret None
  else
    match ctx_walk (Z.to_nat i) ctx with
    | Ok None => ret None
    | Ok (Some []) => ret (Some (Got None (Var i) None None))
    | Ok (Some (Frame name t type eras :: _)) =>
        let* t' := match t with
                   | Some t => hshift t (i + 1) 0
                   | None => ret (Var i)
                   end in
        let* type' := hshift type (i + 1) 0 in
        ret (Some (Got (Some name) t' (Some type') (Some eras)))
    | Throw e => throw e
    | OutOfFuel => out_of_fuel
    | OutOfModel => fun s => (OutOfModel, s)
    end.

Definition out_of_model {S A : Type} : M S A := fun s => (OutOfModel, s).

Section Typecheck.

(** [opts.logs] of the checker. *)
Variable logs : bool.

(** [reduce(t, defs', opts)] called by the checker: [t] may be [null],
    on which [unquote] throws after [MEMO] was switched off. *)
Definition tc_reduce (fuel : nat) (t : option term) (with_defs : bool)
    (mk : gmap string hole -> options) : M tc_state term :=
  fun s =>
    match t with
    | None => (Throw HostTypeError, set_tc_MEMO false s)
    | Some t =>
        let defs :=
          if with_defs then load (tc_flags s) <$> tc_defs s else ∅ in
        let '(r, m) := reduce fuel (ByTerm t) defs (mk (tc_holes s)) in
        (r, set_tc_MEMO m s)
    end.

Definition snapshot_maybe (t : option hterm) : M tc_state (option term) :=
  match t with
  | None => ret None
  | Some t => let* t' := snapshot t in ret (Some t')
  end.

(** [reduce(term, defs, { holes, weak: true, depth })] *)
Definition weak_normal (fuel : nat) (t : option hterm) (d : Z) : M tc_state hterm :=
  let* t' := snapshot_maybe t in
  let* r := tc_reduce fuel t' true
              (fun hs => Options true hs d false false false false false
                           false false false false) in
  fresh r.

(** [reduce(term, {}, { holes, weak: false })] *)
Definition display_normal (fuel : nat) (t : option term) : M tc_state term :=
  tc_reduce fuel t false
    (fun hs => Options false hs 0 false false false false false
                 false false false false).

(** [reduce(term, {}, { holes, depth, weak: false, no_app: 1,
    no_ref: 1, no_op1: 1, no_op2: 1, no_use: 1, no_ann: 1 })] *)
Definition subst_holes (fuel : nat) (t : option hterm) (d : Z) : M tc_state hterm :=
  let* t' := snapshot_maybe t in
  let* r := tc_reduce fuel t' false
              (fun hs => Options false hs d true true true false true
                           false true true false) in
  fresh r.

(** [print]: the term is normalised for display and rendered by
    [show]; the text is not modelled, the normalisation is. *)
Definition print_pure (fuel : nat) (t : term) : M tc_state unit :=
  let* _ := display_normal fuel (Some t) in ret tt.

Definition print (fuel : nat) (t : hterm) : M tc_state unit :=
  let* t' := snapshot t in print_pure fuel t'.

(** [ctx_str]: one [print] of the type of each frame, top first. *)
Fixpoint ctx_str (fuel : nat) (ctx : list frame) : M tc_state unit :=
  match ctx with
  | [] => ret tt
  | c :: rest => print fuel (frame_type c);; ctx_str fuel rest
  end.

(** [do_error(str)] for the term checked and its context. *)
Definition do_error {A : Type} (fuel : nat) (err : check_error)
    (t : hterm) (ctx : list frame) : M tc_state A :=
  print fuel t;;
  ctx_str fuel ctx;;
  throw (CheckError err).

(** [equal(a, b, ctx.length, defs, { holes: holes })] *)
Definition tc_equal (fuel : nat) (a : option hterm) (b : hterm) (d : Z)
    : M tc_state bool :=
  fun s =>
    match a with
    | None => (Throw HostTypeError, s)     (* [erase(null)] *)
    | Some a =>
        let flags := tc_flags s in
        let '(r, es) :=
          equal (load flags <$> tc_defs s) fuel (load flags a) (load flags b)
                d (EqState (tc_MEMO s) (tc_holes s)) in
        (r, set_tc_holes (registry es) (set_tc_MEMO (MEMO es) s))
    end.

Definition do_match (fuel : nat) (a : option hterm) (b : hterm)
    (t : hterm) (ctx : list frame) : M tc_state unit :=
  let* same := tc_equal fuel a b (Z.of_nat (List.length ctx)) in
  if same then ret tt
  else
    match a with
    | Some a => print fuel a;; print fuel b;; do_error fuel TypeMismatch t ctx
    | None => throw HostTypeError
    end.

Definition register_hole (name : string) (d : Z) (s : tc_state) : tc_state :=
  match tc_holes s !! name with
  | Some _ => s
  | None => set_tc_holes (<[name := Hole d Unset]> (tc_holes s)) s
  end.

Definition set_def (name : string) (t : hterm) (s : tc_state) : tc_state :=
  set_tc_defs (<[name := t]> (tc_defs s)) s.

Definition set_type (name : string) (t : hterm) (s : tc_state) : tc_state :=
  set_tc_types (<[name := t]> (tc_types s)) s.

(** The end of every rule: [if (expect) { do_match(type, expect); }
    return type;] *)
Definition match_expected (fuel : nat) (type : option hterm)
    (expect : option hterm) (t : hterm) (ctx : list frame)
    : M tc_state (option hterm) :=
  match expect with
  | Some e => do_match fuel type e t ctx;; ret type
  | None => ret type
  end.

(** [if (expect) { expect_nf = weak_normal(expect, ctx.length); }] *)
Definition normal_expect (fuel : nat) (expect : option hterm) (len : Z)
    : M tc_state (option hterm) :=
  match expect with
  | Some e => let* nf := weak_normal fuel (Some e) len in ret (Some nf)
  | None => ret None
  end.

(** The inner [typecheck(term, expect, ctx, erased)]: it returns the
    type, which is [null] in one case of [Var]. *)
Fixpoint typecheck (fuel : nat) (t : option hterm) (expect : option hterm)
    (ctx : list frame) (erased : bool) {struct fuel} : M tc_state (option hterm) :=
  match fuel with
  | O => out_of_fuel
  | S fuel =>
      let len := Z.of_nat (List.length ctx) in
      let* expect_nf := normal_expect fuel expect len in
      match t with
      | None => throw HostTypeError        (* [term[0]] on [null] *)
      | Some t =>
          let* type :=
            match t with
            | Var index =>
                let* got := ctx_get index ctx in
                match got with
                | Some got =>
                    if default false (got_eras got) && negb erased
                    then do_error fuel (ErasedVariableUse (got_name got)) t ctx
                    else ret (got_type got)
                | None => do_error fuel UnboundVariable t ctx
                end
            | Typ => ret (Some Typ)
            | All name bind body eras =>
                match expect_nf with
                | None | Some Typ => ret tt
                | Some nf =>
                    print_pure fuel (All "x" (Ref "A" false) (Ref "B" false) false);;
                    print_pure fuel Typ;;
                    print fuel nf;;
                    do_error fuel ForallNotType t ctx
                end;;
                let* bind_t := typecheck fuel (Some bind) (Some Typ) ctx true in
                let ex_ctx := ctx_ext name None bind eras ctx in
                let* body_t := typecheck fuel (Some body) (Some Typ) ex_ctx true in
                ret (Some Typ)
            | Lam name bind body eras =>
                let bind_v := match expect_nf with
                              | Some (All _ ebind _ _) => Some ebind
                              | _ => bind
                              end in
                match bind_v, expect_nf with
                | None, None => do_error fuel LambdaNotInferable t ctx
                | None, Some nf =>
                    print_pure fuel (Lam "x" None (Ref "f" false) false);;
                    print_pure fuel (All "x" (Ref "A" false) (Ref "B" false) false);;
                    print fuel nf;;
                    do_error fuel LambdaNotForall t ctx
                | Some bind_v, _ =>
                    let* bind_t := typecheck fuel (Some bind_v) (Some Typ) ctx true in
                    let ex_ctx := ctx_ext name None bind_v eras ctx in
                    let* body_t :=
                      typecheck fuel (Some body)
                        (match expect_nf with
                         | Some (All _ _ ebody _) => Some ebody
                         | _ => None
                         end) ex_ctx erased in
                    let* body_T := typecheck fuel body_t (Some Typ) ex_ctx true in
                    match body_t with
                    | Some body_t => ret (Some (All name bind_v body_t eras))
                    | None => throw HostTypeError
                    end
                end
            | App func argm eras =>
                let* func_t := typecheck fuel (Some func) None ctx erased in
                let* func_t := weak_normal fuel func_t len in
                match func_t with
                | All _ fbind fbody feras =>
                    let* argm_t :=
                      typecheck fuel (Some argm) (Some fbind) ctx (eras || erased) in
                    if negb (eqb feras eras)
                    then do_error fuel MismatchedErasure t ctx
                    else
                      let* val := new_Ann fbind argm false in
                      let* type := hsubst fbody val 0 in
                      ret (Some type)
                | _ => do_error fuel NotAFunction t ctx
                end
            | Num => ret (Some Typ)
            | Val _ => ret (Some Num)
            | Op1 _ num0 num1 | Op2 _ num0 num1 =>
                let* num0_t := typecheck fuel (Some num0) (Some Num) ctx erased in
                let* num1_t := typecheck fuel (Some num1) (Some Num) ctx erased in
                ret (Some Num)
            | Ite cond if_t if_f =>
                let* cond_t := typecheck fuel (Some cond) None ctx erased in
                let* cond_t := weak_normal fuel cond_t len in
                match cond_t with
                | Num =>
                    let* if_t_t := typecheck fuel (Some if_t) expect_nf ctx erased in
                    let* if_t_f := typecheck fuel (Some if_f) if_t_t ctx erased in
                    ret (match expect_nf with
                         | Some nf => Some nf
                         | None => if_t_t
                         end)
                | _ => do_error fuel IfNotNumeric t ctx
                end
            | Slf name type =>
                let ex_ctx := ctx_ext name None t false ctx in
                let* type_t := typecheck fuel (Some type) (Some Typ) ex_ctx true in
                ret (Some Typ)
            | New type expr =>
                let* ttyp := weak_normal fuel (Some type) len in
                match ttyp with
                | Slf _ stype =>
                    let* ttyp_t := typecheck fuel (Some ttyp) None ctx true in
                    let* val := new_Ann ttyp t true in
                    let* expr_e := hsubst stype val 0 in
                    let* expr_t := typecheck fuel (Some expr) (Some expr_e) ctx erased in
                    ret (Some type)
                | _ => do_error fuel NewNotSelf t ctx
                end
            | Use expr =>
                let* expr_t := typecheck fuel (Some expr) None ctx erased in
                let* expr_t := weak_normal fuel expr_t len in
                match expr_t with
                | Slf _ stype =>
                    let* type := hsubst stype expr 0 in
                    ret (Some type)
                | _ => do_error fuel UseNotSelf t ctx
                end
            | Ann type expr cell =>
                let* done := gets (get_done cell) in
                if negb done then
                  modify (set_done cell true);;
                  try_catch
                    (let* type_t := typecheck fuel (Some type) (Some Typ) ctx true in
                     let* expr_t := typecheck fuel (Some expr) (Some type) ctx erased in
                     ret (Some type))
                    (fun e => modify (set_done cell false);; throw e)
                else ret (Some type)
            | Log msge expr =>
                let* msge_t :=
                  try_catch
                    (let* msge_t := typecheck fuel (Some msge) None ctx true in
                     match msge_t with
                     | None => throw HostTypeError     (* [erase(null)] *)
                     | Some msge_t =>
                         let* msge_t := snapshot msge_t in
                         display_normal fuel (Some (erase msge_t))
                     end)
                    (fun e => ret (Hol "")) in
                (if logs then print fuel msge;; print_pure fuel msge_t
                 else ret tt);;
                typecheck fuel (Some expr) expect ctx erased
            | Hol name =>
                modify (register_hole name len);;
                ret (Some (match expect with
                           | Some e => e
                           | None => Hol (name +:+ "_type")
                           end))
            | Ref name eras =>
                let* defs := gets tc_defs in
                match defs !! name with
                | None => do_error fuel (UndefinedReference name) t ctx
                | Some def =>
                    let* types := gets tc_types in
                    match types !! name with
                    | Some _ => ret tt
                    | None =>
                        let* dref_t := typecheck fuel (Some def) None ctx_new erased in
                        let* types := gets tc_types in
                        match types !! name with
                        | Some _ => ret tt
                        | None =>
                            let* dref_t := subst_holes fuel dref_t 0 in
                            let* defs := gets tc_defs in
                            let* def' := subst_holes fuel (defs !! name) 0 in
                            match def' with
                            | Ann _ _ cell =>
                                modify (set_def name def');;
                                modify (set_done cell true)
                            | _ =>
                                let* ann := new_Ann dref_t def' true in
                                modify (set_def name ann)
                            end;;
                            modify (set_type name dref_t)
                        end
                    end;;
                    gets (fun s => tc_types s !! name)
                end
            end in
          match_expected fuel type expect t ctx
      end
  end.

End Typecheck.

(** ** Affinity checking *)

Fixpoint uses (t : term) (depth : Z) : Z :=
  match t with
  | Var index => if index =? depth then 1 else 0
  | Lam _ _ body _ => uses body (depth + 1)
  | App func argm eras =>
      uses func depth + (if eras then 0 else uses argm depth)
  | Op1 _ num0 num1 => uses num0 depth + uses num1 depth
  | Op2 _ num0 num1 => uses num0 depth + uses num1 depth
  | Ite cond if_t if_f => uses cond depth + uses if_t depth + uses if_f depth
  | New _ expr => uses expr depth
  | Use expr => uses expr depth
  | Ann _ expr _ => uses expr depth
  | Log _ expr => uses expr depth
  | _ => 0
  end.

(** [is_affine(term, defs, seen)].  [defs[name]] may be missing, and
    then [term[0]] throws.  Following a [Ref] is the one call that is
    not on a sub-term, hence the fuel. *)
Fixpoint is_affine (fuel : nat) (t : option term) (defs : gmap string term)
    (seen : gset string) {struct fuel} : res bool :=
  match fuel with
  | O => OutOfFuel
  | S fuel =>
      match t with
      | None => Throw HostTypeError
      | Some t =>
          match t with
          | Lam _ _ body _ =>
              let self := uses body 0 <=? 1 in
              do body' <- is_affine fuel (Some body) defs seen;
              Ok (self && body')
          | App func argm eras =>
              do func' <- is_affine fuel (Some func) defs seen;
              do argm' <- (if eras then Ok true
                           else is_affine fuel (Some argm) defs seen);
              Ok (func' && argm')
          | Op1 _ num0 num1 | Op2 _ num0 num1 =>
              do num0' <- is_affine fuel (Some num0) defs seen;
              do num1' <- is_affine fuel (Some num1) defs seen;
              Ok (num0' && num1')
          | Ite cond if_t if_f =>
              do cond' <- is_affine fuel (Some cond) defs seen;
              do if_t' <- is_affine fuel (Some if_t) defs seen;
              do if_f' <- is_affine fuel (Some if_t) defs seen;
              Ok (cond' && if_t' && if_f')
          | New _ expr | Use expr | Ann _ expr _ | Log _ expr =>
              is_affine fuel (Some expr) defs seen
          | Ref name _ =>
              if bool_decide (name ∈ seen) then Ok true
              else is_affine fuel (defs !! name) defs ({[name]} ∪ seen)
          | _ => Ok true
          end
      end
  end.

(** [is_terminating], the sibling analysis with the same traversal. *)
Fixpoint is_terminating (fuel : nat) (t : option term) (defs : gmap string term)
    (seen : gset string) {struct fuel} : res bool :=
  match fuel with
  | O => OutOfFuel
  | S fuel =>
      match t with
      | None => Throw HostTypeError
      | Some t =>
          match t with
          | Lam _ _ body _ => is_terminating fuel (Some body) defs seen
          | App func argm eras =>
              do func' <- is_terminating fuel (Some func) defs seen;
              do argm' <- (if eras then Ok true
                           else is_terminating fuel (Some argm) defs seen);
              Ok (func' && argm')
          | Op1 _ num0 num1 | Op2 _ num0 num1 =>
              do num0' <- is_terminating fuel (Some num0) defs seen;
              do num1' <- is_terminating fuel (Some num1) defs seen;
              Ok (num0' && num1')
          | Ite cond if_t if_f =>
              do cond' <- is_terminating fuel (Some cond) defs seen;
              do if_t' <- is_terminating fuel (Some if_t) defs seen;
              do if_f' <- is_terminating fuel (Some if_f) defs seen;
              Ok (cond' && if_t' && if_f')
          | Ann _ expr _ | New _ expr | Use expr | Log _ expr =>
              is_terminating fuel (Some expr) defs seen
          | Ref name _ =>
              if bool_decide (name ∈ seen) then Ok false
              else is_terminating fuel (defs !! name) defs ({[name]} ∪ seen)
          | _ => Ok true
          end
      end
  end.


(** ** The pointer-graph runtime ([runtime-fast]) *)

Module RuntimeFast.

(** A memory cell: a 32-bit word, or [undefined] where the array has
    nothing. *)
Abbreviation cell := (option Z).

Definition VAR : Z := 0.
Definition LAM : Z := 1.
Definition APP : Z := 2.
Definition REF : Z := 3.
Definition NIL : Z := 4294967295.

(** [(ctor + (addr << 4)) >>> 0] *)
Definition New (ctor addr : Z) : Z := (ctor + addr * 16) mod 2 ^ 32.

(** [ptr & 0b1111] and [ptr >>> 4]; [undefined] counts as 0. *)
Definition ctor_of (ptr : cell) : Z :=
  Z.land (to_uint32 (default 0 ptr)) 15.
Definition addr_of (ptr : cell) : Z :=
  Z.shiftr (to_uint32 (default 0 ptr)) 4.

(** [ptr !== NIL] *)
Definition is_not_NIL (ptr : cell) : bool := negb (bool_decide (ptr = Some NIL)).

(** [mem[i]] and [mem[i] = v] on an array: a read past the end is
    [undefined], a write past the end extends the array. *)
Definition array_get (mem : list cell) (i : Z) : cell :=
  default None (mem !! Z.to_nat i).

Definition array_set (mem : list cell) (i : Z) (v : cell) : list cell :=
  let n := Z.to_nat i in
  if (n <? List.length mem)%nat then <[n := v]> mem
  else (mem ++ replicate (n - List.length mem) None ++ [v])%list.

Definition array_len (mem : list cell) : Z := Z.of_nat (List.length mem).

(** An entry of [rt_defs]: [{mem, ptr}], or the bare array that is left
    when the root pointer is 0. *)
Inductive rt_def : Type :=
| RtTerm (mem : list cell) (ptr : Z)
| RtArray (mem : list cell).

(** [reach]: the names reachable from a term, in the order they are
    first met (the order [for ... in] visits them). *)
Fixpoint reach (fuel : nat) (defs : gmap string term) (t : term)
    (reachable : list string) {struct fuel} : res (list string) :=
  match fuel with
  | O => OutOfFuel
  | S fuel =>
      match t with
      | Lam _ _ body _ => reach fuel defs body reachable
      | App func argm _ =>
          do reachable <- reach fuel defs func reachable;
          reach fuel defs argm reachable
      | Op1 _ num0 num1 | Op2 _ num0 num1 =>
          do reachable <- reach fuel defs num0 reachable;
          reach fuel defs num1 reachable
      | Ite cond if_t if_f =>
          do reachable <- reach fuel defs cond reachable;
          do reachable <- reach fuel defs if_t reachable;
          reach fuel defs if_f reachable
      | Log _ expr => reach fuel defs expr reachable
      | Ref name _ =>
          if bool_decide (name ∈ reachable) then Ok reachable
          else
            match defs !! name with
            | Some def => reach fuel defs (erase def) (reachable ++ [name])%list
            | None => Throw HostTypeError       (* [erase(undefined)] *)
            end
      | _ => Ok reachable
      end
  end.

(** [go] of [compile]: the memory of the definition being compiled and
    its [rt_bind] are threaded through. *)
Fixpoint go (rt_rfid : gmap string Z) (vpos : Z) (t : term) (d : Z)
    (mem : list cell) (rt_bind : gmap Z Z) : Z * list cell * gmap Z Z :=
  let pos := array_len mem in
  match t with
  | Var index =>
      match rt_bind !! (d - index - 1) with
      | Some got => (NIL, array_set mem got (Some (New VAR vpos)), rt_bind)
      | None => (New VAR index, mem, rt_bind)
      end
  | Lam _ _ body _ =>
      let rt_bind := <[d := pos]> rt_bind in
      let mem := (mem ++ [Some NIL; Some NIL])%list in
      let '(body', mem, rt_bind) := go rt_rfid (pos + 1) body (d + 1) mem rt_bind in
      (New LAM pos, array_set mem (pos + 1) (Some body'), rt_bind)
  | App func argm _ =>
      let mem := (mem ++ [Some NIL; Some NIL])%list in
      let '(func', mem, rt_bind) := go rt_rfid (pos + 0) func d mem rt_bind in
      let mem := array_set mem (pos + 0) (Some func') in
      let '(argm', mem, rt_bind) := go rt_rfid (pos + 1) argm d mem rt_bind in
      (New APP pos, array_set mem (pos + 1) (Some argm'), rt_bind)
  | Ref name _ => (New REF (default 0 (rt_rfid !! name)), mem, rt_bind)
  | _ => (NIL, mem, rt_bind)
  end.

(** [rt_rfid]: the reachable names numbered in order. *)
Fixpoint number_names (names : list string) (next_id : Z) : gmap string Z :=
  match names with
  | [] => ∅
  | name :: rest => <[name := next_id]> (number_names rest (next_id + 1))
  end.

(** The second loop of [compile]. *)
Fixpoint compile_defs (defs : gmap string term) (rt_rfid : gmap string Z)
    (names : list string) (rt_defs : gmap Z rt_def) : res (gmap Z rt_def) :=
  match names with
  | [] => Ok rt_defs
  | name :: rest =>
      match defs !! name, rt_rfid !! name with
      | Some def, Some id =>
          let '(root, mem, _) := go rt_rfid 0 (erase def) 0 [] ∅ in
          let entry := if root =? 0 then RtArray mem else RtTerm mem root in
          compile_defs defs rt_rfid rest (<[id := entry]> rt_defs)
      | _, _ => Throw HostTypeError
      end
  end.

Record compiled : Type := Compiled {
  rt_defs : gmap Z rt_def;
  rt_rfid : gmap string Z;
  rt_term : option rt_def
}.

Definition compile (fuel : nat) (defs : gmap string term) (name : string)
    : res compiled :=
  match defs !! name with
  | None => Throw HostTypeError                 (* [erase(undefined)] *)
  | Some def =>
      do reachable <- reach fuel defs (erase def) [name];
      let ids := number_names reachable 0 in
      do rt_defs <- compile_defs defs ids reachable ∅;
      Ok (Compiled rt_defs ids
            (match ids !! name with
             | Some id => rt_defs !! id
             | None => None
             end))
  end.

(** [decompile]; it writes the depth into the variable cells as it goes.
    [None] is the [undefined] it returns on a constructor tag that is
    none of the four. *)
Fixpoint decompile (fuel : nat) (mem : list cell) (ptr : cell) (dep : Z)
    {struct fuel} : res (option term * list cell) :=
  match fuel with
  | O => OutOfFuel
  | S fuel =>
      if negb (is_not_NIL ptr) then Ok (Some (Ref "*" false), mem)
      else
        let ctor := ctor_of ptr in
        let addr := addr_of ptr in
        if ctor =? LAM then
          let vari := array_get mem (addr + 0) in
          let mem := if is_not_NIL vari
                     then array_set mem (addr_of vari) (Some (New VAR dep))
                     else mem in
          do '(body, mem) <- decompile fuel mem (array_get mem (addr + 1)) (dep + 1);
          match body with
          | Some body => Ok (Some (Lam ("v" +:+ pretty dep) None body false), mem)
          | None => Throw HostTypeError         (* [body[2]] in [Lam] *)
          end
        else if ctor =? APP then
          do '(func, mem) <- decompile fuel mem (array_get mem (addr + 0)) dep;
          do '(argm, mem) <- decompile fuel mem (array_get mem (addr + 1)) dep;
          match func, argm with
          | Some func, Some argm => Ok (Some (App func argm false), mem)
          | _, _ => Throw HostTypeError
          end
        else if ctor =? REF then
          Ok (Some (Ref ("R" +:+ pretty addr) false), mem)
        else if ctor =? VAR then
          Ok (Some (Var (dep - addr - 1)), mem)
        else Ok (None, mem)
  end.

(** [go] of [collect]: the old memory and the new one are threaded. *)
Fixpoint collect_go (fuel : nat) (ptr : cell) (vpos : Z)
    (mem new_mem : list cell) {struct fuel} : res (cell * list cell * list cell) :=
  match fuel with
  | O => OutOfFuel
  | S fuel =>
      let ctor := ctor_of ptr in
      let addr := addr_of ptr in
      let pos := array_len new_mem in
      if ctor =? LAM then
        let vari := array_get mem (addr + 0) in
        let mem := if is_not_NIL vari
                   then array_set mem (addr_of (array_get mem (addr + 0)))
                          (Some (New VAR pos))
                   else mem in
        let new_mem := (new_mem ++ [Some NIL; Some NIL])%list in
        do '(body, mem, new_mem) <-
          collect_go fuel (array_get mem (addr + 1)) (pos + 1) mem new_mem;
        Ok (Some (New LAM pos), mem, array_set new_mem (pos + 1) body)
      else if ctor =? APP then
        let new_mem := (new_mem ++ [Some NIL; Some NIL])%list in
        do '(func, mem, new_mem) <-
          collect_go fuel (array_get mem (addr + 0)) (pos + 0) mem new_mem;
        let new_mem := array_set new_mem (pos + 0) func in
        do '(argm, mem, new_mem) <-
          collect_go fuel (array_get mem (addr + 1)) (pos + 1) mem new_mem;
        Ok (Some (New ctor pos), mem, array_set new_mem (pos + 1) argm)
      else if ctor =? REF then
        Ok (ptr, mem, (new_mem ++ [Some NIL; Some NIL])%list)
      else if ctor =? VAR then
        Ok (Some NIL, mem, array_set new_mem addr (Some (New VAR (vpos + 0))))
      else Ok (None, mem, new_mem)
  end.

Definition collect (fuel : nat) (mem : list cell) (ptr : cell)
    : res (list cell * cell) :=
  do '(root, _, new_mem) <- collect_go fuel ptr 0 mem [];
  Ok (new_mem, root).

(** The state of the loop of [reduce]; [back] has its top first. *)
Record machine : Type := Machine {
  m_mem : list cell;
  m_root : cell;
  m_back : list (cell * Z * Z);
  m_collect_length : Z;
  m_beta : Z;
  m_copy : Z
}.

(** [mem.push] of the copy of a definition, its pointers moved by [pos]. *)
Definition copy_cell (pos : Z) (ref_term : cell) : cell :=
  if is_not_NIL ref_term && negb (ctor_of ref_term =? REF)
  then Some (New (ctor_of ref_term) (addr_of ref_term + pos))
  else ref_term.

(** "Connects parent to body": the end of the [APP] and [REF] cases,
    after [back.pop()]. *)
Definition connect (subs : cell) (mem : list cell) (root : cell)
    (back : list (cell * Z * Z)) : list cell * cell * list (cell * Z * Z) :=
  match back with
  | (back_ptr, back_side, back_deph) :: rest =>
      (array_set mem (addr_of back_ptr + back_side) subs, root,
       (back_ptr, 0, back_deph) :: rest)
  | [] => (mem, subs, [(subs, 0, 0)])
  end.

(** The inner [while] of the [VAR] case. *)
Fixpoint unwind (mem : list cell) (back : list (cell * Z * Z))
    : list (cell * Z * Z) :=
  match back with
  | [] => []
  | (back_term, back_side, back_deph) :: rest =>
      if (ctor_of back_term =? APP) && (back_side =? 0)
      then (array_get mem (addr_of back_term + 1), 0, back_deph)
             :: (back_term, 1, back_deph) :: rest
      else unwind mem rest
  end.

(** One turn of the [while (back.length > 0)] loop. *)
Definition turn (fuel : nat) (rt_defs : gmap Z rt_def) (m : machine)
    (next : cell) (deph : Z) (rest : list (cell * Z * Z)) (side : Z)
    : res machine :=
  let mem := m_mem m in
  if array_len mem >? m_collect_length m then
    do '(mem, root) <- collect fuel mem (m_root m);
    Ok (Machine mem root [(root, 0, 0)] (array_len mem * 8) (m_beta m) (m_copy m))
  else if ctor_of next =? LAM then
    let vari := array_get mem (addr_of next + 0) in
    let mem := if is_not_NIL vari
               then array_set mem (addr_of vari) (Some (New VAR deph))
               else mem in
    Ok (Machine mem (m_root m)
          ((array_get mem (addr_of next + 1), 0, deph + 1) :: (next, 1, deph) :: rest)
          (m_collect_length m) (m_beta m) (m_copy m))
  else if ctor_of next =? APP then
    let func := array_get mem (addr_of next + 0) in
    if ctor_of func =? LAM then
      let vari := array_get mem (addr_of func + 0) in
      let mem := if is_not_NIL vari
                 then array_set mem (addr_of vari) (array_get mem (addr_of next + 1))
                 else mem in
      let subs := array_get mem (addr_of func + 1) in
      let '(mem, root, back) := connect subs mem (m_root m) rest in
      Ok (Machine mem root back (m_collect_length m) (m_beta m + 1) (m_copy m))
    else
      Ok (Machine mem (m_root m) ((func, 0, deph) :: (next, side, deph) :: rest)
            (m_collect_length m) (m_beta m) (m_copy m))
  else if ctor_of next =? REF then
    let mem := (mem ++ [Some NIL])%list in
    let pos := array_len mem in
    match rt_defs !! addr_of next with
    | Some (RtTerm ref_mem ref_ptr) =>
        let mem := (mem ++ map (copy_cell pos) ref_mem)%list in
        let subs := Some (New (ctor_of (Some ref_ptr)) (addr_of (Some ref_ptr) + pos)) in
        let '(mem, root, back) := connect subs mem (m_root m) rest in
        Ok (Machine mem root back (m_collect_length m) (m_beta m)
              (m_copy m + array_len ref_mem))
    | _ => Throw HostTypeError      (* [ref.mem] or [ref_mem.length] *)
    end
  else if ctor_of next =? VAR then
    Ok (Machine mem (m_root m) (unwind mem rest)
          (m_collect_length m) (m_beta m) (m_copy m))
  else
    (* no case of the [switch]: nothing changes *)
    Ok (Machine mem (m_root m) ((next, side, deph) :: rest)
          (m_collect_length m) (m_beta m) (m_copy m)).

Fixpoint loop (fuel : nat) (rt_defs : gmap Z rt_def) (m : machine)
    {struct fuel} : res machine :=
  match fuel with
  | O => OutOfFuel
  | S fuel =>
      match m_back m with
      | [] => Ok m
      | (next, side, deph) :: rest =>
          do m' <- turn fuel rt_defs m next deph rest side;
          loop fuel rt_defs m'
      end
  end.

(** [reduce(rt_term, rt_defs)]: the reduced term and the statistics
    [beta] and [copy]. *)
Definition reduce (fuel : nat) (rt : option rt_def) (rt_defs : gmap Z rt_def)
    : res (list cell * cell * Z * Z) :=
  match rt with
  | Some (RtTerm mem ptr) =>
      do m <- loop fuel rt_defs
                (Machine mem (Some ptr) [(Some ptr, 0, 0)] (array_len mem * 8) 0 0);
      Ok (m_mem m, m_root m, m_beta m, m_copy m)
  | Some (RtArray mem) =>
      (* [mem] and [ptr] of the bare array are [undefined]:
         [mem.length] throws *)
      Throw HostTypeError
  | None => Throw HostTypeError
  end.

End RuntimeFast.

(** ** Vocabulary of the statements *)

(** The moves of one entry of the hole registry: it keeps its value,
    or it was unset and becomes an assigned term.  The depth of the
    entry never changes, and no entry appears or disappears. *)
Definition hole_value_le (v v' : hole_value) : Prop :=
  v' = v \/ (v = Unset /\ exists t, v' = Assigned t).

Definition hole_le (h h' : option hole) : Prop :=
  match h, h' with
  | None, None => True
  | Some h, Some h' =>
      hole_depth h = hole_depth h'
      /\ hole_value_le (hole_value_of h) (hole_value_of h')
  | _, _ => False
  end.

Definition registry_le (r r' : gmap string hole) : Prop :=
  forall name, hole_le (r !! name) (r' !! name).

(** One unset hole of [r] receives a term; nothing else differs. *)
Definition assigns_one (r r' : gmap string hole) : Prop :=
  exists name hd e,
    r !! name = Some (Hole hd Unset)
    /\ r' = <[name := Hole hd (Assigned e)]> r.

(** A computation of the equality engine that only moves the registry
    along [registry_le], whatever its outcome. *)
Definition keeps_holes {A : Type} (m : M eq_state A) : Prop :=
  forall s, registry_le (registry s) (registry (snd (m s))).

(** Flags that are set stay set. *)
Definition flags_le (f f' : list bool) : Prop :=
  forall cell, f !! cell = Some true -> f' !! cell = Some true.

(** A computation of the checker that never clears a flag that was set
    when it started, whatever its outcome. *)
Definition keeps_done {A : Type} (m : M tc_state A) : Prop :=
  forall s, flags_le (tc_flags s) (tc_flags (snd (m s))).

(** A computation of the checker that leaves every flag as it is. *)
Definition same_flags {A : Type} (m : M tc_state A) : Prop :=
  forall s, tc_flags (snd (m s)) = tc_flags s.

(** The two sub-checks of the [Ann] rule, the body of its [try]. *)
Definition Ann_subchecks (logs : bool) (fuel : nat) (type expr : hterm)
    (ctx : list frame) (erased : bool) : M tc_state (option hterm) :=
  let* type_t := typecheck logs fuel (Some type) (Some Typ) ctx true in
  let* expr_t := typecheck logs fuel (Some expr) (Some type) ctx erased in
  ret (Some type).

(** ** Vocabulary of the further statements *)

(** The terms [erase] produces: no [New], [Use] or [Ann] node, no erased
    [Lam] or [App], no annotation on a binder, every [Ref] marked
    erased. *)
Fixpoint erased_form (t : term) : bool :=
  match t with
  | Var _ | Typ | Num | Val _ | Hol _ => true
  | All _ bind body _ => erased_form bind && erased_form body
  | Lam _ bind body eras =>
      match bind with Some _ => false | None => true end
      && negb eras && erased_form body
  | App func argm eras => negb eras && erased_form func && erased_form argm
  | Slf _ type => erased_form type
  | New _ _ | Use _ | Ann _ _ _ => false
  | Op1 _ num0 num1 | Op2 _ num0 num1 => erased_form num0 && erased_form num1
  | Ite cond if_t if_f => erased_form cond && erased_form if_t && erased_form if_f
  | Log msge expr => erased_form msge && erased_form expr
  | Ref _ eras => eras
  end.

(** The operators the [switch] of [op1] has a case for. *)
Definition primitives : list string :=
  [".+."; ".-."; ".*."; "./."; ".%."; ".**."; ".&."; ".|."; ".^."; ".~.";
   ".>>>."; ".<<."; ".>."; ".<."; ".==."].

(** The operators whose cases end in [>>> 0] or in a comparison. *)
Definition word_primitives : list string :=
  [".&."; ".|."; ".^."; ".>>>."; ".>."; ".<."; ".==."].

(** An unsigned 32-bit word. *)
Definition is_word (n : Z) : Prop := 0 <= n < 2 ^ 32.

(** The sub-terms the traversal of [is_affine] and [is_terminating]
    looks at without following a reference: bodies of lambdas,
    functions, arguments that are not erased, operands, conditions and
    branches, and what [New], [Use], [Ann] and [Log] wrap.  [is_affine]
    never looks at the else-branch of an [Ite]: [else_too] says whether
    that branch counts. *)
Inductive visits (else_too : bool) : term -> term -> Prop :=
| visits_here t : visits else_too t t
| visits_Lam name bind body eras u :
    visits else_too body u -> visits else_too (Lam name bind body eras) u
| visits_App_func func argm eras u :
    visits else_too func u -> visits else_too (App func argm eras) u
| visits_App_argm func argm u :
    visits else_too argm u -> visits else_too (App func argm false) u
| visits_Op1_num0 func num0 num1 u :
    visits else_too num0 u -> visits else_too (Op1 func num0 num1) u
| visits_Op1_num1 func num0 num1 u :
    visits else_too num1 u -> visits else_too (Op1 func num0 num1) u
| visits_Op2_num0 func num0 num1 u :
    visits else_too num0 u -> visits else_too (Op2 func num0 num1) u
| visits_Op2_num1 func num0 num1 u :
    visits else_too num1 u -> visits else_too (Op2 func num0 num1) u
| visits_Ite_cond cond if_t if_f u :
    visits else_too cond u -> visits else_too (Ite cond if_t if_f) u
| visits_Ite_if_t cond if_t if_f u :
    visits else_too if_t u -> visits else_too (Ite cond if_t if_f) u
| visits_Ite_if_f cond if_t if_f u :
    else_too = true ->
    visits else_too if_f u -> visits else_too (Ite cond if_t if_f) u
| visits_New type expr u :
    visits else_too expr u -> visits else_too (New type expr) u
| visits_Use expr u :
    visits else_too expr u -> visits else_too (Use expr) u
| visits_Ann type expr done u :
    visits else_too expr u -> visits else_too (Ann type expr done) u
| visits_Log msge expr u :
    visits else_too expr u -> visits else_too (Log msge expr) u.

(** Every [Ann] node of a heap term has its cell below [n]. *)
Fixpoint cells_below (n : nat) (t : hterm) : Prop :=
  match t with
  | Var _ | Typ | Num | Val _ | Hol _ | Ref _ _ => True
  | All _ bind body _ => cells_below n bind /\ cells_below n body
  | Lam _ bind body _ =>
      match bind with Some b => cells_below n b | None => True end
      /\ cells_below n body
  | App func argm _ => cells_below n func /\ cells_below n argm
  | Slf _ type => cells_below n type
  | New type expr => cells_below n type /\ cells_below n expr
  | Use expr => cells_below n expr
  | Op1 _ num0 num1 | Op2 _ num0 num1 => cells_below n num0 /\ cells_below n num1
  | Ite cond if_t if_f =>
      cells_below n cond /\ cells_below n if_t /\ cells_below n if_f
  | Ann type expr cell =>
      cells_below n type /\ cells_below n expr /\ (cell < n)%nat
  | Log msge expr => cells_below n msge /\ cells_below n expr
  end.

(** ** The interaction-net memory ([Net])

    The nodes of a net live in one array of numbers, four cells a node:
    three ports and an information word (bits 0 to 2 tell which ports
    hold a number, bits 3 to 5 are the type of the node, the bits above
    are its kind).  The operators [<<], [>>>], [&], [|] and [~] of the
    host work on 32-bit integers and are written out here. *)

Module Net.

Definition PTR : Z := 0.
Definition NUM : Z := 1.

Definition NOD : Z := 0.
Definition OP1 : Z := 1.
Definition OP2 : Z := 2.
Definition ITE : Z := 3.

(** A cell read as a number by a bitwise operator: [undefined] is 0. *)
Definition num (c : option Z) : Z := default 0 c.

(** [a << n], [a >>> n], [a & b], [a | b], [~a] *)
Definition shl (a n : Z) : Z := to_int32 (Z.shiftl (to_int32 a) (n mod 32)).
Definition shr (a n : Z) : Z := Z.shiftr (to_uint32 a) (n mod 32).
Definition band (a b : Z) : Z := Z.land (to_int32 a) (to_int32 b).
Definition bor (a b : Z) : Z := Z.lor (to_int32 a) (to_int32 b).
Definition bnot (a : Z) : Z := Z.lnot (to_int32 a).

(** [{typ, val}]; [val] is [undefined] on a number read from a cell the
    array does not have. *)
Record ptrn : Type := Ptrn { typ : Z; val : option Z }.

Definition Pointer (addr port : Z) : ptrn :=
  Ptrn PTR (Some (shl addr 2 + band port 3)).
Definition addr_of (p : ptrn) : Z := shr (num (val p)) 2.
Definition slot_of (p : ptrn) : Z := band (num (val p)) 3.
Definition Numeric (numb : option Z) : ptrn := Ptrn NUM numb.
Definition numb_of (p : ptrn) : option Z := val p.
Definition type_of (p : ptrn) : Z := typ p.
Definition ptrn_eq (a b : ptrn) : bool :=
  bool_decide (typ a = typ b) && bool_decide (val a = val b).

(** What a method does: it returns, it throws a string, or it leaves
    the integers (an address that is not whole). *)
Inductive outcome (A : Type) : Type :=
| Returns (a : A)
| Throws (msg : string)
| Unmodelled.
Arguments Returns {A} a.
Arguments Throws {A} msg.
Arguments Unmodelled {A}.

(** [this.nodes] is an array: a cell for every index that was written
    (a negative index is a property of the object like any other), and
    a [length], which a write at or past it moves.  [freed] and [redex]
    are stacks, the top at the end. *)
Record net : Type := MkNet {
  cells : gmap Z (option Z);
  len : Z;
  freed : list Z;
  redex : list Z;
  find_redex : bool
}.

(** [new Net()] *)
Definition empty : net := MkNet ∅ 0 [] [] true.

(** [this.nodes[i]] and [this.nodes[i] = v] *)
Definition node_get (n : net) (i : Z) : option Z :=
  default None (cells n !! i).
Definition node_set (i : Z) (v : option Z) (n : net) : net :=
  MkNet (<[i := v]> (cells n))
    (if (0 <=? i) && (len n <=? i) then i + 1 else len n)
    (freed n) (redex n) (find_redex n).

(** The four writes of [alloc_node] and [free_node]. *)
Definition clear_node (addr info : Z) (n : net) : net :=
  node_set (addr * 4 + 3) (Some info)
    (node_set (addr * 4 + 2) (Some (addr * 4 + 2))
       (node_set (addr * 4 + 1) (Some (addr * 4 + 1))
          (node_set (addr * 4 + 0) (Some (addr * 4 + 0)) n))).

Definition alloc_node (type kind : Z) (n : net) : outcome (Z * net) :=
  let info := shl kind 6 + shl (band type 7) 3 in
  match freed n with
  | _ :: _ =>
      (* [this.freed.pop()] *)
      let addr := List.last (freed n) 0 in
      let n := MkNet (cells n) (len n) (removelast (freed n)) (redex n)
                 (find_redex n) in
      Returns (addr, clear_node addr info n)
  | [] =>
      (* [this.nodes.length / 4] *)
      if negb (len n mod 4 =? 0) then Unmodelled
      else Returns (len n / 4, clear_node (len n / 4) info n)
  end.

Definition free_node (addr : Z) (n : net) : net :=
  let n := clear_node addr 0 n in
  MkNet (cells n) (len n) (freed n ++ [addr]) (redex n) (find_redex n).

Definition is_free (addr : Z) (n : net) : bool :=
  bool_decide (node_get n (addr * 4 + 0) = Some (addr * 4 + 0))
  && bool_decide (node_get n (addr * 4 + 1) = Some (addr * 4 + 1))
  && bool_decide (node_get n (addr * 4 + 2) = Some (addr * 4 + 2))
  && bool_decide (node_get n (addr * 4 + 3) = Some 0).

(** [(this.nodes[addr * 4 + 3] >>> slot) & 1], read as a condition *)
Definition is_numeric (addr slot : Z) (n : net) : bool :=
  negb (band (shr (num (node_get n (addr * 4 + 3))) slot) 1 =? 0).

Definition set_port (addr slot : Z) (p : ptrn) (n : net) : net :=
  if type_of p =? NUM then
    let n := node_set (addr * 4 + slot) (numb_of p) n in
    node_set (addr * 4 + 3)
      (Some (bor (num (node_get n (addr * 4 + 3))) (shl 1 slot))) n
  else
    let n := node_set (addr * 4 + slot)
               (Some (shl (addr_of p) 2 + band (slot_of p) 3)) n in
    node_set (addr * 4 + 3)
      (Some (band (num (node_get n (addr * 4 + 3))) (bnot (shl 1 slot)))) n.

Definition get_port (addr slot : Z) (n : net) : ptrn :=
  let v := node_get n (addr * 4 + slot) in
  if negb (is_numeric addr slot n)
  then Pointer (shr (num v) 2) (band (num v) 3)
  else Numeric v.

(** The methods [type_of], [set_type] and [kind_of] of a node. *)
Definition node_type (addr : Z) (n : net) : Z :=
  band (shr (num (node_get n (addr * 4 + 3))) 3) 7.
Definition set_type (addr type : Z) (n : net) : net :=
  node_set (addr * 4 + 3)
    (Some (bor (band (num (node_get n (addr * 4 + 3))) (bnot 56)) (shl type 3))) n.
Definition node_kind (addr : Z) (n : net) : Z :=
  shr (num (node_get n (addr * 4 + 3))) 6.

Definition enter_port (p : ptrn) (n : net) : outcome ptrn :=
  if type_of p =? NUM then Throws "Can't enter a numeric pointer."
  else Returns (get_port (addr_of p) (slot_of p) n).

Definition link_ports (a b : ptrn) (n : net) : net :=
  let a_numb := type_of a =? NUM in
  let b_numb := type_of b =? NUM in
  let n := if negb a_numb then set_port (addr_of a) (slot_of a) b n else n in
  let n := if negb b_numb then set_port (addr_of b) (slot_of b) a n else n in
  if find_redex n && negb (a_numb && b_numb)
     && (a_numb || (slot_of a =? 0)) && (b_numb || (slot_of b =? 0))
  then MkNet (cells n) (len n) (freed n)
         (redex n ++ [if a_numb then addr_of b else addr_of a]) (find_redex n)
  else n.

Definition unlink_port (a : ptrn) (n : net) : net :=
  if type_of a =? PTR then
    let b := get_port (addr_of a) (slot_of a) n in
    if (type_of b =? PTR)
       && ptrn_eq (get_port (addr_of b) (slot_of b) n) a
    then set_port (addr_of b) (slot_of b) b
           (set_port (addr_of a) (slot_of a) a n)
    else n
  else n.

End Net.
(** * Properties *)

(** ** Erasure *)

(** C9. Erasure is idempotent: erasing an erased term changes nothing,
    [erase(erase(t)) = erase(t)] for every term [t]. *)
Theorem erase_idempotent (t : term) : erase (erase t) = erase t.
Proof.
  funelim (erase t); simp erase; try congruence.
Qed.


(** ** The normaliser: more fuel does not change an answer *)

Section ReduceFuel.

Variable defs : gmap string term.
Variable opts : options.

Local Ltac fuel_step IHr IHa k :=
  match goal with
  | |- context [reduce_sem defs opts k ?t ?ns] =>
      let E := fresh "E" in
      destruct (reduce_sem defs opts k t ns) eqn:E;
      [ rewrite (IHr t ns) by (rewrite E; discriminate); rewrite E
      | rewrite (IHr t ns) by (rewrite E; discriminate); rewrite E
      | cbn [res_bind]; congruence
      | rewrite (IHr t ns) by (rewrite E; discriminate); rewrite E ]
  | |- context [app_clos defs opts k ?c ?x] =>
      let E := fresh "E" in
      destruct (app_clos defs opts k c x) eqn:E;
      [ rewrite (IHa c x) by (rewrite E; discriminate); rewrite E
      | rewrite (IHa c x) by (rewrite E; discriminate); rewrite E
      | cbn [res_bind]; congruence
      | rewrite (IHa c x) by (rewrite E; discriminate); rewrite E ]
  end; cbn [res_bind].

Local Ltac fuel_case :=
  match goal with
  | |- context [if weak opts then _ else _] => destruct (weak opts)
  | |- context [negb (?f opts)] => destruct (f opts); cbn [negb]
  | |- context [if logs opts then _ else _] => destruct (logs opts)
  | |- context [match ?s with SVar _ => _ | _ => _ end] => is_var s; destruct s
  | |- context [match ?o with Some _ => _ | None => _ end] => is_var o; destruct o
  | |- context [match ?m !! ?n with Some _ => _ | None => _ end] =>
      destruct (m !! n) as [[? []]|]
  | |- context [match ?m !! ?n with Some _ => _ | None => _ end] =>
      destruct (m !! n)
  | |- context [if ?n >? 0 then _ else _] => destruct (n >? 0)
  end.

Lemma reduce_sem_fuel (k : nat) :
  (forall k' t ns, (k <= k')%nat ->
     reduce_sem defs opts k t ns <> OutOfFuel ->
     reduce_sem defs opts k' t ns = reduce_sem defs opts k t ns) /\
  (forall k' c x, (k <= k')%nat ->
     app_clos defs opts k c x <> OutOfFuel ->
     app_clos defs opts k' c x = app_clos defs opts k c x).
Proof.
  induction k as [|k IH]; [split; intros; cbn in *; congruence|].
  assert (IHr := fun k' (H : (k <= k')%nat) t ns => proj1 IH k' t ns H).
  assert (IHa := fun k' (H : (k <= k')%nat) c x => proj2 IH k' c x H).
  clear IH.
  split.
  - intros [|k'] t ns Hle; [lia|].
    specialize (IHr k' ltac:(lia)). specialize (IHa k' ltac:(lia)).
    destruct t; cbn [reduce_sem]; fold (app_clos defs opts);
      repeat first [ solve [intros; congruence]
                   | fuel_step IHr IHa k | fuel_case ].
  - intros [|k'] c x Hle; [lia|].
    specialize (IHr k' ltac:(lia)). specialize (IHa k' ltac:(lia)).
    destruct c; cbn [app_clos]; fold (reduce_sem defs opts);
      repeat first [ solve [intros; congruence]
                   | fuel_step IHr IHa k | fuel_case ].
Qed.

(** [quote] likewise. *)
Lemma quote_fuel (k : nat) :
  forall k' t d, (k <= k')%nat ->
    quote defs opts k t d <> OutOfFuel ->
    quote defs opts k' t d = quote defs opts k t d.
Proof.
  induction k as [|k IH]; [intros; cbn in *; congruence|].
  intros [|k'] t d Hle; [lia|].
  specialize (IH k').
  assert (IHa := fun c x => proj2 (reduce_sem_fuel k) k' c x ltac:(lia)).
  destruct t; cbn [quote];
    repeat first
      [ solve [intros; congruence]
      | match goal with
        | |- context [quote defs opts k ?t ?d] =>
            let E := fresh "E" in
            destruct (quote defs opts k t d) eqn:E;
            [ rewrite (IH t d) by (lia || (rewrite E; discriminate)); rewrite E
            | rewrite (IH t d) by (lia || (rewrite E; discriminate)); rewrite E
            | cbn [res_bind]; congruence
            | rewrite (IH t d) by (lia || (rewrite E; discriminate)); rewrite E ];
            cbn [res_bind]
        end
      | fuel_step IHa IHa k | fuel_case ].
Qed.

End ReduceFuel.

(** ** The public reduce *)

Lemma reduce_fuel (k k' : nat) (arg : reduce_arg) (defs : gmap string term)
    (opts : options) :
  (k <= k')%nat ->
  fst (reduce k arg defs opts) <> OutOfFuel ->
  reduce k' arg defs opts = reduce k arg defs opts.
Proof.
  unfold reduce. intros Hle.
  set (u := unquote _ names_new).
  destruct (reduce_sem defs opts k u names_new) eqn:E; cbn [fst]; intros Hfin;
    try congruence;
    rewrite (proj1 (reduce_sem_fuel defs opts k) k' u names_new Hle)
      by (rewrite E; discriminate);
    rewrite E; [|reflexivity..].
  rewrite (quote_fuel defs opts k k' a 0 Hle Hfin). reflexivity.
Qed.

(** C10. The public entry of the reducer accepts the name of a
    definition in place of a term: [reduce(s, defs, opts)] is
    [reduce(Ref(s, false), defs, opts)], result and effect on [MEMO]
    alike, for every string, definitions and options. *)
Theorem reduce_by_name (fuel : nat) (s : string) (defs : gmap string term)
    (opts : options) :
  reduce fuel (ByName s) defs opts = reduce fuel (ByTerm (Ref s false)) defs opts.
Proof.
  unfold reduce. reflexivity.
Qed.

(** A sum of two words is an integer the doubles hold exactly. *)
Lemma exact_word_sum (a b : Z) :
  0 <= a < 2 ^ 32 -> 0 <= b < 2 ^ 32 -> exact (a + b) = PrimVal (a + b).
Proof.
  intros Ha Hb. unfold exact, safe_integer.
  replace (Z.abs (a + b) <=? 2 ^ 53) with true; [reflexivity|].
  symmetry. apply Z.leb_le. rewrite Z.abs_eq by lia.
  assert (2 ^ 32 + 2 ^ 32 <= 2 ^ 53) by (vm_compute; discriminate). lia.
Qed.

(** C3, as the code has it. Addition is the addition of the host's
    numbers and does not wrap: for all words [a] and [b], reducing
    [Op2(".+.", Val a, Val b)] with the numeric rules enabled yields
    [Val (a + b)], which is [Val ((a + b) mod 2^32)] exactly when the sum
    is below 2^32. *)
Theorem reduce_add_words (fuel : nat) (defs : gmap string term) (opts : options)
    (a b : Z) :
  no_op1 opts = false -> no_op2 opts = false ->
  0 <= a < 2 ^ 32 -> 0 <= b < 2 ^ 32 ->
  (3 <= fuel)%nat ->
  reduce fuel (ByTerm (Op2 ".+." (Val a) (Val b))) defs opts
    = (Ok (Val (a + b)), true)
  /\ ((a + b) mod 2 ^ 32 = a + b <-> a + b < 2 ^ 32).
Proof.
  intros H1 H2 Ha Hb Hfuel. split.
  - destruct fuel as [|[|[|fuel]]]; try lia.
    unfold reduce. cbn. rewrite H1, H2. cbn.
    unfold prim_res. cbn [prim].
    rewrite (exact_word_sum a b Ha Hb). reflexivity.
  - split; intros H.
    + pose proof (Z.mod_pos_bound (a + b) (2 ^ 32) ltac:(lia)). lia.
    + apply Z.mod_small. lia.
Qed.

Lemma reduce_add_words_witness :
  reduce 3 (ByTerm (Op2 ".+." (Val 4294967295) (Val 1))) ∅ no_options
    = (Ok (Val (4294967295 + 1)), true)
  /\ ((4294967295 + 1) mod 2 ^ 32 = 4294967295 + 1 <-> 4294967295 + 1 < 2 ^ 32).
Proof.
  apply (reduce_add_words 3 ∅ no_options 4294967295 1);
    [reflexivity | reflexivity | lia | lia | lia].
Defined.

(** C3, as the spec states it, fails on the largest word plus one: the
    reducer answers [Val 4294967296], the wrapped sum is [0]. *)
Lemma reduce_add_does_not_wrap :
  0 <= 4294967295 < 2 ^ 32 /\ 0 <= 1 < 2 ^ 32 /\
  reduce 3 (ByTerm (Op2 ".+." (Val 4294967295) (Val 1))) ∅ no_options
    = (Ok (Val 4294967296), true)
  /\ (Val 4294967296 : term) <> Val ((4294967295 + 1) mod 2 ^ 32).
Proof.
  repeat split; try lia; try reflexivity. vm_compute. discriminate.
Qed.

(** C4. A conditional on a word literal selects by non-zero: with the
    rule enabled, reducing [Ite(Val n, t, f)] is reducing [t] when
    [n <> 0] and reducing [f] when [n = 0].  Both runs give the same
    answer as soon as either gives one: an answer of the branch is the
    answer of the conditional with one more unit of fuel, and an answer
    of the conditional is the answer of the branch. *)
Theorem reduce_Ite_Val (defs : gmap string term) (opts : options) (n : Z)
    (t f : term) (fuel : nat) :
  no_ite opts = false ->
  0 <= n < 2 ^ 32 ->
  let branch := if n =? 0 then f else t in
  (fst (reduce fuel (ByTerm branch) defs opts) <> OutOfFuel ->
     reduce (S fuel) (ByTerm (Ite (Val n) t f)) defs opts
       = reduce fuel (ByTerm branch) defs opts)
  /\ (fst (reduce fuel (ByTerm (Ite (Val n) t f)) defs opts) <> OutOfFuel ->
        reduce fuel (ByTerm (Ite (Val n) t f)) defs opts
          = reduce fuel (ByTerm branch) defs opts).
Proof.
  intros Hite Hn branch.
  assert (Hsel : forall k ns,
    reduce_sem defs opts (S (S k)) (unquote (Ite (Val n) t f) ns) ns
      = reduce_sem defs opts (S k) (unquote branch ns) ns).
  { intros k ns. cbn [unquote]. cbn [reduce_sem res_bind]. rewrite Hite.
    cbn [negb]. unfold branch.
    destruct (Z.eqb_spec n 0) as [->|Hne]; [reflexivity|].
    replace (n >? 0) with true; [reflexivity|]. symmetry. apply Z.gtb_lt. lia. }
  split.
  - intros Hfin.
    destruct fuel as [|k]; [cbn in Hfin; congruence|].
    rewrite <- (reduce_fuel (S k) (S (S k)) (ByTerm branch) defs opts) by (lia || exact Hfin).
    unfold reduce. rewrite Hsel.
    rewrite (proj1 (reduce_sem_fuel defs opts (S k)) (S (S k))); [reflexivity|lia|].
    unfold reduce in Hfin.
    destruct (reduce_sem defs opts (S k) (unquote branch names_new) names_new);
      cbn in Hfin; congruence.
  - destruct fuel as [|[|k]]; [cbn; congruence | cbn; congruence |].
    unfold reduce. rewrite Hsel. intros Hfin.
    destruct (reduce_sem defs opts (S k) (unquote branch names_new) names_new) eqn:E;
      cbn in Hfin; try congruence;
      rewrite (proj1 (reduce_sem_fuel defs opts (S k)) (S (S k)))
        by (lia || (rewrite E; discriminate));
      rewrite E; reflexivity.
Qed.

Lemma reduce_Ite_Val_witness :
  reduce 3 (ByTerm (Ite (Val 7) (Val 1) (Val 2))) ∅ no_options = (Ok (Val 1), true)
  /\ reduce 3 (ByTerm (Ite (Val 0) (Val 1) (Val 2))) ∅ no_options = (Ok (Val 2), true).
Proof.
  split.
  - rewrite (proj2 (reduce_Ite_Val ∅ no_options 7 (Val 1) (Val 2) 3
                      eq_refl ltac:(lia))); [reflexivity|].
    vm_compute. discriminate.
  - rewrite (proj2 (reduce_Ite_Val ∅ no_options 0 (Val 1) (Val 2) 3
                      eq_refl ltac:(lia))); [reflexivity|].
    vm_compute. discriminate.
Defined.

(** ** Equality *)

(** C1, on the code. The [Op1] arm of the structural comparison tests
    the literal of the left side against itself: whatever the two
    literals [m] and [n] are, the node it builds compares the operators
    and the first operands only.  So two partial applications that
    differ only in their literal are found equal as soon as the operand
    is not a number: the closed functions [x => x .+. 5] and
    [x => x .+. 6], and their bodies under the binder. *)
Theorem equal_Op1_ignores_literal :
  let inc n := Lam "x" None (Op1 ".+." (Var 0) (Val n)) false in
  (forall f g a b m n d,
      structural (Op1 f a m) (Op1 g b n) d
      = And (TVal (String.eqb f g)) (And (Eqs true a b d) (TVal true)))
  /\ fst (equal ∅ 20 (inc 5) (inc 6) 0 default_equal_state) = Ok true
  /\ fst (equal ∅ 20 (Op1 ".+." (Var 0) (Val 5)) (Op1 ".+." (Var 0) (Val 6)) 1
            default_equal_state) = Ok true.
Proof.
  split; [|split; vm_compute; reflexivity].
  intros f g a b m n d. unfold structural, numb_field_eq.
  rewrite bool_decide_eq_true_2 by reflexivity. reflexivity.
Qed.

(** C6, on the code. A hole that holds a term is replaced by that term
    when either side is reduced, so the engine never sees it as a hole
    again: a solution that differs from the value makes the comparison
    fail, and the entry keeps its value instead of becoming [null]. *)
Theorem equal_conflict_keeps_assignment :
  let s := EqState true (<["a" := Hole 0 (Assigned (Val 6))]> ∅) in
  equal ∅ 20 (Hol "a") (Val 7) 0 s = (Ok false, s).
Proof. vm_compute. reflexivity. Qed.

(** *** What a step does to the hole registry *)

Section HoleRegistry.

Variable defs : gmap string term.
Variable opts : options.
Hypothesis holes_on : no_hol opts = false.

(** A hole that comes out of the reducer as a head holds no term: an
    assigned hole is replaced by its value. *)
Lemma reduce_sem_Hol_unassigned (k : nat) :
  forall t ns name,
    reduce_sem defs opts k t ns = Ok (SHol name) ->
    forall d v, holes opts !! name <> Some (Hole d (Assigned v)).
Proof.
  induction k as [|k IH]; intros t ns name; [cbn; congruence|].
  destruct t; cbn [reduce_sem]; fold (app_clos defs opts);
    repeat first
      [ match goal with
        | |- Ok ?x = Ok (SHol _) -> _ =>
            first [ is_var x; intros [= ->] | intros [= <-] | discriminate ]
        | |- reduce_sem defs opts k _ _ = Ok (SHol _) -> _ => apply IH
        | |- context [reduce_sem defs opts k ?t ?ns] =>
            let E := fresh "E" in
            destruct (reduce_sem defs opts k t ns) eqn:E; cbn [res_bind]
        | |- context [app_clos defs opts k ?c ?x] =>
            destruct (app_clos defs opts k c x); cbn [res_bind]
        | |- context [prim_res ?f ?a ?b] =>
            unfold prim_res; destruct (prim f a b)
        | |- context [if weak opts then _ else _] => destruct (weak opts)
        | |- context [if logs opts then _ else _] => destruct (logs opts)
        | |- context [negb (no_hol opts)] => rewrite holes_on; cbn [negb]
        | |- context [negb (?f opts)] => destruct (f opts); cbn [negb]
        | |- context [match ?s with SVar _ => _ | _ => _ end] =>
            is_var s; destruct s
        | |- context [match ?o with Some _ => _ | None => _ end] =>
            is_var o; destruct o
        | |- context [if ?n >? 0 then _ else _] => destruct (n >? 0)
        | |- context [match holes opts !! ?n with Some _ => _ | None => _ end] =>
            let E := fresh "E" in
            destruct (holes opts !! n) as [[? [| |?]]|] eqn:E
        | |- context [defs !! ?n] => destruct (defs !! n)
        end
      | discriminate
      | solve [eauto]
      | solve [intros; match goal with E : holes opts !! _ = _ |- _ =>
                 rewrite E; congruence end] ].
Qed.

Lemma quote_Hol_inv (k : nat) (v : sem) (d : Z) (name : string) :
  quote defs opts k v d = Ok (Hol name) -> v = SHol name.
Proof.
  destruct k as [|k]; [cbn; congruence|].
  destruct v; cbn [quote];
    repeat match goal with
           | |- context [quote defs opts k ?t ?d] =>
               destruct (quote defs opts k t d); cbn [res_bind]
           | |- context [app_clos defs opts k ?c ?x] =>
               destruct (app_clos defs opts k c x); cbn [res_bind]
           | |- context [match ?o with Some _ => _ | None => _ end] =>
               is_var o; destruct o
           end; cbn [res_bind]; congruence.
Qed.

End HoleRegistry.

(** The same, for the public [reduce] as [step] calls it. *)
Lemma reduce_Hol_unassigned (fuel : nat) (t : term) (defs' : gmap string term)
    (hs : gmap string hole) (d : Z) (name : string) (m : bool) :
  reduce fuel (ByTerm t) defs' (eq_options hs d) = (Ok (Hol name), m) ->
  forall hd v, hs !! name <> Some (Hole hd (Assigned v)).
Proof.
  unfold reduce.
  destruct (reduce_sem _ _ _ _ _) as [v| | |] eqn:E; try congruence.
  intros [= H _]. apply quote_Hol_inv in H. subst v.
  exact (reduce_sem_Hol_unassigned defs' (eq_options hs d) eq_refl _ _ _ _ E).
Qed.

(** [alter] on a key that is present. *)
Lemma alter_present {A : Type} (f : A -> A) (k : string) (x : A)
    (m : gmap string A) :
  m !! k = Some x -> alter f k m = <[k := f x]> m.
Proof.
  intros H. apply map_eq. intros i.
  destruct (decide (i = k)) as [->|Hne].
  - rewrite lookup_alter_eq, lookup_insert_eq, H. reflexivity.
  - rewrite lookup_alter_ne, lookup_insert_ne by congruence. reflexivity.
Qed.

(** One [Eqs] step leaves the registry as it is or gives one unset hole
    its term: the branch of [step] that would compare an assigned hole
    with a new solution, and mark the hole on a mismatch, needs a [Hol]
    head whose hole is assigned, which [reduce] never returns. *)
Lemma step_Eqs_registry (defs : gmap string term) (fuel : nat) (hashed : bool)
    (a b : term) (d : Z) (s : eq_state) :
  let r' := registry (snd (step defs fuel (Eqs hashed a b d) s)) in
  r' = registry s \/ assigns_one (registry s) r'.
Proof.
  destruct fuel as [|fuel]; [left; reflexivity|].
  cbn [step]. unfold bind, eq_reduce.
  destruct (reduce fuel (ByTerm a) ∅ _) as [[ax| | |] m1] eqn:E1;
    try (left; reflexivity).
  cbn [registry set_MEMO].
  destruct (reduce fuel (ByTerm b) ∅ _) as [[bx| | |] m2] eqn:E2;
    try (left; reflexivity).
  cbn [registry set_MEMO].
  destruct (reduce fuel (ByTerm a) defs _) as [[ay| | |] m3] eqn:E3;
    try (left; reflexivity).
  cbn [registry set_MEMO].
  destruct (reduce fuel (ByTerm b) defs _) as [[by_| | |] m4] eqn:E4;
    try (left; reflexivity).
  cbn [registry set_MEMO].
  destruct (_ || _ || _); [left; reflexivity|].
  destruct ax, bx; try (left; reflexivity);
    try (destruct (String.eqb _ _); left; reflexivity);
    unfold gets, ret, modify; cbn [registry set_MEMO fst snd];
    match goal with
    | |- context [registry s !! ?n] =>
        destruct (registry s !! n) as [[hd [| |v]]|] eqn:Eh
    end; try (left; reflexivity);
    try (exfalso;
         first [ exact (reduce_Hol_unassigned _ _ _ _ _ _ _ E1 _ _ Eh)
               | exact (reduce_Hol_unassigned _ _ _ _ _ _ _ E2 _ _ Eh) ]).
  all: right; eexists _, _, _; split; [exact Eh|];
    cbn [registry set_hole_value set_registry set_MEMO snd];
    rewrite (alter_present _ _ _ _ Eh); reflexivity.
Qed.

(** [registry_le] is a preorder, and a single assignment is a move of it. *)
Lemma hole_le_refl (h : option hole) : hole_le h h.
Proof. destruct h as [[hd v]|]; cbn; [split; [reflexivity|left; reflexivity]|exact I]. Qed.

Lemma hole_le_trans (h1 h2 h3 : option hole) :
  hole_le h1 h2 -> hole_le h2 h3 -> hole_le h1 h3.
Proof.
  destruct h1 as [[d1 v1]|], h2 as [[d2 v2]|], h3 as [[d3 v3]|]; cbn;
    try tauto.
  intros [-> H12] [-> H23]. split; [reflexivity|].
  destruct H12 as [->|[-> [t ->]]]; [exact H23|].
  destruct H23 as [->|[[=] _]]. right; eauto.
Qed.

Lemma registry_le_refl (r : gmap string hole) : registry_le r r.
Proof. intros name. apply hole_le_refl. Qed.

Lemma registry_le_trans (r1 r2 r3 : gmap string hole) :
  registry_le r1 r2 -> registry_le r2 r3 -> registry_le r1 r3.
Proof. intros H12 H23 name. eapply hole_le_trans; [apply H12|apply H23]. Qed.

Lemma assigns_one_le (r r' : gmap string hole) :
  assigns_one r r' -> registry_le r r'.
Proof.
  intros (name & hd & e & Hr & ->) i.
  destruct (decide (i = name)) as [->|Hne].
  - rewrite lookup_insert_eq, Hr. cbn. split; [reflexivity|right; eauto].
  - rewrite lookup_insert_ne by congruence. apply hole_le_refl.
Qed.

(** [keeps_holes] through the monad. *)
Lemma keeps_holes_bind {A B : Type} (m : M eq_state A) (k : A -> M eq_state B) :
  keeps_holes m -> (forall a, keeps_holes (k a)) -> keeps_holes (bind m k).
Proof.
  intros Hm Hk s. unfold bind. specialize (Hm s).
  destruct (m s) as [[a| | |] s1]; cbn [snd] in *; try exact Hm.
  eapply registry_le_trans; [exact Hm|apply Hk].
Qed.

Lemma keeps_holes_ret {A : Type} (a : A) : keeps_holes (@ret eq_state A a).
Proof. intros s. apply registry_le_refl. Qed.

Lemma step_run_keep_holes (defs : gmap string term) (k : nat) :
  (forall node, keeps_holes (step defs k node))
  /\ (forall node, keeps_holes (run defs k node)).
Proof.
  induction k as [|k [IHstep IHrun]];
    [split; intros node s; apply registry_le_refl|].
  assert (Hstep : forall node, keeps_holes (step defs (S k) node)).
  { intros [hashed a b d|v x y|v].
    - intros s.
      destruct (step_Eqs_registry defs (S k) hashed a b d s) as [->|H];
        [apply registry_le_refl|apply assigns_one_le, H].
    - cbn [step].
      destruct x, y; try apply keeps_holes_ret;
        (apply keeps_holes_bind; [apply IHstep|intros X];
         apply keeps_holes_bind; [apply IHstep|intros Y];
         apply keeps_holes_ret).
    - apply keeps_holes_ret. }
  split; [exact Hstep|].
  intros node. cbn [run].
  destruct node; try apply keeps_holes_ret;
    (apply keeps_holes_bind; [apply IHstep|intros node']; apply IHrun).
Qed.

(** X1. Whatever [equal] returns, it moves the hole registry only by
    giving unset holes a term: no entry is added or removed, no depth
    changes, and a hole that is assigned or marked unresolvable keeps
    its value. *)
Theorem equal_keeps_holes (defs : gmap string term) (fuel : nat)
    (a b : term) (d : Z) :
  keeps_holes (equal defs fuel a b d).
Proof.
  destruct fuel as [|fuel]; [intros s; apply registry_le_refl|].
  cbn [equal]. apply keeps_holes_bind.
  - intros s. apply registry_le_refl.
  - intros hashed. apply step_run_keep_holes.
Qed.

(** ** Affinity *)

(** C7, on the code. The [Ite] case checks the then-branch twice and the
    else-branch never: a conditional whose else-branch is [λx. x .+. x]
    passes, although that lambda uses its variable twice. *)
Theorem is_affine_skips_else_branch :
  let body := Op2 ".+." (Var 0) (Var 0) in
  is_affine 5 (Some (Ite (Val 1) (Val 0) (Lam "x" None body false))) ∅ ∅ = Ok true
  /\ uses body 0 = 2
  /\ is_affine 5 (Some (Ite (Val 1) (Lam "x" None body false) (Val 0))) ∅ ∅ = Ok false.
Proof. vm_compute. repeat split. Qed.

(** ** The type checker *)

(** C8, on the code. [ctx_get] tests [ctx.rest.length], which the empty
    context does not have.  In [ctx_new], index 0 is answered by a frame
    of undefined fields, and the checker returns [null] as the type of
    the variable without an error; a larger index reads [length] of
    [undefined] and the host throws a [TypeError].  Neither is the
    unbound-variable error, which a non-empty context does give. *)
Theorem typecheck_Var_in_ctx_new :
  let s := TcState true ∅ ∅ ∅ [] in
  typecheck false 5 (Some (Var 0)) None ctx_new false s = (Ok None, s)
  /\ typecheck false 5 (Some (Var 1)) None ctx_new false s = (Throw HostTypeError, s)
  /\ typecheck false 5 (Some (Var 1)) None
       (ctx_ext "x" None Typ false ctx_new) false s
     = (Throw (CheckError UnboundVariable), s).
Proof. vm_compute. repeat split. Qed.

(** *** Flags that are set stay set *)

Lemma flags_le_refl (f : list bool) : flags_le f f.
Proof. intros cell H. exact H. Qed.

Lemma flags_le_trans (f g h : list bool) :
  flags_le f g -> flags_le g h -> flags_le f h.
Proof. intros Hfg Hgh cell H. apply Hgh, Hfg, H. Qed.

Lemma flags_le_app (f l : list bool) : flags_le f (f ++ l)%list.
Proof. intros cell H. apply lookup_app_l_Some. exact H. Qed.

Lemma flags_le_set_true (f : list bool) (cell : nat) :
  flags_le f (<[cell := true]> f).
Proof.
  intros c H. destruct (decide (cell = c)) as [->|Hne].
  - rewrite list_lookup_insert_eq; [reflexivity|]. eapply lookup_lt_Some, H.
  - rewrite list_lookup_insert_ne by exact Hne. exact H.
Qed.

(** [alloc] only adds cells. *)
Lemma alloc_extends (t : term) (f : list bool) :
  exists l, snd (alloc t f) = (f ++ l)%list.
Proof.
  revert f.
  induction t as [t IH] using (induction_ltof1 _ (@size bool)); unfold ltof in IH.
  assert (Hstep : forall (u : term) f, (size u < size t)%nat ->
            forall (A : Type) (k : hterm -> list bool -> A * list bool),
            (forall u' f', exists l, snd (k u' f') = (f' ++ l)%list) ->
            exists l, snd (let '(u', f') := alloc u f in k u' f') = (f ++ l)%list).
  { intros u f Hlt A k Hk. destruct (IH u Hlt f) as [l1 H1].
    destruct (alloc u f) as [u' f'] eqn:E. cbn in H1. subst f'.
    destruct (Hk u' (f ++ l1)%list) as [l2 H2]. exists (l1 ++ l2)%list.
    rewrite H2. rewrite app_assoc. reflexivity. }
  assert (Hend : forall (x : hterm) f', exists l : list bool, snd (x, f') = (f' ++ l)%list).
  { intros x f'. exists []. cbn. rewrite app_nil_r. reflexivity. }
  intros f.
  destruct t as [index| |n b bd e|n [b|] bd e|fn a e|n ty|ty ex|ex| |num
                |fn n0 n1|fn n0 n1|c tt ff|ty ex dn|ms ex|nm|nm e];
    cbn [alloc];
    repeat first
      [ apply Hend
      | apply Hstep; [cbn [size]; lia | intros ? ?] ].
  - (* Lam with a bind: the pair built in the nested match *)
    destruct (IH b ltac:(cbn [size]; lia) f) as [l1 H1].
    destruct (alloc b f) as [b' f'] eqn:E. cbn in H1. subst f'.
    destruct (IH bd ltac:(cbn [size]; lia) (f ++ l1)%list) as [l2 H2].
    destruct (alloc bd (f ++ l1)%list) as [bd' f''] eqn:E2. cbn in H2. subst f''.
    exists (l1 ++ l2)%list. cbn. rewrite app_assoc. reflexivity.
  - (* Ann: one more cell *)
    eexists [dn]. reflexivity.
Qed.

Lemma keeps_ret {A : Type} (a : A) : keeps_done (ret a).
Proof. intros s. apply flags_le_refl. Qed.

Lemma keeps_throw {A : Type} (e : exn) : keeps_done (@throw tc_state A e).
Proof. intros s. apply flags_le_refl. Qed.

Lemma keeps_out_of_fuel {A : Type} : keeps_done (@out_of_fuel tc_state A).
Proof. intros s. apply flags_le_refl. Qed.

Lemma keeps_gets {A : Type} (f : tc_state -> A) : keeps_done (gets f).
Proof. intros s. apply flags_le_refl. Qed.

Lemma keeps_bind {A B : Type} (m : M tc_state A) (k : A -> M tc_state B) :
  keeps_done m -> (forall a, keeps_done (k a)) -> keeps_done (bind m k).
Proof.
  intros Hm Hk s. unfold bind. specialize (Hm s).
  destruct (m s) as [[a|e| |] s1]; cbn in *; try exact Hm.
  eapply flags_le_trans; [exact Hm | apply Hk].
Qed.

Lemma keeps_try_catch {A : Type} (m : M tc_state A) (h : exn -> M tc_state A) :
  keeps_done m -> (forall e, keeps_done (h e)) -> keeps_done (try_catch m h).
Proof.
  intros Hm Hh s. unfold try_catch. specialize (Hm s).
  destruct (m s) as [[a|e| |] s1]; cbn in *; try exact Hm.
  eapply flags_le_trans; [exact Hm | apply Hh].
Qed.

Lemma keeps_modify (f : tc_state -> tc_state) :
  (forall s, flags_le (tc_flags s) (tc_flags (f s))) -> keeps_done (modify f).
Proof. intros Hf s. apply Hf. Qed.

Lemma keeps_new_Ann (type expr : hterm) (done : bool) :
  keeps_done (new_Ann type expr done).
Proof. intros s. apply flags_le_app. Qed.

Lemma keeps_fresh (t : term) : keeps_done (fresh t).
Proof.
  intros s. unfold fresh.
  destruct (alloc_extends t (tc_flags s)) as [l Hl].
  destruct (alloc t (tc_flags s)) as [t' f']. cbn in *. subst f'.
  apply flags_le_app.
Qed.

Lemma keeps_snapshot (t : hterm) : keeps_done (snapshot t).
Proof. apply keeps_gets. Qed.

Lemma keeps_snapshot_maybe (t : option hterm) : keeps_done (snapshot_maybe t).
Proof.
  destruct t; [|apply keeps_ret].
  apply keeps_bind; [apply keeps_snapshot | intros; apply keeps_ret].
Qed.

Lemma keeps_hshift (t : hterm) (inc d : Z) : keeps_done (hshift t inc d).
Proof.
  apply keeps_bind; [apply keeps_snapshot | intros; apply keeps_fresh].
Qed.

Lemma keeps_hsubst (t : hterm) : forall val d, keeps_done (hsubst t val d).
Proof.
  induction t as [t IH] using (induction_ltof1 _ (@size nat)); unfold ltof in IH.
  intros val d.
  destruct t as [index| |n b bd e|n [b|] bd e|fn a e|n ty|ty ex|ex| |num
                |fn n0 n1|fn n0 n1|c tt ff|ty ex dn|ms ex|nm|nm e];
    cbn [hsubst];
    repeat first
      [ apply keeps_ret
      | apply keeps_hshift
      | apply keeps_gets
      | apply keeps_new_Ann
      | apply IH; cbn [size]; lia
      | apply keeps_bind; [|intros ?]
      | match goal with |- keeps_done (if ?c then _ else _) => destruct c end ].
Qed.

Lemma keeps_ctx_get (i : Z) (ctx : list frame) : keeps_done (ctx_get i ctx).
Proof.
  unfold ctx_get. destruct (i <? 0); [apply keeps_ret|].
  destruct (ctx_walk (Z.to_nat i) ctx) as [[[|[name [t|] type eras] rest]|]|e| |];
    repeat first
      [ apply keeps_ret | apply keeps_throw | apply keeps_out_of_fuel
      | apply keeps_hshift
      | apply keeps_bind; [|intros ?] ].
  intros s. apply flags_le_refl.
Qed.

Lemma keeps_tc_reduce (fuel : nat) (t : option term) (with_defs : bool)
    (mk : gmap string hole -> options) :
  keeps_done (tc_reduce fuel t with_defs mk).
Proof.
  intros s. unfold tc_reduce. destruct t as [t|]; [|apply flags_le_refl].
  destruct (reduce _ _ _ _) as [r m]. apply flags_le_refl.
Qed.

Lemma keeps_weak_normal (fuel : nat) (t : option hterm) (d : Z) :
  keeps_done (weak_normal fuel t d).
Proof.
  unfold weak_normal.
  repeat first [ apply keeps_snapshot_maybe | apply keeps_tc_reduce
               | apply keeps_fresh | apply keeps_bind; [|intros ?] ].
Qed.

Lemma keeps_subst_holes (fuel : nat) (t : option hterm) (d : Z) :
  keeps_done (subst_holes fuel t d).
Proof.
  unfold subst_holes.
  repeat first [ apply keeps_snapshot_maybe | apply keeps_tc_reduce
               | apply keeps_fresh | apply keeps_bind; [|intros ?] ].
Qed.

Lemma keeps_display_normal (fuel : nat) (t : option term) :
  keeps_done (display_normal fuel t).
Proof. apply keeps_tc_reduce. Qed.

Lemma keeps_print_pure (fuel : nat) (t : term) : keeps_done (print_pure fuel t).
Proof.
  apply keeps_bind; [apply keeps_display_normal | intros; apply keeps_ret].
Qed.

Lemma keeps_print (fuel : nat) (t : hterm) : keeps_done (print fuel t).
Proof.
  apply keeps_bind; [apply keeps_snapshot | intros; apply keeps_print_pure].
Qed.

Lemma keeps_ctx_str (fuel : nat) (ctx : list frame) : keeps_done (ctx_str fuel ctx).
Proof.
  induction ctx as [|c rest IH]; cbn [ctx_str]; [apply keeps_ret|].
  apply keeps_bind; [apply keeps_print | intros; exact IH].
Qed.

Lemma keeps_do_error {A : Type} (fuel : nat) (err : check_error) (t : hterm)
    (ctx : list frame) :
  keeps_done (@do_error A fuel err t ctx).
Proof.
  unfold do_error.
  repeat first [ apply keeps_print | apply keeps_ctx_str | apply keeps_throw
               | apply keeps_bind; [|intros ?] ].
Qed.

Lemma keeps_tc_equal (fuel : nat) (a : option hterm) (b : hterm) (d : Z) :
  keeps_done (tc_equal fuel a b d).
Proof.
  intros s. unfold tc_equal. destruct a as [a|]; [|apply flags_le_refl].
  destruct (equal _ _ _ _ _ _) as [r es]. apply flags_le_refl.
Qed.

Lemma keeps_do_match (fuel : nat) (a : option hterm) (b t : hterm)
    (ctx : list frame) :
  keeps_done (do_match fuel a b t ctx).
Proof.
  unfold do_match.
  apply keeps_bind; [apply keeps_tc_equal|]. intros [|]; [apply keeps_ret|].
  destruct a;
    repeat first [ apply keeps_print | apply keeps_do_error | apply keeps_throw
                 | apply keeps_bind; [|intros ?] ].
Qed.

Lemma keeps_match_expected (fuel : nat) (type expect : option hterm) (t : hterm)
    (ctx : list frame) :
  keeps_done (match_expected fuel type expect t ctx).
Proof.
  unfold match_expected. destruct expect; [|apply keeps_ret].
  apply keeps_bind; [apply keeps_do_match | intros; apply keeps_ret].
Qed.

Lemma keeps_normal_expect (fuel : nat) (expect : option hterm) (len : Z) :
  keeps_done (normal_expect fuel expect len).
Proof.
  unfold normal_expect. destruct expect; [|apply keeps_ret].
  apply keeps_bind; [apply keeps_weak_normal | intros; apply keeps_ret].
Qed.

(** The [Ann] rule clears only the flag it found clear. *)
Lemma keeps_Ann_rule {A : Type} (cell : nat) (body : M tc_state A) (cached : A) :
  keeps_done body ->
  keeps_done
    (let* done := gets (get_done cell) in
     if negb done then
       modify (set_done cell true);;
       try_catch body (fun e => modify (set_done cell false);; throw e)
     else ret cached).
Proof.
  intros Hbody s. unfold bind at 1. cbn [gets].
  destruct (get_done cell s) eqn:Hdone; cbn [negb]; [apply flags_le_refl|].
  unfold bind at 1. cbn [modify]. unfold try_catch.
  specialize (Hbody (set_done cell true s)).
  assert (H1 : flags_le (tc_flags s) (tc_flags (set_done cell true s)))
    by apply flags_le_set_true.
  destruct (body (set_done cell true s)) as [[a|e| |] s2]; cbn in *;
    try (eapply flags_le_trans; [exact H1 | exact Hbody]).
  intros c Hc.
  assert (c <> cell).
  { intros ->. unfold get_done in Hdone. rewrite Hc in Hdone. discriminate. }
  rewrite list_lookup_insert_ne by congruence.
  apply Hbody, H1, Hc.
Qed.
Local Ltac flags_side :=
  intros ?;
  first [ apply flags_le_set_true
        | apply flags_le_refl
        | unfold register_hole;
          match goal with |- context [?m !! ?n] => destruct (m !! n) end;
          apply flags_le_refl ].

Local Ltac keeps_step IH :=
  first
    [ apply keeps_ret | apply keeps_throw | apply keeps_gets
    | apply keeps_out_of_fuel
    | apply keeps_do_error | apply keeps_print | apply keeps_print_pure
    | apply keeps_ctx_get | apply keeps_weak_normal | apply keeps_subst_holes
    | apply keeps_new_Ann | apply keeps_hsubst | apply keeps_display_normal
    | apply keeps_snapshot | apply keeps_match_expected
    | apply keeps_normal_expect
    | apply IH
    | apply keeps_Ann_rule
    | apply keeps_modify; flags_side
    | match goal with
      | |- keeps_done (match ?x with _ => _ end) => destruct x
      end
    | apply keeps_try_catch; [|intros ?]
    | apply keeps_bind; [|intros ?] ].

(** Every call of the checker keeps the flags that are set. *)
Lemma keeps_typecheck (logs : bool) (fuel : nat) :
  forall t expect ctx erased,
    keeps_done (typecheck logs fuel t expect ctx erased).
Proof.
  induction fuel as [|fuel IH]; intros t expect ctx erased;
    [apply keeps_out_of_fuel|].
  cbn [typecheck].
  apply keeps_bind; [apply keeps_normal_expect|]. intros expect_nf.
  destruct t as [t|]; [|apply keeps_throw].
  apply keeps_bind; [|intros; apply keeps_match_expected].
  destruct t.
  all: repeat keeps_step IH.
Qed.

(** *** What leaves the flags alone *)

Lemma normal_expect_extends (fuel : nat) (expect : option hterm) (len : Z)
    (s : tc_state) :
  exists l,
    tc_flags (snd (normal_expect fuel expect len s)) = (tc_flags s ++ l)%list.
Proof.
  unfold normal_expect. destruct expect as [e|];
    [|exists []; cbn; rewrite app_nil_r; reflexivity].
  unfold weak_normal, bind, snapshot_maybe, snapshot, gets, ret, tc_reduce, fresh.
  cbn.
  destruct (reduce _ _ _ _) as [[r|x| |] m]; cbn;
    try (exists []; rewrite app_nil_r; reflexivity).
  destruct (alloc_extends r (tc_flags s)) as [l Hl].
  destruct (alloc r (tc_flags s)) as [r' f']. cbn in *. subst f'.
  exists l. reflexivity.
Qed.

Lemma same_flags_bind {A B : Type} (m : M tc_state A) (k : A -> M tc_state B) :
  same_flags m -> (forall a, same_flags (k a)) -> same_flags (bind m k).
Proof.
  intros Hm Hk s. unfold bind. specialize (Hm s).
  destruct (m s) as [[a|e| |] s1]; cbn in *; try exact Hm.
  rewrite Hk. exact Hm.
Qed.

Lemma same_flags_print (fuel : nat) (t : hterm) : same_flags (print fuel t).
Proof.
  intros s. unfold print, print_pure, display_normal, tc_reduce, snapshot, gets, bind, ret.
  cbn. destruct (reduce _ _ _ _) as [[r|x| |] m]; reflexivity.
Qed.

Lemma same_flags_ctx_str (fuel : nat) (ctx : list frame) :
  same_flags (ctx_str fuel ctx).
Proof.
  induction ctx as [|c rest IH]; cbn [ctx_str]; [intros s; reflexivity|].
  apply same_flags_bind; [apply same_flags_print | intros; exact IH].
Qed.

Lemma same_flags_do_error {A : Type} (fuel : nat) (err : check_error)
    (t : hterm) (ctx : list frame) :
  same_flags (@do_error A fuel err t ctx).
Proof.
  unfold do_error.
  apply same_flags_bind; [apply same_flags_print|]. intros _.
  apply same_flags_bind; [apply same_flags_ctx_str|]. intros _ s. reflexivity.
Qed.

Lemma same_flags_match_expected (fuel : nat) (type expect : option hterm)
    (t : hterm) (ctx : list frame) :
  same_flags (match_expected fuel type expect t ctx).
Proof.
  unfold match_expected. destruct expect as [e|]; [|intros s; reflexivity].
  apply same_flags_bind; [|intros _ s; reflexivity].
  unfold do_match. apply same_flags_bind.
  - intros s. unfold tc_equal. destruct type; [|reflexivity].
    destruct (equal _ _ _ _ _ _) as [r es]. reflexivity.
  - intros [|]; [intros s; reflexivity|]. destruct type; [|intros s; reflexivity].
    apply same_flags_bind; [apply same_flags_print|]. intros _.
    apply same_flags_bind; [apply same_flags_print|]. intros _.
    apply same_flags_do_error.
Qed.

Lemma match_expected_returns (fuel : nat) (type expect : option hterm)
    (t : hterm) (ctx : list frame) (s s' : tc_state) (r : option hterm) :
  match_expected fuel type expect t ctx s = (Ok r, s') -> r = type.
Proof.
  unfold match_expected, bind, ret. destruct expect as [e|]; [|congruence].
  destruct (do_match fuel type e t ctx s) as [[[]|x| |] s1]; congruence.
Qed.

(** The [Ann] rule, run on a state. *)
Lemma Ann_rule_run {A : Type} (cell : nat) (body : M tc_state A) (cached : A)
    (s : tc_state) :
  (let* done := gets (get_done cell) in
   if negb done then
     modify (set_done cell true);;
     try_catch body (fun e => modify (set_done cell false);; throw e)
   else ret cached) s
  = if get_done cell s then (Ok cached, s)
    else match body (set_done cell true s) with
         | (Throw e, s2) => (Throw e, set_done cell false s2)
         | r => r
         end.
Proof.
  unfold bind at 1. cbn [gets].
  destruct (get_done cell s); cbn [negb]; [reflexivity|].
  unfold bind at 1. cbn [modify]. unfold try_catch.
  destruct (body (set_done cell true s)) as [[a|e| |] s2]; reflexivity.
Qed.

(** C5. Memoization on [Ann] is rolled back on error.  Take the check of
    an [Ann] node, after its expected type (if any) was normalised, and
    let the sub-checks be the check of the annotation against [Type]
    followed by the check of the expression against the annotation, run
    with the flag set.
    - Flag clear at the start: if the sub-checks throw [e], the check
      throws the same [e] and leaves the flag clear; if they return, the
      check goes on to the comparison with the expected type, the flag
      is set and stays set.
    - Flag set at the start: the check is that comparison alone, on the
      state it was given: no sub-check runs.
    - The type returned is the annotation, and no check ever clears a
      flag it found set. *)
Theorem Ann_memoization (logs : bool) (fuel : nat) (type expr : hterm)
    (cell : nat) (expect : option hterm) (ctx : list frame) (erased : bool)
    (s s0 : tc_state) (expect_nf : option hterm) :
  let t := Ann type expr cell in
  let check := typecheck logs (S fuel) (Some t) expect ctx erased in
  let subchecks := Ann_subchecks logs fuel type expr ctx erased in
  let finish := match_expected fuel (Some type) expect t ctx in
  normal_expect fuel expect (Z.of_nat (List.length ctx)) s = (Ok expect_nf, s0) ->
  (tc_flags s !! cell = Some false ->
     (forall e s2, subchecks (set_done cell true s0) = (Throw e, s2) ->
        check s = (Throw e, set_done cell false s2)
        /\ get_done cell (set_done cell false s2) = false)
     /\ (forall r s2, subchecks (set_done cell true s0) = (Ok r, s2) ->
        check s = finish s2
        /\ get_done cell s2 = true
        /\ get_done cell (snd (finish s2)) = true))
  /\ (tc_flags s !! cell = Some true ->
        check s = finish s0 /\ get_done cell (snd (finish s0)) = true)
  /\ (forall r s3, check s = (Ok r, s3) -> r = Some type)
  /\ (forall logs' fuel' t' expect' ctx' erased' s',
        get_done cell s' = true ->
        get_done cell (snd (typecheck logs' fuel' t' expect' ctx' erased' s')) = true).
Proof.
  intros t check subchecks finish Hnf.
  assert (Hlater : forall logs' fuel' t' expect' ctx' erased' s',
            get_done cell s' = true ->
            get_done cell (snd (typecheck logs' fuel' t' expect' ctx' erased' s')) = true).
  { intros logs' fuel' t' expect' ctx' erased' s' H. unfold get_done in *.
    destruct (tc_flags s' !! cell) as [[|]|] eqn:E; try discriminate.
    rewrite (keeps_typecheck logs' fuel' t' expect' ctx' erased' s' cell E).
    reflexivity. }
  assert (Hcell : forall b, tc_flags s !! cell = Some b -> get_done cell s0 = b).
  { intros b Hb.
    destruct (normal_expect_extends fuel expect (Z.of_nat (List.length ctx)) s) as [l Hl].
    rewrite Hnf in Hl. cbn in Hl. unfold get_done. rewrite Hl.
    rewrite (lookup_app_l_Some _ _ _ _ Hb). reflexivity. }
  assert (Hcheck : check s =
            match (if get_done cell s0 then (Ok (Some type), s0)
                   else match subchecks (set_done cell true s0) with
                        | (Throw e, s2) => (Throw e, set_done cell false s2)
                        | r => r
                        end) with
            | (Ok ty, s2) => match_expected fuel ty expect t ctx s2
            | (Throw e, s2) => (Throw e, s2)
            | (OutOfFuel, s2) => (OutOfFuel, s2)
            | (OutOfModel, s2) => (OutOfModel, s2)
            end).
  { unfold check, finish, t. cbn [typecheck]. unfold bind at 1. rewrite Hnf.
    cbv beta iota. unfold bind at 1.
    pose proof (Ann_rule_run cell subchecks (Some type) s0) as Hrun.
    unfold subchecks, Ann_subchecks in Hrun. rewrite Hrun. reflexivity. }
  assert (Hsub : forall s1 r s2, subchecks s1 = (Ok r, s2) -> r = Some type).
  { intros s1 r s2. unfold subchecks, Ann_subchecks, bind, ret.
    destruct (typecheck logs fuel (Some type) (Some Typ) ctx true s1) as [[?|?| |] ?];
      try discriminate.
    destruct (typecheck logs fuel (Some expr) (Some type) ctx erased _) as [[?|?| |] ?];
      try discriminate.
    congruence. }
  assert (Hkeep : forall s1 c, tc_flags s1 !! c = Some true ->
            tc_flags (snd (subchecks s1)) !! c = Some true).
  { intros s1 c. apply (keeps_bind _ _
      (keeps_typecheck logs fuel (Some type) (Some Typ) ctx true)
      (fun _ => keeps_bind _ _
         (keeps_typecheck logs fuel (Some expr) (Some type) ctx erased)
         (fun _ => keeps_ret (Some type)))). }
  assert (Hfin : forall s2, get_done cell s2 = true ->
            get_done cell (snd (finish s2)) = true).
  { intros s2 H. unfold get_done in *. unfold finish.
    rewrite same_flags_match_expected. exact H. }
  assert (Hin : tc_flags s !! cell = Some false ->
            tc_flags (set_done cell true s0) !! cell = Some true).
  { intros H. unfold set_done. cbn. apply list_lookup_insert_eq.
    pose proof (Hcell _ H) as Hc. unfold get_done in Hc.
    destruct (tc_flags s0 !! cell) eqn:E; [eapply lookup_lt_Some, E|].
    destruct (normal_expect_extends fuel expect (Z.of_nat (List.length ctx)) s) as [l Hl].
    rewrite Hnf in Hl. cbn in Hl. rewrite Hl in E.
    rewrite (lookup_app_l_Some _ _ _ _ H) in E. discriminate. }
  split; [|split; [|split]].
  - intros Hclear. split.
    + (* the sub-checks throw *)
      intros e s2 Hthrow. split.
      * rewrite Hcheck, (Hcell _ Hclear), Hthrow. reflexivity.
      * specialize (Hkeep _ _ (Hin Hclear)). rewrite Hthrow in Hkeep. cbn in Hkeep.
        unfold get_done, set_done. cbn.
        rewrite list_lookup_insert_eq; [reflexivity|]. eapply lookup_lt_Some, Hkeep.
    + (* the sub-checks return *)
      intros r s2 Hret.
      assert (Hdone : get_done cell s2 = true).
      { specialize (Hkeep _ _ (Hin Hclear)). rewrite Hret in Hkeep. cbn in Hkeep.
        unfold get_done. rewrite Hkeep. reflexivity. }
      split; [|split; [exact Hdone | apply Hfin, Hdone]].
      rewrite Hcheck, (Hcell _ Hclear), Hret. rewrite (Hsub _ _ _ Hret). reflexivity.
  - (* the flag is set *)
    intros Hdone. split.
    + rewrite Hcheck, (Hcell _ Hdone). reflexivity.
    + apply Hfin, (Hcell _ Hdone).
  - (* the type returned *)
    intros r s3. rewrite Hcheck.
    destruct (get_done cell s0).
    + apply match_expected_returns.
    + destruct (subchecks (set_done cell true s0)) as [[ty|e| |] s2] eqn:E;
        try discriminate.
      rewrite (Hsub _ _ _ E). apply match_expected_returns.
  - exact Hlater.
Qed.

Lemma Ann_memoization_witness :
  let s := TcState true ∅ ∅ ∅ [false] in
  let s' := TcState true ∅ ∅ ∅ [true] in
  (* [3 :: Number]: checked once, then answered from the flag *)
  typecheck false 6 (Some (Ann Num (Val 3) 0%nat)) None ctx_new false s
    = (Ok (Some Num), s')
  /\ typecheck false 6 (Some (Ann Num (Val 3) 0%nat)) None ctx_new false s'
    = (Ok (Some Num), s')
  (* [Type :: Number]: the mismatch is rethrown and the flag is clear *)
  /\ typecheck false 6 (Some (Ann Num Typ 0%nat)) None ctx_new false s
    = (Throw (CheckError TypeMismatch), s).
Proof.
  set (s := TcState true ∅ ∅ ∅ [false]).
  set (s' := TcState true ∅ ∅ ∅ [true]).
  split; [|split].
  - destruct (Ann_memoization false 5 Num (Val 3) 0%nat None ctx_new false
                s s None eq_refl) as [Hclear _].
    destruct (Hclear eq_refl) as [_ Hret].
    destruct (Hret (Some Num) s' ltac:(vm_compute; reflexivity)) as [E _].
    rewrite E. reflexivity.
  - destruct (Ann_memoization false 5 Num (Val 3) 0%nat None ctx_new false
                s' s' None eq_refl) as (_ & Hset & _).
    destruct (Hset eq_refl) as [E _].
    rewrite E. reflexivity.
  - destruct (Ann_memoization false 5 Num Typ 0%nat None ctx_new false
                s s None eq_refl) as [Hclear _].
    destruct (Hclear eq_refl) as [Hthrow _].
    destruct (Hthrow (CheckError TypeMismatch) s' ltac:(vm_compute; reflexivity))
      as [E _].
    rewrite E. reflexivity.
Defined.

(** *** Variables out of a non-empty context *)

(** [ctx_get] past the last frame of a non-empty context. *)
Lemma ctx_walk_out (ctx : list frame) :
  forall (f : frame) (k : nat),
    (List.length (f :: ctx) <= k)%nat -> ctx_walk k (f :: ctx) = Ok None.
Proof.
  induction ctx as [|g ctx IH]; intros f k Hk; cbn [List.length] in Hk.
  - destruct k as [|k]; [lia|reflexivity].
  - destruct k as [|k]; [lia|]. cbn [ctx_walk].
    apply IH. cbn [List.length]. lia.
Qed.

(** [do_error] does not return. *)
Lemma do_error_bind {A B : Type} (fuel : nat) (err : check_error)
    (t : hterm) (ctx : list frame) (k : A -> M tc_state B) (s : tc_state) :
  bind (do_error fuel err t ctx) k s = do_error fuel err t ctx s.
Proof.
  unfold do_error, bind, throw.
  destruct (print fuel t s) as [[[]| | |] s1]; try reflexivity.
  destruct (ctx_str fuel ctx s1) as [[[]| | |] s2]; reflexivity.
Qed.

(** X2. In a context that has a frame, a variable whose index is not
    below the length of the context is answered by
    [do_error("Unbound variable.")]: once the message is rendered (the
    term and every type of the context are printed), that error is
    thrown. *)
Theorem typecheck_Var_unbound (logs : bool) (fuel : nat) (index : Z)
    (f : frame) (ctx : list frame) (erased : bool) (s : tc_state) :
  Z.of_nat (List.length (f :: ctx)) <= index ->
  typecheck logs (S fuel) (Some (Var index)) None (f :: ctx) erased s
  = do_error fuel UnboundVariable (Var index) (f :: ctx) s
  /\ forall s1 s2,
       print fuel (Var index) s = (Ok tt, s1) ->
       ctx_str fuel (f :: ctx) s1 = (Ok tt, s2) ->
       typecheck logs (S fuel) (Some (Var index)) None (f :: ctx) erased s
       = (Throw (CheckError UnboundVariable), s2).
Proof.
  intros Hi.
  assert (H : typecheck logs (S fuel) (Some (Var index)) None (f :: ctx) erased s
              = do_error fuel UnboundVariable (Var index) (f :: ctx) s).
  { cbn [typecheck normal_expect].
    unfold bind at 1, ret at 1.
    unfold ctx_get.
    destruct (index <? 0) eqn:E; [cbn [List.length] in Hi; lia|].
    rewrite ctx_walk_out by lia.
    unfold bind at 2, ret at 1.
    apply do_error_bind. }
  split; [exact H|].
  intros s1 s2 Hp Hc. rewrite H. unfold do_error, bind, throw.
  rewrite Hp, Hc. reflexivity.
Qed.

Lemma typecheck_Var_unbound_witness :
  Z.of_nat (List.length (ctx_ext "x" None Typ false ctx_new)) <= 1
  /\ typecheck false 5 (Some (Var 1)) None
       (ctx_ext "x" None Typ false ctx_new) false (TcState true ∅ ∅ ∅ [])
     = (Throw (CheckError UnboundVariable), TcState true ∅ ∅ ∅ []).
Proof.
  split; [cbn; lia|].
  refine (proj2 (typecheck_Var_unbound false 4 1 _ [] false
                   (TcState true ∅ ∅ ∅ []) _) _ _ _ _);
    [cbn; lia|vm_compute; reflexivity|vm_compute; reflexivity].
Defined.

(** ** The runtimes *)

(** The loop of the graph reducer does not move on a pointer whose tag
    is none of [VAR], [LAM], [APP], [REF]: on [NIL] it runs forever. *)
Lemma graph_reduce_NIL_never_returns (rt_defs : gmap Z RuntimeFast.rt_def)
    (fuel : nat) :
  RuntimeFast.reduce fuel (Some (RuntimeFast.RtTerm [] RuntimeFast.NIL)) rt_defs
    = OutOfFuel.
Proof.
  unfold RuntimeFast.reduce.
  set (m := RuntimeFast.Machine _ _ _ _ _ _).
  assert (H : RuntimeFast.loop fuel rt_defs m = OutOfFuel);
    [|rewrite H; reflexivity].
  induction fuel as [|fuel IH]; [reflexivity|].
  cbn [RuntimeFast.loop]. unfold m at 1. cbn [RuntimeFast.m_back].
  replace (RuntimeFast.turn fuel rt_defs m (Some RuntimeFast.NIL) 0 [] 0)
    with (Ok m) by (vm_compute; reflexivity).
  exact IH.
Qed.

(** C2, on the code. The compiler of the graph runtime has no case for
    the numeric forms and emits [NIL] for them, and the loop of its
    reducer has no case for [NIL]: on the closed term [5] the term-level
    reducer answers [5], the graph runtime compiles it to the empty
    memory with root [NIL], never returns from reducing it, and would
    read it back as the reference ["*"]. *)
Theorem graph_runtime_has_no_numbers :
  let defs : gmap string term := <["main" := Val 5]> ∅ in
  let compiled :=
    RuntimeFast.Compiled (<[0 := RuntimeFast.RtTerm [] RuntimeFast.NIL]> ∅)
      (<["main" := 0]> ∅) (Some (RuntimeFast.RtTerm [] RuntimeFast.NIL)) in
  reduce 3 (ByTerm (erase (Val 5))) defs no_options = (Ok (Val 5), true)
  /\ RuntimeFast.compile 3 defs "main" = Ok compiled
  /\ (forall fuel,
        RuntimeFast.reduce fuel (RuntimeFast.rt_term compiled)
          (RuntimeFast.rt_defs compiled) = OutOfFuel)
  /\ RuntimeFast.decompile 1 [] (Some RuntimeFast.NIL) 0
       = Ok (Some (Ref "*" false), []).
Proof.
  split; [vm_compute; reflexivity|].
  split; [vm_compute; reflexivity|].
  split; [|vm_compute; reflexivity].
  intros fuel. apply graph_reduce_NIL_never_returns.
Qed.

(** * Further properties of the kernel *)

(** ** Induction on terms

    The binder annotation of a [Lam] is optional, so the induction
    hypothesis for it is stated under the option. *)
Lemma term_induction {D : Type} (P : term_ D -> Prop) :
  (forall index, P (Var index)) ->
  P Typ ->
  (forall name bind body eras, P bind -> P body -> P (All name bind body eras)) ->
  (forall name bind body eras,
      (forall b, bind = Some b -> P b) -> P body -> P (Lam name bind body eras)) ->
  (forall func argm eras, P func -> P argm -> P (App func argm eras)) ->
  (forall name type, P type -> P (Slf name type)) ->
  (forall type expr, P type -> P expr -> P (New type expr)) ->
  (forall expr, P expr -> P (Use expr)) ->
  P Num ->
  (forall numb, P (Val numb)) ->
  (forall func num0 num1, P num0 -> P num1 -> P (Op1 func num0 num1)) ->
  (forall func num0 num1, P num0 -> P num1 -> P (Op2 func num0 num1)) ->
  (forall cond if_t if_f, P cond -> P if_t -> P if_f -> P (Ite cond if_t if_f)) ->
  (forall type expr done, P type -> P expr -> P (Ann type expr done)) ->
  (forall msge expr, P msge -> P expr -> P (Log msge expr)) ->
  (forall name, P (Hol name)) ->
  (forall name eras, P (Ref name eras)) ->
  forall t, P t.
Proof.
  intros HVar HTyp HAll HLam HApp HSlf HNew HUse HNum HVal HOp1 HOp2 HIte HAnn
    HLog HHol HRef t.
  induction t as [t IH] using (induction_ltof1 _ (@size D)); unfold ltof in IH.
  destruct t as [index| |n b bd e|n b bd e|f a e|n ty|ty ex|ex| |num
                |fn n0 n1|fn n0 n1|c tt ff|ty ex dn|ms ex|nm|nm e];
    [apply HVar|apply HTyp|apply HAll|apply HLam|apply HApp|apply HSlf
    |apply HNew|apply HUse|apply HNum|apply HVal|apply HOp1|apply HOp2
    |apply HIte|apply HAnn|apply HLog|apply HHol|apply HRef];
    try (intros b0 ->); apply IH; cbn [size]; lia.
Qed.

Ltac term_cases :=
  cbn [shift subst uses];
  repeat match goal with
         | H : forall b, ?bind = Some b -> _ |- _ =>
             destruct bind as [?b|];
             [specialize (H _ eq_refl)|clear H]
         end.

(** [shift] by nothing rebuilds the term. *)
Lemma shift_zero (t : term) : forall d, shift t 0 d = t.
Proof.
  induction t using term_induction; intros d; term_cases;
    rewrite ?IHt, ?IHt1, ?IHt2, ?IHt3, ?H; try reflexivity.
  - destruct (index <? d); f_equal; lia.
Qed.

(** X3. Two shifts at the same depth add up, as long as the first one
    does not shift downwards. *)
Theorem shift_shift (t : term) :
  forall i j d, 0 <= i -> shift (shift t i d) j d = shift t (i + j) d.
Proof.
  induction t using term_induction; intros i j d Hi; term_cases;
    rewrite ?IHt, ?IHt1, ?IHt2, ?IHt3, ?H by assumption; try reflexivity.
  - destruct (index <? d) eqn:E.
    + rewrite E. reflexivity.
    + apply Z.ltb_ge in E.
      destruct (index + i <? d) eqn:E'; [apply Z.ltb_lt in E'; lia|].
      f_equal. lia.
Qed.

Lemma shift_shift_witness :
  0 <= 2 /\ shift (shift (Lam "x" None (Var 3) false) 2 1) 5 1
            = shift (Lam "x" None (Var 3) false) (2 + 5) 1.
Proof. split; [lia|]. apply shift_shift. lia. Defined.

(** X4. Substituting for the variable a shift by one has just made room
    for gives the term back, whatever is substituted. *)
Theorem subst_shift (t : term) :
  forall v d, subst (shift t 1 d) v d = t.
Proof.
  induction t using term_induction; intros v d; term_cases;
    rewrite ?IHt, ?IHt1, ?IHt2, ?IHt3, ?H; try reflexivity.
  - destruct (index <? d) eqn:E.
    + apply Z.ltb_lt in E.
      destruct (d =? index) eqn:E1; [apply Z.eqb_eq in E1; lia|].
      destruct (index >? d) eqn:E2; [apply Z.gtb_lt in E2; lia|].
      f_equal. lia.
    + apply Z.ltb_ge in E.
      destruct (d =? index + 1) eqn:E1; [apply Z.eqb_eq in E1; lia|].
      destruct (index + 1 >? d) eqn:E2.
      * f_equal. lia.
      * rewrite Z.gtb_ltb in E2. apply Z.ltb_ge in E2. lia.
Qed.

(** Shifting past a variable and substituting for it lowers the shift
    by one. *)
Lemma subst_shift_succ (t : term) :
  forall w k c, 0 <= k ->
    subst (shift t (k + 1) c) w (k + c) = shift t k c.
Proof.
  induction t using term_induction; intros w k c Hk; term_cases;
    repeat match goal with
           | IH : forall _ _ _, _ -> subst _ _ _ = _ |- _ =>
               first [ rewrite IH by lia
                     | rewrite <- (Z.add_assoc k c 1), IH by lia ]
           end;
    try reflexivity.
  destruct (index <? c) eqn:E.
  - apply Z.ltb_lt in E.
    destruct (k + c =? index) eqn:E1; [apply Z.eqb_eq in E1; lia|].
    destruct (index >? k + c) eqn:E2; [apply Z.gtb_lt in E2; lia|].
    f_equal. lia.
  - apply Z.ltb_ge in E.
    destruct (k + c =? index + (k + 1)) eqn:E1; [apply Z.eqb_eq in E1; lia|].
    destruct (index + (k + 1) >? k + c) eqn:E2;
      [|rewrite Z.gtb_ltb in E2; apply Z.ltb_ge in E2; lia].
    f_equal. lia.
Qed.

(** A value that entered at step [i] of [subst_many] comes out of the
    remaining steps as it was. *)
Lemma subst_many_from_shifted (rest : list term) :
  forall (v : term) (len i : Z),
    Z.of_nat (List.length rest) = len - i ->
    subst_many_from (shift v (len - i) 0) rest len i 0 = v.
Proof.
  induction rest as [|x rest IH]; intros v len i Hl; cbn [subst_many_from].
  - cbn [List.length] in Hl. replace (len - i) with 0 by lia. apply shift_zero.
  - cbn [List.length] in Hl.
    replace (len - i) with ((len - i - 1) + 1) by lia.
    replace (0 + len - i - 1) with ((len - i - 1) + 0) by lia.
    rewrite subst_shift_succ by lia.
    replace (len - i - 1) with (len - (i + 1)) by lia.
    apply IH. lia.
Qed.

Lemma subst_many_from_Var (rest : list term) :
  forall (len i j : Z) (v : term),
    Z.of_nat (List.length rest) = len - i -> 0 <= j ->
    rest !! Z.to_nat (len - i - 1 - j) = Some v ->
    j < len - i ->
    subst_many_from (Var j) rest len i 0 = v.
Proof.
  induction rest as [|x rest IH]; intros len i j v Hl Hj Hv Hlt;
    [discriminate|].
  cbn [List.length] in Hl. cbn [subst_many_from subst].
  replace (0 + len - i - 1) with (len - i - 1) by lia.
  destruct (len - i - 1 =? j) eqn:E.
  - apply Z.eqb_eq in E. replace (len - i - 1 - j) with 0 in Hv by lia.
    cbn in Hv. injection Hv as ->.
    replace (len - i - 1) with (len - (i + 1)) by lia.
    apply subst_many_from_shifted. lia.
  - apply Z.eqb_neq in E.
    destruct (j >? len - i - 1) eqn:E2; [apply Z.gtb_lt in E2; lia|].
    rewrite Z.sub_0_r. apply IH; try lia.
    replace (Z.to_nat (len - i - 1 - j)) with (S (Z.to_nat (len - (i + 1) - 1 - j)))
      in Hv by lia.
    exact Hv.
Qed.

(** X5. [subst_many] at depth 0 replaces the variables by the values in
    reverse order: variable [j] by the value at index
    [vals.length - 1 - j], which comes out unshifted. *)
Theorem subst_many_Var (vals : list term) (j : Z) (v : term) :
  0 <= j < Z.of_nat (List.length vals) ->
  vals !! Z.to_nat (Z.of_nat (List.length vals) - 1 - j) = Some v ->
  subst_many (Var j) vals 0 = v.
Proof.
  intros Hj Hv. unfold subst_many.
  apply subst_many_from_Var; try lia.
  rewrite Z.sub_0_r. exact Hv.
Qed.

Lemma subst_many_Var_witness :
  subst_many (Var 0) [Val 1; Val 2; Lam "x" None (Var 1) false] 0
  = Lam "x" None (Var 1) false.
Proof.
  refine (subst_many_Var [Val 1; Val 2; Lam "x" None (Var 1) false] 0 _ _ _);
    [cbn; lia|reflexivity].
Defined.

(** ** Erasure, further *)

(** [erase] only returns terms in erased form. *)
Lemma erased_form_erase (t : term) : erased_form (erase t) = true.
Proof.
  funelim (erase t); simp erase; cbn [erased_form negb andb];
    rewrite ?H, ?H0, ?H1; reflexivity.
Qed.

Lemma erased_form_fixed (t : term) : erased_form t = true -> erase t = t.
Proof.
  funelim (erase t); simp erase; cbn [erased_form negb andb]; intros Ht;
    repeat match goal with
           | H : _ && _ = true |- _ => apply andb_prop in H; destruct H
           end;
    try discriminate;
    rewrite ?H, ?H0, ?H1 by assumption; try reflexivity.
  - match goal with
    | H : match ?b with Some _ => _ | None => _ end = true |- _ =>
        destruct b; [discriminate|reflexivity]
    end.
  - subst. reflexivity.
Qed.

(** X6. What [erase] returns is in erased form: no [New], [Use] or
    [Ann], no erased [Lam] or [App], no binder annotation, every [Ref]
    marked erased.  And erasure is the identity exactly on the terms of
    that form. *)
Theorem erase_fixed_points (t : term) :
  erased_form (erase t) = true /\ (erase t = t <-> erased_form t = true).
Proof.
  split; [apply erased_form_erase|].
  split; [intros <-; apply erased_form_erase|apply erased_form_fixed].
Qed.

(** Substituting a hole for a variable below [d] moves the uses of
    variable [d + 1] to variable [d]. *)
Lemma uses_subst_Hol (t : term) :
  forall name k d, k <= d -> uses (subst t (Hol name) k) d = uses t (d + 1).
Proof.
  induction t using term_induction; intros hname k d Hk; term_cases;
    repeat match goal with
           | IH : forall _ _ _, _ -> uses _ _ = _ |- _ => rewrite IH by lia
           end;
    try reflexivity.
  - destruct (k =? index) eqn:E1.
    + apply Z.eqb_eq in E1. cbn [uses].
      destruct (index =? d + 1) eqn:E2; [apply Z.eqb_eq in E2; lia|reflexivity].
    + cbn [uses]. apply Z.eqb_neq in E1.
      destruct (index >? k) eqn:E2.
      * destruct (index - 1 =? d) eqn:E3, (index =? d + 1) eqn:E4; try reflexivity;
          rewrite ?Z.eqb_eq, ?Z.eqb_neq in *; lia.
      * rewrite Z.gtb_ltb in E2. apply Z.ltb_ge in E2.
        destruct (index - 0 =? d) eqn:E3, (index =? d + 1) eqn:E4; try reflexivity;
          rewrite ?Z.eqb_eq, ?Z.eqb_neq in *; lia.
Qed.

(** X7. Erasure does not change how often a variable is used, as
    [uses] counts. *)
Theorem uses_erase (t : term) : forall d, 0 <= d -> uses (erase t) d = uses t d.
Proof.
  funelim (erase t); simp erase; intros d Hd; cbn [uses];
    rewrite ?H, ?H0, ?H1 by lia; try reflexivity.
  - apply uses_subst_Hol. lia.
  - lia.
Qed.

Lemma uses_erase_witness :
  0 <= 0
  /\ uses (erase (Lam "t" None (App (Var 1) (Var 0) true) true)) 0
     = uses (Lam "t" None (App (Var 1) (Var 0) true) true) 0.
Proof. split; [lia|]. apply uses_erase. lia. Defined.

(** A hole substituted below the depth of a shift commutes with it. *)
Lemma shift_subst_Hol (t : term) :
  forall name i k d, 0 <= i -> k <= d ->
    subst (shift t i (d + 1)) (Hol name) k = shift (subst t (Hol name) k) i d.
Proof.
  induction t using term_induction; intros hname i k d Hi Hk; term_cases;
    repeat match goal with
           | IH : forall _ _ _ _, _ -> _ -> subst _ _ _ = _ |- _ =>
               rewrite IH by lia
           end;
    try reflexivity.
  destruct (index <? d + 1) eqn:E.
  - apply Z.ltb_lt in E.
    destruct (k =? index) eqn:E1; [reflexivity|]. apply Z.eqb_neq in E1.
    cbn [shift].
    destruct (index >? k) eqn:E2.
    + destruct (index - 1 <? d) eqn:E3; [reflexivity|apply Z.ltb_ge in E3; lia].
    + rewrite Z.gtb_ltb in E2. apply Z.ltb_ge in E2.
      destruct (index - 0 <? d) eqn:E3; [reflexivity|apply Z.ltb_ge in E3; lia].
  - apply Z.ltb_ge in E.
    destruct (k =? index + i) eqn:E1; [apply Z.eqb_eq in E1; lia|].
    destruct (k =? index) eqn:E1'; [apply Z.eqb_eq in E1'; lia|].
    destruct (index + i >? k) eqn:E2;
      [|rewrite Z.gtb_ltb in E2; apply Z.ltb_ge in E2; lia].
    destruct (index >? k) eqn:E2';
      [|rewrite Z.gtb_ltb in E2'; apply Z.ltb_ge in E2'; lia].
    cbn [shift].
    destruct (index - 1 <? d) eqn:E3; [apply Z.ltb_lt in E3; lia|].
    f_equal. lia.
Qed.

(** X8. Erasure commutes with shifting upwards. *)
Theorem erase_shift (t : term) :
  forall i d, 0 <= i -> 0 <= d -> erase (shift t i d) = shift (erase t) i d.
Proof.
  funelim (erase t); intros i d Hi Hd; cbn [shift]; simp erase; cbn [shift];
    rewrite ?H, ?H0, ?H1 by lia; try reflexivity.
  rewrite shift_subst_Hol by lia. apply H; lia.
Qed.

Lemma erase_shift_witness :
  0 <= 1 /\ 0 <= 0
  /\ erase (shift (Lam "t" None (App (Var 1) (Var 0) true) true) 1 0)
     = shift (erase (Lam "t" None (App (Var 1) (Var 0) true) true)) 1 0.
Proof. split; [lia|]. split; [lia|]. apply erase_shift; lia. Defined.

(** ** The normaliser, further *)

(** Outside its table, [op1] takes the [default] branch. *)
Lemma prim_unknown (func : string) (num0 num1 : Z) :
  func ∉ primitives -> prim func num0 num1 = PrimUnknown.
Proof.
  intros Hf.
  assert (H : forall f, f ∈ primitives -> func <> f) by (intros f Hin ->; auto).
  unfold prim.
  repeat match goal with
         | |- match ?x with _ => _ end = _ =>
             is_var x; destruct x; try reflexivity
         end.
  all: exfalso; refine (H _ _ eq_refl); unfold primitives;
    repeat first [apply list_elem_of_here|apply list_elem_of_further].
Qed.

Lemma word_log2 (n : Z) : is_word n <-> 0 <= n /\ Z.log2 n < 32.
Proof.
  unfold is_word. destruct (Z.eq_dec n 0) as [->|Hn]; [cbn; lia|].
  split; intros [H0 H1]; (split; [lia|]); apply Z.log2_lt_pow2; lia.
Qed.

Lemma to_uint32_word (n : Z) : is_word n -> to_uint32 n = n.
Proof. unfold is_word, to_uint32. intros H. apply Z.mod_small. lia. Qed.

(** On words, the bitwise and the comparison operators answer with a
    word. *)
Lemma prim_word (func : string) (a b : Z) :
  func ∈ word_primitives -> is_word a -> is_word b ->
  exists n, prim func a b = PrimVal n /\ is_word n.
Proof.
  intros Hf Ha Hb.
  pose proof (proj1 (word_log2 a) Ha) as [Ha0 Ha1].
  pose proof (proj1 (word_log2 b) Hb) as [Hb0 Hb1].
  unfold word_primitives in Hf.
  repeat (apply elem_of_cons in Hf; destruct Hf as [->|Hf]);
    [..|apply elem_of_nil in Hf; destruct Hf];
    cbn [prim]; rewrite ?to_uint32_word by assumption;
    eexists; (split; [reflexivity|]).
  - apply word_log2. split; [apply Z.land_nonneg; lia|].
    pose proof (Z.log2_land a b Ha0 Hb0). lia.
  - apply word_log2. split; [apply Z.lor_nonneg; lia|].
    rewrite Z.log2_lor by lia. lia.
  - apply word_log2. split; [apply Z.lxor_nonneg; lia|].
    pose proof (Z.log2_lxor a b Ha0 Hb0). lia.
  - unfold is_word in *. split; [apply Z.shiftr_nonneg; lia|].
    rewrite Z.shiftr_div_pow2 by (apply Z.mod_pos_bound; lia).
    assert (0 < 2 ^ (b mod 32)) by (apply Z.pow_pos_nonneg; [lia|apply Z.mod_pos_bound; lia]).
    assert (a / 2 ^ (b mod 32) <= a) by (apply Z.div_le_upper_bound; nia).
    lia.
  - unfold is_word. destruct (a >? b); lia.
  - unfold is_word. destruct (a <? b); lia.
  - unfold is_word. destruct (a =? b); lia.
Qed.

(** X9. An operator outside the table of [op1] makes [reduce] throw the
    normalisation error once both operands are numbers, and the throw
    happens while [MEMO] is switched off: the flag stays off. *)
Theorem reduce_unknown_primitive (fuel : nat) (func : string) (a b : Z)
    (defs : gmap string term) (opts : options) :
  func ∉ primitives -> no_op1 opts = false -> no_op2 opts = false ->
  (3 <= fuel)%nat ->
  reduce fuel (ByTerm (Op2 func (Val a) (Val b))) defs opts
  = (Throw (NormalizationError func), false)
  /\ reduce fuel (ByTerm (Op1 func (Val a) (Val b))) defs opts
     = (Throw (NormalizationError func), false).
Proof.
  intros Hf H1 H2 Hk.
  destruct fuel as [|[|[|k]]]; try lia.
  unfold reduce; cbn [unquote reduce_sem res_bind].
  rewrite H1, H2. cbn [negb res_bind]. unfold prim_res.
  rewrite prim_unknown by assumption. split; reflexivity.
Qed.

Lemma reduce_unknown_primitive_witness :
  reduce 3 (ByTerm (Op2 ".max." (Val 1) (Val 2))) ∅ no_options
  = (Throw (NormalizationError ".max."), false).
Proof.
  refine (proj1 (reduce_unknown_primitive 3 ".max." 1 2 ∅ no_options _ _ _ _));
    [unfold primitives; rewrite !not_elem_of_cons; repeat split;
     [discriminate..|apply not_elem_of_nil]
    |reflexivity|reflexivity|lia].
Defined.

(** X10. On unsigned 32-bit words, the bitwise operators [&], [|],
    [^], [>>>] and the comparisons [>], [<], [==] reduce to an unsigned
    32-bit word. *)
Theorem reduce_word_primitive (fuel : nat) (func : string) (a b : Z)
    (defs : gmap string term) (opts : options) :
  func ∈ word_primitives -> is_word a -> is_word b ->
  no_op1 opts = false -> no_op2 opts = false -> (3 <= fuel)%nat ->
  exists n, is_word n
    /\ prim func a b = PrimVal n
    /\ reduce fuel (ByTerm (Op2 func (Val a) (Val b))) defs opts
       = (Ok (Val n), true).
Proof.
  intros Hf Ha Hb H1 H2 Hk.
  destruct (prim_word func a b Hf Ha Hb) as (n & Hp & Hn).
  exists n. split; [exact Hn|]. split; [exact Hp|].
  destruct fuel as [|[|[|k]]]; try lia.
  unfold reduce; cbn [unquote reduce_sem res_bind].
  rewrite H1, H2. cbn [negb res_bind]. unfold prim_res.
  rewrite Hp. reflexivity.
Qed.

Lemma reduce_word_primitive_witness :
  exists n, is_word n
    /\ prim ".^." 12 10 = PrimVal n
    /\ reduce 3 (ByTerm (Op2 ".^." (Val 12) (Val 10))) ∅ no_options
       = (Ok (Val n), true).
Proof.
  refine (reduce_word_primitive 3 ".^." 12 10 ∅ no_options _ _ _ _ _ _);
    [unfold word_primitives;
     repeat first [apply list_elem_of_here|apply list_elem_of_further]
    |unfold is_word; lia|unfold is_word; lia
    |reflexivity|reflexivity|lia].
Defined.



(** X12. An annotation is transparent to the normaliser (unless
    [no_ann] is set): the type is not looked at, and the answer is that
    of the annotated term. *)
Theorem reduce_Ann (fuel : nat) (type expr : term) (done : bool)
    (defs : gmap string term) (opts : options) :
  no_ann opts = false ->
  fst (reduce fuel (ByTerm expr) defs opts) <> OutOfFuel ->
  reduce (S fuel) (ByTerm (Ann type expr done)) defs opts
  = reduce fuel (ByTerm expr) defs opts.
Proof.
  intros Ha. unfold reduce. cbn [unquote reduce_sem]. rewrite Ha. cbn [negb].
  destruct (reduce_sem defs opts fuel (unquote expr names_new) names_new)
    as [r| | |]; cbn [res_bind fst]; intros Hq; try reflexivity.
  rewrite (quote_fuel defs opts fuel (S fuel)) by (auto; lia). reflexivity.
Qed.

Lemma reduce_Ann_witness :
  reduce 4 (ByTerm (Ann (Ref "nowhere" false) (Op2 ".+." (Val 1) (Val 2)) false))
    ∅ no_options
  = reduce 3 (ByTerm (Op2 ".+." (Val 1) (Val 2))) ∅ no_options.
Proof.
  refine (reduce_Ann 3 _ _ _ ∅ no_options _ _);
    [reflexivity|vm_compute; discriminate].
Defined.

(** ** Equality, further *)

(** The first step of [equal] answers [true] from the hashes alone,
    once the four head reductions have returned: when the root hashes
    agree, and also when the two roots carry no hash. *)
Lemma equal_hash_step (defs : gmap string term) (fuel : nat) (a b : term)
    (d : Z) (s : eq_state) (ax bx ay by_ : term) (m1 m2 m3 m4 : bool) :
  (MEMO s = false \/ memo (erase a) = memo (erase b)) ->
  reduce fuel (ByTerm (erase a)) ∅ (eq_options (registry s) d) = (Ok ax, m1) ->
  reduce fuel (ByTerm (erase b)) ∅ (eq_options (registry s) d) = (Ok bx, m2) ->
  reduce fuel (ByTerm (erase a)) defs (eq_options (registry s) d) = (Ok ay, m3) ->
  reduce fuel (ByTerm (erase b)) defs (eq_options (registry s) d) = (Ok by_, m4) ->
  equal defs (S (S (S fuel))) a b d s = (Ok true, set_MEMO m4 s).
Proof.
  intros Hh E1 E2 E3 E4.
  cbn [equal run step]. unfold bind, gets, eq_reduce.
  cbn [registry set_MEMO].
  rewrite E1. cbn [registry set_MEMO]. rewrite E2. cbn [registry set_MEMO].
  rewrite E3. cbn [registry set_MEMO]. rewrite E4. cbn [registry set_MEMO].
  assert (Ht : (if MEMO s then String.eqb (memo (erase a)) (memo (erase b))
                else true) = true).
  { destruct Hh as [-> | ->]; [reflexivity|].
    destruct (MEMO s); [apply String.eqb_refl|reflexivity]. }
  rewrite Ht. cbn [orb]. unfold ret. cbn [run]. reflexivity.
Qed.

(** X13. Two terms whose erasures have the same hash are equal: the
    first step answers [true] from the hashes, once the head reductions
    of both sides have returned.  The hash leaves out the names of
    binders, and [erase] has dropped the annotations of lambdas. *)
Theorem equal_same_hash (defs : gmap string term) (fuel : nat) (a b : term)
    (d : Z) (s : eq_state) (ax bx ay by_ : term) (m1 m2 m3 m4 : bool) :
  memo (erase a) = memo (erase b) ->
  reduce fuel (ByTerm (erase a)) ∅ (eq_options (registry s) d) = (Ok ax, m1) ->
  reduce fuel (ByTerm (erase b)) ∅ (eq_options (registry s) d) = (Ok bx, m2) ->
  reduce fuel (ByTerm (erase a)) defs (eq_options (registry s) d) = (Ok ay, m3) ->
  reduce fuel (ByTerm (erase b)) defs (eq_options (registry s) d) = (Ok by_, m4) ->
  equal defs (S (S (S fuel))) a b d s = (Ok true, set_MEMO m4 s).
Proof. intros Hh. apply equal_hash_step. right. exact Hh. Qed.

Lemma equal_same_hash_witness :
  equal ∅ 6 (Lam "x" (Some Num) (Var 0) false) (Lam "y" None (Var 0) false) 0
    default_equal_state
  = (Ok true, default_equal_state).
Proof.
  refine (equal_same_hash ∅ 3 _ _ 0 default_equal_state
            (Lam "x" None (Var 0) false) (Lam "y" None (Var 0) false)
            (Lam "x" None (Var 0) false) (Lam "y" None (Var 0) false)
            true true true true _ _ _ _ _); vm_compute; reflexivity.
Defined.

(** X14. While [MEMO] is off (a [reduce] that threw leaves it off), the
    terms [equal] builds carry no hash, the first comparison of hashes
    compares [null] with [null], and any two terms are found equal as
    soon as their head reductions return. *)
Theorem equal_without_hashes (defs : gmap string term) (fuel : nat)
    (a b : term) (d : Z) (s : eq_state) (ax bx ay by_ : term)
    (m1 m2 m3 m4 : bool) :
  MEMO s = false ->
  reduce fuel (ByTerm (erase a)) ∅ (eq_options (registry s) d) = (Ok ax, m1) ->
  reduce fuel (ByTerm (erase b)) ∅ (eq_options (registry s) d) = (Ok bx, m2) ->
  reduce fuel (ByTerm (erase a)) defs (eq_options (registry s) d) = (Ok ay, m3) ->
  reduce fuel (ByTerm (erase b)) defs (eq_options (registry s) d) = (Ok by_, m4) ->
  equal defs (S (S (S fuel))) a b d s = (Ok true, set_MEMO m4 s).
Proof. intros Hm. apply equal_hash_step. left. exact Hm. Qed.

Lemma equal_without_hashes_witness :
  equal ∅ 5 Typ (Val 7) 0 (EqState false ∅) = (Ok true, EqState true ∅).
Proof.
  refine (equal_without_hashes ∅ 2 Typ (Val 7) 0 (EqState false ∅)
            Typ (Val 7) Typ (Val 7) true true true true _ _ _ _ _);
    vm_compute; reflexivity.
Defined.

(** The hash of a number literal determines the number. *)
Lemma append_inv_tail (c : Ascii.ascii) (p q : string) :
  p +:+ String c "" = q +:+ String c "" -> p = q.
Proof.
  revert q. induction p as [|a p IH]; intros [|b q]; cbn; intros H.
  - reflexivity.
  - injection H as -> H. destruct q; discriminate.
  - injection H as -> H. destruct p; discriminate.
  - injection H as -> H. f_equal. apply IH, H.
Qed.

Lemma memo_Val_inj (m n : Z) : memo (Val m) = memo (Val n) -> m = n.
Proof.
  cbn [memo]. intros H. injection H as H.
  apply append_inv_tail in H. exact (pretty_Z_inj _ _ H).
Qed.

(** X15. Two number literals are equal exactly when the numbers are. *)
Theorem equal_Val (defs : gmap string term) (fuel : nat) (m n d : Z)
    (s : eq_state) :
  MEMO s = true -> (5 <= fuel)%nat ->
  equal defs fuel (Val m) (Val n) d s = (Ok (m =? n), s).
Proof.
  intros Hm Hk. destruct fuel as [|[|[|[|[|k]]]]]; try lia.
  destruct s as [mm reg]. cbn [MEMO] in Hm. subst mm.
  cbn [equal run]. unfold bind at 1. unfold gets at 1. cbn [MEMO].
  simp erase. cbn [step]. unfold bind, eq_reduce, reduce.
  cbn [unquote reduce_sem quote registry set_MEMO].
  destruct (String.eqb (memo (Val m)) (memo (Val n))) eqn:E.
  - apply String.eqb_eq, memo_Val_inj in E. subst n.
    cbn [orb]. unfold ret. rewrite Z.eqb_refl. reflexivity.
  - cbn [orb structural]. unfold ret.
    destruct (m =? n) eqn:E'; [|reflexivity].
    apply Z.eqb_eq in E'. subst n. rewrite String.eqb_refl in E. discriminate.
Qed.

Lemma equal_Val_witness :
  equal ∅ 5 (Val 5) (Val 6) 0 default_equal_state
  = (Ok false, default_equal_state).
Proof.
  refine (equal_Val ∅ 5 5 6 0 default_equal_state _ _); [reflexivity|lia].
Defined.

(** ** The type checker, further *)




(** X17. [Typ : Typ], [Num : Typ] and [n : Num] for every number [n],
    in every context and state, with that type expected or with none. *)
Theorem typecheck_atoms (logs : bool) (fuel : nat) (n : Z) (ctx : list frame)
    (erased : bool) (s : tc_state) :
  (6 <= fuel)%nat ->
  fst (typecheck logs fuel (Some Typ) (Some Typ) ctx erased s) = Ok (Some Typ)
  /\ fst (typecheck logs fuel (Some Num) (Some Typ) ctx erased s) = Ok (Some Typ)
  /\ fst (typecheck logs fuel (Some (Val n)) (Some Num) ctx erased s) = Ok (Some Num)
  /\ fst (typecheck logs fuel (Some Typ) None ctx erased s) = Ok (Some Typ)
  /\ fst (typecheck logs fuel (Some Num) None ctx erased s) = Ok (Some Typ)
  /\ fst (typecheck logs fuel (Some (Val n)) None ctx erased s) = Ok (Some Num).
Proof.
  intros Hk. destruct fuel as [|[|[|[|[|[|k]]]]]]; try lia.
  destruct s as [m hs ds ts fl].
  repeat split; destruct m; reflexivity.
Qed.

Lemma typecheck_atoms_witness :
  fst (typecheck false 6 (Some Typ) (Some Typ) ctx_new false
         (TcState true ∅ ∅ ∅ [])) = Ok (Some Typ).
Proof.
  refine (proj1 (typecheck_atoms false 6 0 ctx_new false
                   (TcState true ∅ ∅ ∅ []) _)). lia.
Defined.




(** ** Affinity and termination, further *)

Ltac split_checks :=
  repeat match goal with
         | H : context [match ?m with Ok _ => _ | _ => _ end] |- _ =>
             let E := fresh "E" in destruct m as [[|]| | |] eqn:E; cbn in H;
             try discriminate H
         | H : context [res_bind ?m _] |- _ =>
             let E := fresh "E" in destruct m as [[|]| | |] eqn:E; cbn in H;
             try discriminate H
         end.

(** X20. What [is_affine] accepts: every lambda the traversal visits
    without following a reference (the else-branches of [Ite] are not
    visited) uses its variable at most once. *)
Theorem is_affine_sound (fuel : nat) :
  forall (t : term) (defs : gmap string term) (seen : gset string)
         (name : string) (bind : option term) (body : term) (eras : bool),
    is_affine fuel (Some t) defs seen = Ok true ->
    visits false t (Lam name bind body eras) ->
    uses body 0 <= 1.
Proof.
  induction fuel as [|k IH]; intros t defs seen name bind body eras Ht Hv;
    [discriminate|].
  inversion Hv; subst; cbn [is_affine] in Ht; split_checks;
    try discriminate; try (match goal with
         | Hu : visits _ ?u _ |- _ => eapply (IH u); [eassumption|exact Hu]
         end).
  all: try (injection Ht as Ht; apply andb_prop in Ht; destruct Ht as [Hu Hb]);
    try discriminate; try (match goal with
         | Hu : visits _ ?u _ |- _ => eapply (IH u); [eassumption|exact Hu]
         end).
  all: try (apply Z.leb_le; assumption).
Qed.

Lemma is_affine_sound_witness :
  uses (App (Var 0) (Var 1) false) 0 <= 1.
Proof.
  refine (is_affine_sound 6
            (App (Lam "f" None (Lam "x" None (App (Var 0) (Var 1) false) false) false)
               (Val 1) false)
            ∅ ∅ "x" None _ false _ _);
    [vm_compute; reflexivity|].
  apply visits_App_func, visits_Lam, visits_here.
Defined.

(** X21. A term in which the traversal meets no reference is accepted
    by [is_terminating], whatever it computes: only recursion through
    references is looked for. *)
Theorem is_terminating_without_Ref (fuel : nat) :
  forall (t : term) (defs : gmap string term) (seen : gset string),
    (forall name eras, ~ visits true t (Ref name eras)) ->
    (size t <= fuel)%nat ->
    is_terminating fuel (Some t) defs seen = Ok true.
Proof.
  induction fuel as [|k IH]; intros t defs seen Hr Hk;
    [destruct t; cbn [size] in Hk; lia|].
  destruct t as [index| |n b bd e|n b bd e|f a e|n ty|ty ex|ex| |num
                |fn n0 n1|fn n0 n1|c tt ff|ty ex dn|ms ex|nm|nm e];
    cbn [is_terminating]; cbn [size] in Hk; try reflexivity.
  - apply IH; [|destruct b; lia].
    intros name eras Hv. eapply Hr. apply visits_Lam, Hv.
  - rewrite IH; [|intros name eras Hv; eapply Hr; apply visits_App_func, Hv|lia].
    destruct e; [reflexivity|].
    rewrite IH; [reflexivity|intros name eras Hv; eapply Hr; apply visits_App_argm, Hv|lia].
  - apply IH; [|lia]. intros name eras Hv. eapply Hr. apply visits_New, Hv.
  - apply IH; [|lia]. intros name eras Hv. eapply Hr. apply visits_Use, Hv.
  - rewrite IH; [|intros name eras Hv; eapply Hr; apply visits_Op1_num0, Hv|lia].
    rewrite IH; [reflexivity|intros name eras Hv; eapply Hr; apply visits_Op1_num1, Hv|lia].
  - rewrite IH; [|intros name eras Hv; eapply Hr; apply visits_Op2_num0, Hv|lia].
    rewrite IH; [reflexivity|intros name eras Hv; eapply Hr; apply visits_Op2_num1, Hv|lia].
  - rewrite IH; [|intros name eras Hv; eapply Hr; apply visits_Ite_cond, Hv|lia].
    rewrite IH; [|intros name eras Hv; eapply Hr; apply visits_Ite_if_t, Hv|lia].
    rewrite IH; [reflexivity|intros name eras Hv; eapply Hr; apply visits_Ite_if_f; [reflexivity|exact Hv]|lia].
  - apply IH; [|lia]. intros name eras Hv. eapply Hr. apply visits_Ann, Hv.
  - apply IH; [|lia]. intros name eras Hv. eapply Hr. apply visits_Log, Hv.
  - exfalso. eapply Hr. apply visits_here.
Qed.

Lemma is_terminating_without_Ref_witness :
  is_terminating 9
    (Some (App (Lam "x" None (App (Var 0) (Var 0) false) false)
               (Lam "x" None (App (Var 0) (Var 0) false) false) false))
    ∅ ∅
  = Ok true.
Proof.
  refine (is_terminating_without_Ref 9 _ ∅ ∅ _ _); [|cbn; lia].
  intros name eras Hv.
  repeat match goal with
         | H : visits _ _ (Ref _ _) |- _ => inversion H; clear H; subst
         end.
Defined.

(** X22. What [is_terminating] accepts: every reference the traversal
    meets has a definition and is not one it is already unfolding. *)
Theorem is_terminating_sound (fuel : nat) :
  forall (t : term) (defs : gmap string term) (seen : gset string)
         (name : string) (eras : bool),
    is_terminating fuel (Some t) defs seen = Ok true ->
    visits true t (Ref name eras) ->
    (name ∉ seen) /\ is_Some (defs !! name).
Proof.
  induction fuel as [|k IH]; intros t defs seen name eras Ht Hv;
    [discriminate|].
  inversion Hv; subst; cbn [is_terminating] in Ht; split_checks;
    try discriminate;
    try (match goal with
         | Hu : visits _ ?u _ |- _ => eapply (IH u); [eassumption|exact Hu]
         end).
  destruct (bool_decide (name ∈ seen)) eqn:E; [discriminate|].
  apply bool_decide_eq_false in E. split; [exact E|].
  destruct (defs !! name) as [def|]; [eexists; reflexivity|].
  destruct k; discriminate.
Qed.

Lemma is_terminating_sound_witness :
  ("id" ∉ (∅ : gset string))
  /\ is_Some ((<["id" := Lam "x" None (Var 0) false]> ∅ : gmap string term) !! "id").
Proof.
  refine (is_terminating_sound 5 (App (Ref "id" false) (Val 1) false)
            (<["id" := Lam "x" None (Var 0) false]> ∅) ∅ "id" false _ _);
    [vm_compute; reflexivity|].
  apply visits_App_func, visits_here.
Defined.

(** ** The pointer-graph runtime, further *)

(** X23. A pointer keeps its constructor tag in the low four bits and its
    address above them: the tag always reads back, the address reads
    back modulo 2^28. *)
Theorem graph_pointer_fields (ctor addr : Z) :
  0 <= ctor < 16 -> 0 <= addr ->
  RuntimeFast.ctor_of (Some (RuntimeFast.New ctor addr)) = ctor
  /\ RuntimeFast.addr_of (Some (RuntimeFast.New ctor addr)) = addr mod 2 ^ 28
  /\ (addr < 2 ^ 28 ->
      RuntimeFast.addr_of (Some (RuntimeFast.New ctor addr)) = addr).
Proof.
  intros Hc Ha.
  assert (H28 : 0 <= addr mod 2 ^ 28 < 2 ^ 28) by (apply Z.mod_pos_bound; lia).
  unfold RuntimeFast.ctor_of, RuntimeFast.addr_of, RuntimeFast.New.
  cbn [default]. unfold to_uint32, id.
  change (2 ^ 32) with 4294967296 in *. change (2 ^ 28) with 268435456 in *.
  assert (Hm : (ctor + addr * 16) mod 4294967296 = ctor + 16 * (addr mod 268435456)).
  { pose proof (Z.div_mod addr 268435456 ltac:(lia)) as Hdm.
    symmetry. apply (Z.mod_unique_pos _ _ (addr / 268435456));
      generalize dependent (addr mod 268435456);
      generalize dependent (addr / 268435456); intros; lia. }
  rewrite Hm. rewrite (Z.mod_small _ 4294967296) by lia.
  split; [|split].
  - change 15 with (Z.ones 4). rewrite Z.land_ones by lia.
    change (2 ^ 4) with 16.
    symmetry. apply (Z.mod_unique_pos _ _ (addr mod 268435456));
      generalize dependent (addr mod 268435456); intros; lia.
  - rewrite Z.shiftr_div_pow2 by lia. change (2 ^ 4) with 16.
    symmetry. apply (Z.div_unique_pos _ _ _ ctor);
      generalize dependent (addr mod 268435456); intros; lia.
  - intros Hlt. rewrite Z.shiftr_div_pow2 by lia. change (2 ^ 4) with 16.
    rewrite (Z.mod_small addr) by lia.
    symmetry. apply (Z.div_unique_pos _ _ _ ctor); lia.
Qed.

Lemma graph_pointer_fields_witness :
  RuntimeFast.ctor_of (Some (RuntimeFast.New RuntimeFast.APP 5)) = RuntimeFast.APP
  /\ RuntimeFast.addr_of (Some (RuntimeFast.New RuntimeFast.APP 5)) = 5 mod 2 ^ 28
  /\ (5 < 2 ^ 28 ->
      RuntimeFast.addr_of (Some (RuntimeFast.New RuntimeFast.APP 5)) = 5).
Proof.
  refine (graph_pointer_fields RuntimeFast.APP 5 _ _); unfold RuntimeFast.APP; lia.
Defined.

(** ** The typing context *)

Lemma cells_below_mono (t : hterm) :
  forall n n', (n <= n')%nat -> cells_below n t -> cells_below n' t.
Proof.
  induction t using term_induction; intros n n' Hn; cbn [cells_below];
    repeat match goal with
           | H : forall b, ?bind = Some b -> _ |- _ =>
               destruct bind as [?b|];
               [specialize (H _ eq_refl)|clear H]
           end;
    intuition eauto with lia.
Qed.

(** Cells added to the heap do not change what a term reads. *)
Lemma load_app (t : hterm) :
  forall fl more, cells_below (List.length fl) t ->
    load (fl ++ more) t = load fl t.
Proof.
  induction t using term_induction; intros fl more; cbn [cells_below load];
    repeat match goal with
           | H : forall b, ?bind = Some b -> _ |- _ =>
               destruct bind as [?b|];
               [specialize (H _ eq_refl)|clear H]
           end;
    intros Hc;
    repeat match goal with
           | H : _ /\ _ |- _ => destruct H
           end;
    repeat match goal with
           | IH : forall fl more, cells_below _ ?u -> load _ ?u = _ |- _ =>
               rewrite (IH fl more) by assumption; clear IH
           end;
    try reflexivity.
  rewrite lookup_app_l by assumption. reflexivity.
Qed.

(** [alloc] extends the heap, and the term it returns reads back as the
    term it was given. *)
Lemma alloc_load (t : term) :
  forall fl, exists more,
    snd (alloc t fl) = (fl ++ more)%list
    /\ cells_below (List.length (fl ++ more)) (fst (alloc t fl))
    /\ load (fl ++ more) (fst (alloc t fl)) = t.
Proof.
  induction t using term_induction; intros fl; cbn [alloc];
    repeat match goal with
           | H : forall b, ?bind = Some b -> _ |- _ =>
               destruct bind as [?b|];
               [specialize (H _ eq_refl)|clear H]
           end;
    repeat match goal with
           | IH : forall fl, exists more, snd (alloc ?u fl) = _ /\ _ |- context [alloc ?u ?f] =>
               let more := fresh "more" in
               let E := fresh "E" in
               let Hs := fresh "Hs" in
               let Hc := fresh "Hc" in
               let Hl := fresh "Hl" in
               destruct (IH f) as (more & Hs & Hc & Hl);
               destruct (alloc u f) as [? ?] eqn:E;
               cbn [fst snd] in Hs, Hc, Hl; subst; clear IH
           end;
    cbn [fst snd].
  all: try (exists []; rewrite app_nil_r; cbn [cells_below load]; auto; fail).
  all: eexists; (split; [rewrite <- ?app_assoc; reflexivity|]);
    rewrite ?app_assoc; cbn [cells_below load]; split.
  all: repeat split;
    try (eapply cells_below_mono; [|eassumption]; rewrite ?length_app; lia);
    try (rewrite ?length_app; cbn [List.length]; lia).
  all: repeat match goal with
              | |- context [load (?a ++ ?b) ?u] =>
                  rewrite (load_app u a b)
                    by (eapply cells_below_mono; [|eassumption];
                        rewrite ?length_app; lia)
              end; try reflexivity.
  rewrite lookup_app_r by lia. rewrite Nat.sub_diag. reflexivity.
Qed.

(** [ctx_get] walks to the frame it is asked for. *)
Lemma ctx_walk_in (k : nat) :
  forall (ctx : list frame) (f : frame),
    ctx !! k = Some f -> ctx_walk k ctx = Ok (Some (drop k ctx)).
Proof.
  induction k as [|k IH]; intros ctx f Hf.
  - rewrite drop_0. reflexivity.
  - destruct ctx as [|g [|h rest]]; cbn in Hf; try discriminate.
    cbn [ctx_walk]. rewrite (IH (h :: rest) f Hf). reflexivity.
Qed.

(** X24. A variable within the context gets the name, the erasure mark
    and the type of its frame, the type shifted by the index plus one:
    the frame was pushed under that many binders fewer. *)
Theorem ctx_get_in_range (ctx : list frame) (i : Z) (f : frame) (s : tc_state) :
  0 <= i -> ctx !! Z.to_nat i = Some f -> frame_term f = None ->
  exists g s',
    ctx_get i ctx s = (Ok (Some g), s')
    /\ got_name g = Some (frame_name f)
    /\ got_eras g = Some (frame_eras f)
    /\ got_term g = Var i
    /\ load (tc_flags s') <$> got_type g
       = Some (shift (load (tc_flags s) (frame_type f)) (i + 1) 0).
Proof.
  intros Hi Hf Ht. unfold ctx_get.
  destruct (i <? 0) eqn:E; [apply Z.ltb_lt in E; lia|].
  rewrite (ctx_walk_in _ _ _ Hf).
  destruct (drop (Z.to_nat i) ctx) as [|g rest] eqn:Ed.
  { apply (f_equal (fun l => l !! 0%nat)) in Ed.
    rewrite lookup_drop, Nat.add_0_r, Hf in Ed. discriminate. }
  assert (g = f) as ->.
  { apply (f_equal (fun l => l !! 0%nat)) in Ed.
    rewrite lookup_drop, Nat.add_0_r, Hf in Ed. cbn in Ed. congruence. }
  destruct f as [name t type eras]. cbn [frame_term] in Ht. subst t.
  cbv beta iota delta [bind ret hshift snapshot gets fresh].
  destruct (alloc_load (shift (load (tc_flags s) type) (i + 1) 0) (tc_flags s))
    as (more & Hs & _ & Hl).
  destruct (alloc _ (tc_flags s)) as [type' fl'] eqn:Ea.
  cbn [fst snd] in Hs, Hl. subst fl'. cbv beta iota.
  eexists _, _. split; [reflexivity|].
  cbn [got_name got_eras got_term got_type frame_name frame_eras frame_type
       tc_flags set_tc_flags fmap option_fmap option_map].
  rewrite Hl. repeat split; reflexivity.
Qed.

Lemma ctx_get_in_range_witness :
  exists g s',
    ctx_get 1 (ctx_ext "y" None (Var 0) false (ctx_ext "x" None Typ true ctx_new))
      (TcState true ∅ ∅ ∅ []) = (Ok (Some g), s')
    /\ got_name g = Some "x"
    /\ got_eras g = Some true
    /\ got_term g = Var 1
    /\ load (tc_flags s') <$> got_type g = Some (shift Typ (1 + 1) 0).
Proof.
  refine (ctx_get_in_range _ 1 (Frame "x" None Typ true) (TcState true ∅ ∅ ∅ [])
            _ _ _); [lia|reflexivity|reflexivity].
Defined.

(** ** The interaction-net memory *)

Lemma to_int32_small (x : Z) : - 2 ^ 31 <= x < 2 ^ 31 -> to_int32 x = x.
Proof.
  unfold to_int32. change (2 ^ 31) with 2147483648.
  change (2 ^ 32) with 4294967296. intros H.
  destruct (Z_lt_le_dec x 0) as [Hn|Hp].
  - assert (Hm : x mod 4294967296 = x + 4294967296).
    { symmetry. apply (Z.mod_unique_pos _ _ (-1)); lia. }
    rewrite Hm. destruct (x + 4294967296 <? 2147483648) eqn:E;
      [apply Z.ltb_lt in E; lia|lia].
  - rewrite Z.mod_small by lia.
    destruct (x <? 2147483648) eqn:E; [reflexivity|apply Z.ltb_ge in E; lia].
Qed.

Lemma to_uint32_small (x : Z) : 0 <= x < 2 ^ 32 -> to_uint32 x = x.
Proof. unfold to_uint32. intros H. apply Z.mod_small. exact H. Qed.

(** [x & 3] is [x] modulo 4. *)
Lemma band_3 (x : Z) : Net.band x 3 = x mod 4.
Proof.
  unfold Net.band. rewrite (to_int32_small 3) by (cbn; lia).
  change 3 with (Z.ones 2). rewrite Z.land_ones by lia. change (2 ^ 2) with 4.
  unfold to_int32. change (2 ^ 32) with 4294967296. change (2 ^ 31) with 2147483648.
  pose proof (Z.div_mod x 4294967296 ltac:(lia)) as Hx.
  pose proof (Z.mod_pos_bound x 4294967296 ltac:(lia)) as Hb.
  pose proof (Z.div_mod (x mod 4294967296) 4 ltac:(lia)) as Hy.
  pose proof (Z.mod_pos_bound (x mod 4294967296) 4 ltac:(lia)) as Hc.
  assert (H4 : x mod 4 = (x mod 4294967296) mod 4).
  { symmetry.
    apply (Z.mod_unique_pos _ _ (1073741824 * (x / 4294967296)
                                 + (x mod 4294967296) / 4)); lia. }
  destruct (x mod 4294967296 <? 2147483648); [symmetry; exact H4|].
  rewrite H4. symmetry.
  apply (Z.mod_unique_pos _ _ ((x mod 4294967296) / 4 - 1073741824)); lia.
Qed.

(** [a << 2] and [v >>> 2] on numbers in range. *)
Lemma shl_2 (a : Z) : 0 <= a < 2 ^ 29 -> Net.shl a 2 = a * 4.
Proof.
  intros H. change (2 ^ 29) with 536870912 in H. unfold Net.shl.
  change (2 mod 32) with 2.
  rewrite (to_int32_small a) by (cbn; lia).
  rewrite Z.shiftl_mul_pow2 by lia. change (2 ^ 2) with 4.
  apply to_int32_small. cbn. lia.
Qed.

Lemma shr_2 (v : Z) : 0 <= v < 2 ^ 32 -> Net.shr v 2 = v / 4.
Proof.
  intros H. unfold Net.shr. change (2 mod 32) with 2.
  rewrite to_uint32_small by exact H.
  rewrite Z.shiftr_div_pow2 by lia. reflexivity.
Qed.

(** The fields of a pointer to an address below 2^29. *)
Lemma Pointer_parts (addr port : Z) :
  0 <= addr < 2 ^ 29 ->
  Net.addr_of (Net.Pointer addr port) = addr
  /\ Net.slot_of (Net.Pointer addr port) = port mod 4
  /\ Net.type_of (Net.Pointer addr port) = Net.PTR.
Proof.
  intros H. unfold Net.addr_of, Net.slot_of, Net.Pointer, Net.type_of.
  cbn [Net.val Net.typ Net.num default]. unfold id.
  rewrite shl_2 by exact H. rewrite !band_3.
  change (2 ^ 29) with 536870912 in H.
  pose proof (Z.mod_pos_bound port 4 ltac:(lia)) as Hp.
  rewrite shr_2 by (cbn; lia).
  split; [|split; [|reflexivity]].
  - symmetry. apply (Z.div_unique_pos _ _ _ (port mod 4)); lia.
  - symmetry. apply (Z.mod_unique_pos _ _ addr); lia.
Qed.


(** The low 32 bits survive the conversions to 32-bit integers. *)
Lemma testbit_to_uint32 (x i : Z) :
  0 <= i < 32 -> Z.testbit (to_uint32 x) i = Z.testbit x i.
Proof. intros H. unfold to_uint32. apply Z.mod_pow2_bits_low. lia. Qed.

Lemma testbit_to_int32 (x i : Z) :
  0 <= i < 32 -> Z.testbit (to_int32 x) i = Z.testbit x i.
Proof.
  intros H. unfold to_int32. cbv zeta.
  destruct (x mod 2 ^ 32 <? 2 ^ 31); [apply Z.mod_pow2_bits_low; lia|].
  rewrite <- (Z.mod_pow2_bits_low (x mod 2 ^ 32 - 2 ^ 32) 32 i) by lia.
  rewrite Zminus_mod, Z.mod_same, Z.sub_0_r, !Z.mod_mod by lia.
  apply Z.mod_pow2_bits_low. lia.
Qed.

(** [(info >>> slot) & 1] is bit [slot] of [info]. *)
Lemma numeric_bit (info slot : Z) :
  0 <= slot < 32 ->
  Net.band (Net.shr info slot) 1 = Z.b2z (Z.testbit info slot).
Proof.
  intros H. unfold Net.band, Net.shr.
  rewrite (Z.mod_small slot 32) by lia.
  rewrite (to_int32_small 1) by (cbn; lia).
  change 1 with (Z.ones 1) at 1. rewrite Z.land_ones by lia.
  change (2 ^ 1) with 2. rewrite <- Z.bit0_mod.
  rewrite testbit_to_int32 by lia.
  rewrite Z.shiftr_spec by lia. rewrite Z.add_0_l.
  rewrite testbit_to_uint32 by lia. reflexivity.
Qed.

(** Bit [j] of [1 << slot]. *)
Lemma testbit_shl_1 (slot j : Z) :
  0 <= slot < 31 -> 0 <= j < 32 ->
  Z.testbit (Net.shl 1 slot) j = (j =? slot).
Proof.
  intros Hs Hj. unfold Net.shl. rewrite (Z.mod_small slot 32) by lia.
  rewrite (to_int32_small 1) by (cbn; lia).
  rewrite testbit_to_int32 by lia.
  rewrite Z.shiftl_mul_pow2, Z.mul_1_l by lia.
  rewrite Z.pow2_bits_eqb by lia. apply Z.eqb_sym.
Qed.

(** Bit [j] of [info | (1 << slot)] and of [info & ~(1 << slot)]. *)
Lemma testbit_set_bit (info slot j : Z) :
  0 <= slot < 31 -> 0 <= j < 32 ->
  Z.testbit (Net.bor info (Net.shl 1 slot)) j
  = Z.testbit info j || (j =? slot).
Proof.
  intros Hs Hj. unfold Net.bor. rewrite Z.lor_spec.
  rewrite !testbit_to_int32 by lia. rewrite testbit_shl_1 by lia. reflexivity.
Qed.

Lemma testbit_clear_bit (info slot j : Z) :
  0 <= slot < 31 -> 0 <= j < 32 ->
  Z.testbit (Net.band info (Net.bnot (Net.shl 1 slot))) j
  = Z.testbit info j && negb (j =? slot).
Proof.
  intros Hs Hj. unfold Net.band, Net.bnot. rewrite Z.land_spec.
  rewrite !testbit_to_int32 by lia. rewrite Z.lnot_spec by lia.
  rewrite testbit_to_int32 by lia. rewrite testbit_shl_1 by lia. reflexivity.
Qed.

Lemma node_get_set (i : Z) (v : option Z) (n : Net.net) :
  Net.node_get (Net.node_set i v n) i = v.
Proof.
  unfold Net.node_get, Net.node_set. cbn [Net.cells].
  rewrite lookup_insert_eq. reflexivity.
Qed.

Lemma node_get_set_ne (i j : Z) (v : option Z) (n : Net.net) :
  i <> j -> Net.node_get (Net.node_set i v n) j = Net.node_get n j.
Proof.
  intros H. unfold Net.node_get, Net.node_set. cbn [Net.cells].
  rewrite lookup_insert_ne by exact H. reflexivity.
Qed.

(** The cells of a node after [set_port]. *)
Lemma set_port_cell (addr slot : Z) (p : Net.ptrn) (n : Net.net) :
  0 <= slot <= 2 ->
  Net.node_get (Net.set_port addr slot p n) (addr * 4 + slot)
  = (if Net.type_of p =? Net.NUM then Net.numb_of p
     else Some (Net.shl (Net.addr_of p) 2 + Net.band (Net.slot_of p) 3)).
Proof.
  intros Hs. unfold Net.set_port.
  destruct (Net.type_of p =? Net.NUM);
    rewrite node_get_set_ne by lia; apply node_get_set.
Qed.

Lemma set_port_numeric (addr slot j : Z) (p : Net.ptrn) (n : Net.net) :
  0 <= slot <= 2 -> 0 <= j <= 2 ->
  Net.is_numeric addr j (Net.set_port addr slot p n)
  = if j =? slot then Net.type_of p =? Net.NUM else Net.is_numeric addr j n.
Proof.
  intros Hs Hj. unfold Net.is_numeric, Net.set_port.
  destruct (Net.type_of p =? Net.NUM); rewrite node_get_set;
    rewrite node_get_set_ne by lia; cbn [Net.num default]; unfold id;
    rewrite !numeric_bit by lia;
    [rewrite testbit_set_bit by lia|rewrite testbit_clear_bit by lia];
    destruct (j =? slot);
    destruct (Z.testbit (Net.num (Net.node_get n (addr * 4 + 3))) j);
    reflexivity.
Qed.

Lemma set_port_other_cell (addr slot i : Z) (p : Net.ptrn) (n : Net.net) :
  i <> addr * 4 + slot -> i <> addr * 4 + 3 ->
  Net.node_get (Net.set_port addr slot p n) i = Net.node_get n i.
Proof.
  intros H1 H2. unfold Net.set_port.
  destruct (Net.type_of p =? Net.NUM); rewrite !node_get_set_ne by lia;
    reflexivity.
Qed.

(** A pointer read back from the cell [Pointer] filled. *)
Lemma Pointer_again (a q : Z) :
  0 <= a < 2 ^ 29 ->
  Net.Pointer (Net.shr (Net.shl a 2 + Net.band q 3) 2)
    (Net.band (Net.shl a 2 + Net.band q 3) 3)
  = Net.Pointer a q.
Proof.
  intros Ha.
  destruct (Pointer_parts a q Ha) as (H1 & H2 & _).
  unfold Net.addr_of, Net.slot_of, Net.Pointer in H1, H2.
  cbn [Net.val Net.num default] in H1, H2. unfold id in H1, H2.
  rewrite H1, H2. unfold Net.Pointer. do 3 f_equal.
  rewrite !band_3. apply Z.mod_mod. lia.
Qed.

(** X25. A port pointer packs the address above the two bits of the
    slot: for an address below 2^29 both read back, the slot modulo 4,
    and the pointer built from them again is the same pointer. *)
Theorem Pointer_fields (addr port : Z) :
  0 <= addr < 2 ^ 29 ->
  let p := Net.Pointer addr port in
  Net.addr_of p = addr
  /\ Net.slot_of p = port mod 4
  /\ Net.type_of p = Net.PTR
  /\ Net.Pointer (Net.addr_of p) (Net.slot_of p) = p.
Proof.
  intros H p. destruct (Pointer_parts addr port H) as (H1 & H2 & H3).
  fold p in H1, H2, H3. repeat split; try assumption.
  rewrite H1, H2. unfold p, Net.Pointer. do 3 f_equal.
  rewrite !band_3. apply Z.mod_mod. lia.
Qed.

Lemma Pointer_fields_witness :
  Net.addr_of (Net.Pointer 7 2) = 7
  /\ Net.slot_of (Net.Pointer 7 2) = 2 mod 4
  /\ Net.type_of (Net.Pointer 7 2) = Net.PTR
  /\ Net.Pointer (Net.addr_of (Net.Pointer 7 2)) (Net.slot_of (Net.Pointer 7 2))
     = Net.Pointer 7 2.
Proof. refine (Pointer_fields 7 2 _). cbn. lia. Defined.

(** What [set_port] stores in a port, [get_port] reads back, and every
    other port reads as before. *)
Lemma get_port_set_port_Numeric (addr slot : Z) (v : option Z) (n : Net.net) :
  0 <= slot <= 2 ->
  Net.get_port addr slot (Net.set_port addr slot (Net.Numeric v) n)
  = Net.Numeric v.
Proof.
  intros Hs. unfold Net.get_port.
  rewrite set_port_numeric by lia. rewrite Z.eqb_refl.
  rewrite set_port_cell by lia. reflexivity.
Qed.

Lemma get_port_set_port_Pointer (addr slot a q : Z) (n : Net.net) :
  0 <= slot <= 2 -> 0 <= a < 2 ^ 29 ->
  Net.get_port addr slot (Net.set_port addr slot (Net.Pointer a q) n)
  = Net.Pointer a q.
Proof.
  intros Hs Ha. unfold Net.get_port.
  rewrite set_port_numeric by lia. rewrite Z.eqb_refl.
  rewrite set_port_cell by lia.
  destruct (Pointer_parts a q Ha) as (H1 & H2 & H3).
  rewrite H3. change (Net.PTR =? Net.NUM) with false. cbn [negb].
  rewrite H1, H2. cbn [Net.num default]. unfold id.
  rewrite (band_3 (q mod 4)), Z.mod_mod, <- band_3 by lia.
  apply Pointer_again, Ha.
Qed.

Lemma get_port_set_port_other (addr slot addr' slot' : Z) (p : Net.ptrn)
    (n : Net.net) :
  0 <= slot <= 2 -> 0 <= slot' <= 2 -> addr' <> addr \/ slot' <> slot ->
  Net.get_port addr' slot' (Net.set_port addr slot p n)
  = Net.get_port addr' slot' n.
Proof.
  intros Hs Hs' Hne. unfold Net.get_port.
  rewrite set_port_other_cell by lia.
  assert (Hn : Net.is_numeric addr' slot' (Net.set_port addr slot p n)
               = Net.is_numeric addr' slot' n).
  { destruct (Z.eq_dec addr' addr) as [->|Ha].
    - rewrite set_port_numeric by lia.
      destruct (slot' =? slot) eqn:E; [apply Z.eqb_eq in E; lia|reflexivity].
    - unfold Net.is_numeric. rewrite set_port_other_cell by lia. reflexivity. }
  rewrite Hn. reflexivity.
Qed.

(** X26. What [set_port] stores in a port, [get_port] reads back: a
    number as that number, a pointer (to an address below 2^29) as that
    pointer; and every other port of the net reads as before. *)
Theorem set_port_get_port (addr slot : Z) (n : Net.net) :
  0 <= slot <= 2 ->
  (forall v,
      Net.get_port addr slot (Net.set_port addr slot (Net.Numeric v) n)
      = Net.Numeric v)
  /\ (forall a q, 0 <= a < 2 ^ 29 ->
        Net.get_port addr slot (Net.set_port addr slot (Net.Pointer a q) n)
        = Net.Pointer a q)
  /\ (forall p addr' slot', 0 <= slot' <= 2 ->
        addr' <> addr \/ slot' <> slot ->
        Net.get_port addr' slot' (Net.set_port addr slot p n)
        = Net.get_port addr' slot' n).
Proof.
  intros Hs. split; [|split].
  - intros v. apply get_port_set_port_Numeric, Hs.
  - intros a q Ha. apply get_port_set_port_Pointer; assumption.
  - intros p addr' slot' Hs' Hne. apply get_port_set_port_other; assumption.
Qed.

Lemma set_port_get_port_witness :
  Net.get_port 0 1 (Net.set_port 0 1 (Net.Numeric (Some 42)) Net.empty)
  = Net.Numeric (Some 42).
Proof.
  refine (proj1 (set_port_get_port 0 1 Net.empty _) (Some 42)). lia.
Defined.

(** The two ports [link_ports] has connected hold each other. *)
Lemma link_ports_get_port (a1 s1 a2 s2 : Z) (n : Net.net) :
  0 <= a1 < 2 ^ 29 -> 0 <= s1 <= 2 -> 0 <= a2 < 2 ^ 29 -> 0 <= s2 <= 2 ->
  let a := Net.Pointer a1 s1 in
  let b := Net.Pointer a2 s2 in
  let n' := Net.link_ports a b n in
  Net.get_port a1 s1 n' = b /\ Net.get_port a2 s2 n' = a.
Proof.
  intros Ha1 Hs1 Ha2 Hs2 a b n'.
  destruct (Pointer_parts a1 s1 Ha1) as (Aa & As & At).
  destruct (Pointer_parts a2 s2 Ha2) as (Ba & Bs & Bt).
  rewrite (Z.mod_small s1 4) in As by lia.
  rewrite (Z.mod_small s2 4) in Bs by lia.
  fold a in Aa, As, At. fold b in Ba, Bs, Bt.
  set (n2 := Net.set_port a2 s2 a (Net.set_port a1 s1 b n)).
  assert (Hcells : forall ad sl, Net.get_port ad sl n' = Net.get_port ad sl n2).
  { intros ad sl. unfold n', Net.link_ports. rewrite At, Bt.
    change (Net.PTR =? Net.NUM) with false. cbn [negb andb orb].
    rewrite Aa, As, Ba, Bs. fold n2.
    destruct (_ && _ && _ && _); reflexivity. }
  rewrite !Hcells. unfold n2.
  split; [|apply get_port_set_port_Pointer; assumption].
  destruct (Z.eq_dec a1 a2) as [Ea|Ea];
    [destruct (Z.eq_dec s1 s2) as [Es|Es]|].
  - clear Hcells. subst n2 n' a b. subst a2 s2.
    apply get_port_set_port_Pointer; assumption.
  - rewrite get_port_set_port_other by (try lia; right; exact Es).
    apply get_port_set_port_Pointer; assumption.
  - rewrite get_port_set_port_other by (try lia; left; exact Ea).
    apply get_port_set_port_Pointer; assumption.
Qed.

(** X27. After [link_ports(a, b)] on two port pointers, entering [a]
    gives [b] and entering [b] gives [a]. *)
Theorem link_ports_enter_port (a1 s1 a2 s2 : Z) (n : Net.net) :
  0 <= a1 < 2 ^ 29 -> 0 <= s1 <= 2 -> 0 <= a2 < 2 ^ 29 -> 0 <= s2 <= 2 ->
  let a := Net.Pointer a1 s1 in
  let b := Net.Pointer a2 s2 in
  let n' := Net.link_ports a b n in
  Net.enter_port a n' = Net.Returns b /\ Net.enter_port b n' = Net.Returns a.
Proof.
  intros Ha1 Hs1 Ha2 Hs2 a b n'.
  destruct (link_ports_get_port a1 s1 a2 s2 n Ha1 Hs1 Ha2 Hs2) as [Ea Eb].
  fold a b n' in Ea, Eb.
  destruct (Pointer_parts a1 s1 Ha1) as (Aa & As & At).
  destruct (Pointer_parts a2 s2 Ha2) as (Ba & Bs & Bt).
  rewrite (Z.mod_small s1 4) in As by lia.
  rewrite (Z.mod_small s2 4) in Bs by lia.
  fold a in Aa, As, At. fold b in Ba, Bs, Bt.
  unfold Net.enter_port. rewrite At, Bt.
  change (Net.PTR =? Net.NUM) with false. cbv iota.
  rewrite Aa, As, Ba, Bs, Ea, Eb. split; reflexivity.
Qed.

Lemma link_ports_enter_port_witness :
  Net.enter_port (Net.Pointer 0 1)
    (Net.link_ports (Net.Pointer 0 1) (Net.Pointer 1 0) Net.empty)
  = Net.Returns (Net.Pointer 1 0)
  /\ Net.enter_port (Net.Pointer 1 0)
       (Net.link_ports (Net.Pointer 0 1) (Net.Pointer 1 0) Net.empty)
     = Net.Returns (Net.Pointer 0 1).
Proof.
  refine (link_ports_enter_port 0 1 1 0 Net.empty _ _ _ _); cbn; lia.
Defined.

(** [x & (2^k - 1)] is [x] modulo [2^k]; [v >>> s] and [a << s] on
    numbers in range. *)
Lemma band_ones (x k : Z) :
  0 <= k < 32 -> Net.band x (Z.ones k) = x mod 2 ^ k.
Proof.
  intros Hk. unfold Net.band.
  assert (Ho : to_int32 (Z.ones k) = Z.ones k).
  { apply to_int32_small. rewrite Z.ones_equiv.
    assert (0 < 2 ^ k) by (apply Z.pow_pos_nonneg; lia).
    assert (2 ^ k <= 2 ^ 31) by (apply Z.pow_le_mono_r; lia).
    lia. }
  rewrite Ho, Z.land_ones by lia.
  apply Z.bits_inj'. intros i Hi.
  destruct (Z_lt_le_dec i k) as [Hlt|Hge].
  - rewrite !Z.mod_pow2_bits_low by lia. apply testbit_to_int32. lia.
  - rewrite !Z.mod_pow2_bits_high by lia. reflexivity.
Qed.

Lemma shr_div (v s : Z) :
  0 <= v < 2 ^ 32 -> 0 <= s < 32 -> Net.shr v s = v / 2 ^ s.
Proof.
  intros Hv Hs. unfold Net.shr. rewrite (Z.mod_small s 32) by lia.
  rewrite to_uint32_small by exact Hv.
  apply Z.shiftr_div_pow2. lia.
Qed.

Lemma shl_mul (a s : Z) :
  0 <= s < 32 -> - 2 ^ 31 <= a * 2 ^ s < 2 ^ 31 -> - 2 ^ 31 <= a < 2 ^ 31 ->
  Net.shl a s = a * 2 ^ s.
Proof.
  intros Hs Hr Ha. unfold Net.shl. rewrite (Z.mod_small s 32) by lia.
  rewrite (to_int32_small a) by exact Ha.
  rewrite Z.shiftl_mul_pow2 by lia. apply to_int32_small, Hr.
Qed.

(** The cells of the node [clear_node] fills. *)
Lemma clear_node_cells (addr info : Z) (n : Net.net) :
  let n' := Net.clear_node addr info n in
  Net.node_get n' (addr * 4 + 0) = Some (addr * 4 + 0)
  /\ Net.node_get n' (addr * 4 + 1) = Some (addr * 4 + 1)
  /\ Net.node_get n' (addr * 4 + 2) = Some (addr * 4 + 2)
  /\ Net.node_get n' (addr * 4 + 3) = Some info.
Proof.
  unfold Net.clear_node. cbv zeta.
  repeat split;
    repeat first [ apply node_get_set | rewrite node_get_set_ne by lia ].
Qed.

(** X28. With nothing to reclaim, [alloc_node] takes the next four
    cells of the array: the node is at [length / 4], its three ports
    point to themselves, its type reads back modulo 8 and its kind as
    given.  A node of type 0 and kind 0 is what [is_free] takes for a
    freed node. *)
Theorem alloc_node_fresh (type kind : Z) (n : Net.net) :
  Net.freed n = [] -> 0 <= Net.len n < 2 ^ 31 -> Net.len n mod 4 = 0 ->
  0 <= kind < 2 ^ 25 ->
  let addr := Net.len n / 4 in
  exists n',
    Net.alloc_node type kind n = Net.Returns (addr, n')
    /\ Net.len n' = Net.len n + 4
    /\ (forall slot, 0 <= slot <= 2 ->
          Net.get_port addr slot n' = Net.Pointer addr slot)
    /\ Net.node_type addr n' = type mod 8
    /\ Net.node_kind addr n' = kind
    /\ (Net.is_free addr n' = true <-> type mod 8 = 0 /\ kind = 0).
Proof.
  intros Hf Hlen Hmod Hkind addr.
  change (2 ^ 31) with 2147483648 in Hlen. change (2 ^ 25) with 33554432 in Hkind.
  assert (Haddr : addr * 4 = Net.len n).
  { unfold addr. pose proof (Z.div_mod (Net.len n) 4 ltac:(lia)). lia. }
  pose proof (Z.mod_pos_bound type 8 ltac:(lia)) as Ht.
  set (info := Net.shl kind 6 + Net.shl (Net.band type 7) 3).
  assert (Hinfo : info = kind * 64 + type mod 8 * 8).
  { unfold info. change 7 with (Z.ones 3). rewrite band_ones by lia.
    change (2 ^ 3) with 8.
    rewrite !shl_mul by (try (change (2 ^ 6) with 64); try (change (2 ^ 3) with 8);
                          try (change (2 ^ 31) with 2147483648); lia).
    reflexivity. }
  assert (Halloc : Net.alloc_node type kind n
                   = Net.Returns (addr, Net.clear_node addr info n)).
  { unfold Net.alloc_node. rewrite Hf, Hmod. reflexivity. }
  clearbody info. subst info.
  set (info := kind * 64 + type mod 8 * 8) in *.
  assert (Hinfo : info = kind * 64 + type mod 8 * 8) by reflexivity.
  clearbody info.
  exists (Net.clear_node addr info n).
  destruct (clear_node_cells addr info n) as (C0 & C1 & C2 & C3).
  split; [exact Halloc|]. clear Halloc.
  split; [|split; [|split; [|split]]].
  - unfold Net.clear_node, Net.node_set. cbn [Net.len].
    repeat match goal with
           | |- context [(0 <=? ?i) && (?l <=? ?i)] =>
               replace ((0 <=? i) && (l <=? i)) with true
                 by (symmetry; apply andb_true_intro; split; apply Z.leb_le; lia)
           end.
    lia.
  - intros slot Hs.
    assert (Hc : Net.node_get (Net.clear_node addr info n) (addr * 4 + slot)
                 = Some (addr * 4 + slot)).
    { assert (slot = 0 \/ slot = 1 \/ slot = 2) as [->|[->| ->]] by lia;
        assumption. }
    unfold Net.get_port, Net.is_numeric.
    rewrite C3, Hc. cbn [Net.num default]. unfold id.
    rewrite numeric_bit by lia. rewrite Hinfo.
    replace (kind * 64 + type mod 8 * 8) with ((kind * 8 + type mod 8) * 2 ^ 3)
      by (change (2 ^ 3) with 8; lia).
    rewrite Z.mul_pow2_bits_low by lia. cbn [Z.b2z Z.eqb negb].
    rewrite shr_2 by (change (2 ^ 32) with 4294967296; lia).
    rewrite band_3.
    replace ((addr * 4 + slot) / 4) with addr
      by (apply (Z.div_unique_pos _ _ _ slot); lia).
    replace ((addr * 4 + slot) mod 4) with slot
      by (apply (Z.mod_unique_pos _ _ addr); lia).
    reflexivity.
  - unfold Net.node_type. rewrite C3. cbn [Net.num default]. unfold id.
    rewrite Hinfo. rewrite shr_div by (change (2 ^ 32) with 4294967296; lia).
    change 7 with (Z.ones 3). rewrite band_ones by lia.
    change (2 ^ 3) with 8.
    replace ((kind * 64 + type mod 8 * 8) / 8) with (kind * 8 + type mod 8)
      by (apply (Z.div_unique_pos _ _ _ 0); lia).
    symmetry. apply (Z.mod_unique_pos _ _ kind); lia.
  - unfold Net.node_kind. rewrite C3. cbn [Net.num default]. unfold id.
    rewrite Hinfo. rewrite shr_div by (change (2 ^ 32) with 4294967296; lia).
    change (2 ^ 6) with 64. symmetry.
    apply (Z.div_unique_pos _ _ _ (type mod 8 * 8)); lia.
  - unfold Net.is_free. rewrite C0, C1, C2, C3.
    rewrite !bool_decide_eq_true_2 by reflexivity. cbn [andb].
    rewrite bool_decide_eq_true. rewrite Hinfo.
    split; [intros [= H]; lia|intros [H1 H2]; f_equal; lia].
Qed.

Lemma alloc_node_fresh_witness :
  let addr := Net.len Net.empty / 4 in
  exists n',
    Net.alloc_node Net.OP1 5 Net.empty = Net.Returns (addr, n')
    /\ Net.len n' = Net.len Net.empty + 4
    /\ (forall slot, 0 <= slot <= 2 ->
          Net.get_port addr slot n' = Net.Pointer addr slot)
    /\ Net.node_type addr n' = Net.OP1 mod 8
    /\ Net.node_kind addr n' = 5
    /\ (Net.is_free addr n' = true <-> Net.OP1 mod 8 = 0 /\ 5 = 0).
Proof.
  apply (alloc_node_fresh Net.OP1 5 Net.empty);
    [reflexivity|cbn; lia|reflexivity|lia].
Defined.


Lemma node_get_free_node (addr i : Z) (n : Net.net) :
  Net.node_get (Net.free_node addr n) i
  = Net.node_get (Net.clear_node addr 0 n) i.
Proof. reflexivity. Qed.

Lemma freed_clear_node (addr info : Z) (n : Net.net) :
  Net.freed (Net.clear_node addr info n) = Net.freed n.
Proof. reflexivity. Qed.

(** X29. A node that was freed is free, and it is the one the next
    [alloc_node] hands out again. *)
Theorem free_node_alloc_node (addr type kind : Z) (n : Net.net) :
  Net.is_free addr (Net.free_node addr n) = true
  /\ exists n',
       Net.alloc_node type kind (Net.free_node addr n) = Net.Returns (addr, n')
       /\ Net.freed n' = Net.freed n.
Proof.
  split.
  - unfold Net.is_free. rewrite !node_get_free_node.
    destruct (clear_node_cells addr 0 n) as (C0 & C1 & C2 & C3).
    rewrite C0, C1, C2, C3.
    rewrite !bool_decide_eq_true_2 by reflexivity. reflexivity.
  - assert (Hfr : Net.freed (Net.free_node addr n) = (Net.freed n ++ [addr])%list)
      by reflexivity.
    unfold Net.alloc_node. rewrite Hfr.
    destruct (Net.freed n ++ [addr])%list as [|x l] eqn:E;
      [destruct (Net.freed n); discriminate|].
    rewrite <- E, last_last.
    eexists. split; [reflexivity|].
    rewrite freed_clear_node. cbn [Net.freed]. apply removelast_last.
Qed.

(** X30. [unlink_port] undoes [link_ports]: after linking two port
    pointers and unlinking one of them, each of the two ports points to
    itself again. *)
Theorem unlink_port_link_ports (a1 s1 a2 s2 : Z) (n : Net.net) :
  0 <= a1 < 2 ^ 29 -> 0 <= s1 <= 2 -> 0 <= a2 < 2 ^ 29 -> 0 <= s2 <= 2 ->
  let a := Net.Pointer a1 s1 in
  let b := Net.Pointer a2 s2 in
  let n' := Net.unlink_port a (Net.link_ports a b n) in
  Net.enter_port a n' = Net.Returns a /\ Net.enter_port b n' = Net.Returns b.
Proof.
  intros Ha1 Hs1 Ha2 Hs2 a b n'.
  destruct (link_ports_get_port a1 s1 a2 s2 n Ha1 Hs1 Ha2 Hs2) as [Ea Eb].
  fold a b in Ea, Eb.
  destruct (Pointer_parts a1 s1 Ha1) as (Aa & As & At).
  destruct (Pointer_parts a2 s2 Ha2) as (Ba & Bs & Bt).
  rewrite (Z.mod_small s1 4) in As by lia.
  rewrite (Z.mod_small s2 4) in Bs by lia.
  fold a in Aa, As, At. fold b in Ba, Bs, Bt.
  set (m := Net.link_ports a b n) in *.
  assert (Hn : n' = Net.set_port a2 s2 b (Net.set_port a1 s1 a m)).
  { unfold n', Net.unlink_port. rewrite At. rewrite Z.eqb_refl.
    cbv zeta. rewrite Aa, As, Ea. rewrite Bt, Z.eqb_refl. cbn [andb].
    rewrite Ba, Bs, Eb. unfold Net.ptrn_eq.
    rewrite !bool_decide_eq_true_2 by reflexivity. cbn [andb].
    reflexivity. }
  unfold Net.enter_port. rewrite At, Bt.
  change (Net.PTR =? Net.NUM) with false. cbv iota.
  rewrite Aa, As, Ba, Bs, Hn.
  split; f_equal; [|apply get_port_set_port_Pointer; assumption].
  destruct (Z.eq_dec a1 a2) as [E1|E1];
    [destruct (Z.eq_dec s1 s2) as [E2|E2]|].
  - clear Ea Eb Hn. subst n' m a b. subst a2 s2.
    apply get_port_set_port_Pointer; assumption.
  - rewrite get_port_set_port_other by (try lia; right; exact E2).
    apply get_port_set_port_Pointer; assumption.
  - rewrite get_port_set_port_other by (try lia; left; exact E1).
    apply get_port_set_port_Pointer; assumption.
Qed.

Lemma unlink_port_link_ports_witness :
  Net.enter_port (Net.Pointer 0 1)
    (Net.unlink_port (Net.Pointer 0 1)
       (Net.link_ports (Net.Pointer 0 1) (Net.Pointer 1 0) Net.empty))
  = Net.Returns (Net.Pointer 0 1)
  /\ Net.enter_port (Net.Pointer 1 0)
       (Net.unlink_port (Net.Pointer 0 1)
          (Net.link_ports (Net.Pointer 0 1) (Net.Pointer 1 0) Net.empty))
     = Net.Returns (Net.Pointer 1 0).
Proof.
  refine (unlink_port_link_ports 0 1 1 0 Net.empty _ _ _ _); cbn; lia.
Defined.
